(** * Phrase segmentation of [recognisers.py]: [record],
    [adjust_for_ambient_noise] and [listen].

    The three methods of [Recognizer] are embedded as functions over an
    explicit world: the number of buffers already read from the source and
    the recogniser object (whose [energy_threshold] is the only field the
    methods assign).  A Python number is represented by its value, a
    rational.  The clocks of the three loops ([elapsed_time],
    [offset_time]), [seconds_per_buffer] and the quotients under
    [math.ceil] are Python floats: they are computed with the float
    operations [+] and [/], which round their exact result to the nearest
    number with a mantissa of 53 bits, ties to even, as binary64 does (the
    exponent is not bounded: no overflow to infinity, no subnormals).
    Comparisons are exact, as Python's are.  The arithmetic of
    [energy_threshold] is exact, and the two operations the source takes
    from outside the repository for it, [audioop.rms] and the float power
    operator, are parameters of the development.  The [while True] loops
    are run with fuel, one unit per loop iteration; every iteration that
    does not leave its loop at once reads one buffer.  The module's helper
    [shutil_which] is embedded over the operations of [os] that it calls,
    which are parameters as well. *)

From Stdlib Require Import ZArith QArith Qround Qpower List Sorted Bool.
From Stdlib Require Import Lia Lqa Strings.Byte.
From Stdlib Require Strings.Ascii Strings.String.
From Stdlib Require Import Floats.SpecFloat.
Import ListNotations.

Local Open Scope Z_scope.

(** ** Data model *)

(** One result of [source.stream.read(source.CHUNK)]: raw PCM bytes.  The
    empty buffer signals the end of the stream. *)
Abbreviation buffer := (list byte).

(** [AudioSource]: the attributes the recogniser uses, and the stream as the
    sequence of buffers that successive reads return. *)
Record AudioSource := {
  CHUNK : positive;
  SAMPLE_RATE : positive;
  SAMPLE_WIDTH : positive;
  stream : nat -> buffer
}.

(** A source backed by finitely many buffers: every read past the last one
    returns the empty buffer. *)
Definition stream_of_list (l : list buffer) : nat -> buffer :=
  fun n => nth n l [].

Record AudioData := {
  frame_data : list byte;
  sample_rate : positive;
  sample_width : positive
}.

(** [Recognizer.__init__] lists the fields.  A field holds the value of a
    Python number; where a float operation uses it, it is converted to a
    float first ([buffer_count] below). *)
Record Recognizer := {
  energy_threshold : Q;
  dynamic_energy_threshold : bool;
  dynamic_energy_adjustment_damping : Q;
  dynamic_energy_ratio : Q;
  pause_threshold : Q;
  phrase_threshold : Q;
  non_speaking_duration : Q
}.

Definition Recognizer_init : Recognizer := {|
  energy_threshold := 600;
  dynamic_energy_threshold := false;
  dynamic_energy_adjustment_damping := 15 # 100;
  dynamic_energy_ratio := 2;
  pause_threshold := 1 # 2;
  phrase_threshold := 1 # 2;
  non_speaking_duration := 2 # 10
|}.

(** [self.energy_threshold = q] *)
Definition set_energy_threshold (r : Recognizer) (q : Q) : Recognizer := {|
  energy_threshold := q;
  dynamic_energy_threshold := dynamic_energy_threshold r;
  dynamic_energy_adjustment_damping := dynamic_energy_adjustment_damping r;
  dynamic_energy_ratio := dynamic_energy_ratio r;
  pause_threshold := pause_threshold r;
  phrase_threshold := phrase_threshold r;
  non_speaking_duration := non_speaking_duration r
|}.

(** The mutable world of a call: how many reads the source has served, and
    the recogniser object. *)
Record world := {
  reads : nat;
  self : Recognizer
}.

Definition after_read (w : world) : world :=
  {| reads := S (reads w); self := self w |}.

Definition with_threshold (w : world) (q : Q) : world :=
  {| reads := reads w; self := set_energy_threshold (self w) q |}.

Inductive exn := WaitTimeoutError | AssertionError | IndexError.

(** How a call ends: a value, an exception, or the fuel ran out while the
    loop was still running. *)
Inductive outcome (A : Type) :=
| Return (a : A) (w : world)
| Raise (e : exn) (w : world)
| OutOfFuel.
Arguments Return {A} a w.
Arguments Raise {A} e w.
Arguments OutOfFuel {A}.

(** ** Python expressions *)

(** Truthiness of an optional number: [None] and zero are false. *)
Definition truthy (o : option Q) : bool :=
  match o with
  | None => false
  | Some q => negb (Qeq_bool q 0)
  end.

Definition Qgtb (a b : Q) : bool := negb (Qle_bool a b).

(** [x > o], for the [o] of a test [o and x > o]: [None] is never
    compared. *)
Definition exceeds (x : Q) (o : option Q) : bool :=
  match o with
  | None => false
  | Some q => Qgtb x q
  end.

(** ** Python floats *)

(** The exponent of the leading bit of a positive rational:
    [2 ^ binade q <= q < 2 ^ (binade q + 1)]. *)
Definition binade (q : Q) : Z :=
  let e := Z.log2 (Qnum q) - Z.log2 (Zpos (Qden q)) in
  if Qle_bool (2 ^ e) q then e else e - 1.

(** The nearest integer, the even one of the two when they are equally
    near. *)
Definition round_half_even (x : Q) : Z :=
  let f := Qfloor x in
  let r := (x - inject_Z f)%Q in
  if Qle_bool r (1 # 2)
  then (if Qeq_bool r (1 # 2) then (if Z.even f then f else f + 1) else f)
  else f + 1.

(** A positive rational rounded to 53 significant bits. *)
Definition round_mantissa (q : Q) : Q :=
  let c := binade q - 52 in
  (inject_Z (round_half_even (q / 2 ^ c)) * 2 ^ c)%Q.

(** The float nearest to a rational: what a float operation returns for
    the exact result [q], and what [float(n)] returns for an integer. *)
Definition float_round (q : Q) : Q :=
  if Qeq_bool q 0 then 0%Q
  else if Qle_bool 0 q then round_mantissa q
  else (- round_mantissa (- q))%Q.

(** [a + b] and [a / b] on floats; an integer operand is converted
    first. *)
Definition float_add (a b : Q) : Q := float_round (a + b).

Definition float_div (a b : Q) : Q := float_round (a / b).

Definition float_of_int (z : Z) : Q := float_round (inject_Z z).

(** [(source.CHUNK + 0.0) / source.SAMPLE_RATE] *)
Definition seconds_per_buffer (source : AudioSource) : Q :=
  float_div (float_add (float_of_int (Zpos (CHUNK source))) 0)
            (float_of_int (Zpos (SAMPLE_RATE source))).

(** [int(math.ceil(x / seconds_per_buffer))]: the number [x] is
    converted to a float (it is one already, or an integer), divided as
    floats are, and the quotient is taken up to the next integer. *)
Definition buffer_count (x spb : Q) : Z :=
  Qceiling (float_div (float_round x) spb).

Arguments float_round : simpl never.
Arguments float_add : simpl never.
Arguments float_div : simpl never.
Arguments seconds_per_buffer : simpl never.

(** [assert self.pause_threshold >= self.non_speaking_duration >= 0] *)
Definition thresholds_ok (r : Recognizer) : bool :=
  Qle_bool (non_speaking_duration r) (pause_threshold r)
  && Qle_bool 0 (non_speaking_duration r).

(** [frames.pop()] repeated [n] times on a deque; popping an empty deque
    raises [IndexError]. *)
Fixpoint pop_n (n : nat) (frames : list buffer) : option (list buffer) :=
  match n with
  | O => Some frames
  | S k =>
      match frames with
      | [] => None
      | _ :: _ => pop_n k (removelast frames)
      end
  end.

(** ** Control points and results of [listen] *)

(** Where the control is: at the head of the inner loop that waits for
    speech, or at the head of the one that captures the phrase, with the
    locals that are live there. *)
Inductive listen_state :=
| PhaseA (elapsed_time : Q) (frames : list buffer)
| PhaseB (elapsed_time : Q) (frames : list buffer)
         (pause_count phrase_count : Z).

(** What the outer loop hands over when it breaks. *)
Record phrase := {
  ring : list buffer;
  final_pause_count : Z;
  final_phrase_count : Z
}.

Inductive step :=
| Continue (s : listen_state) (w : world)
| Done (o : outcome phrase).

Section Recognizer.

(** [audioop.rms(buffer, width)] *)
Variable rms : buffer -> positive -> Z.
(** The float operator [**]. *)
Variable float_pow : Q -> Q -> Q.

(** Lines 164-166 and 207-209, the same three statements:
    [damping = self.dynamic_energy_adjustment_damping ** seconds_per_buffer;
     target_energy = energy * self.dynamic_energy_ratio;
     self.energy_threshold = self.energy_threshold * damping
                             + target_energy * (1 - damping)]. *)
Definition adjust_threshold (spb : Q) (energy : Z) (w : world) : world :=
  let damping := float_pow (dynamic_energy_adjustment_damping (self w)) spb in
  let target_energy := (inject_Z energy * dynamic_energy_ratio (self w))%Q in
  with_threshold w
    (energy_threshold (self w) * damping + target_energy * (1 - damping))%Q.

(** *** [record] *)

Section Record.
Variable source : AudioSource.
Variables duration offset : option Q.

Local Abbreviation spb := (seconds_per_buffer source).

(** Lines 123-136: the [while True] loop of [record]; the arguments are
    its locals, [frames] the contents of the [BytesIO]. *)
Fixpoint record_loop (fuel : nat) (elapsed_time offset_time : Q)
    (offset_reached : bool) (frames : list byte) (w : world)
    : outcome (list byte) :=
  match fuel with
  | O => OutOfFuel
  | S fuel' =>
      let offset_time' :=
        if truthy offset && negb offset_reached
        then float_add offset_time spb else offset_time in
      let offset_reached' :=
        if truthy offset && negb offset_reached
        then (if exceeds offset_time' offset then true else offset_reached)
        else offset_reached in
      let buffer := stream source (reads w) in
      let w := after_read w in
      if (length buffer =? 0)%nat then Return frames w
      else if offset_reached' || negb (truthy offset) then
        let elapsed_time := float_add elapsed_time spb in
        if truthy duration && exceeds elapsed_time duration
        then Return frames w
        else record_loop fuel' elapsed_time offset_time' offset_reached'
               (frames ++ buffer) w
      else record_loop fuel' elapsed_time offset_time' offset_reached'
             frames w
  end.

Definition record (fuel : nat) (w : world) : outcome AudioData :=
  match record_loop fuel 0 0 false [] w with
  | Return frame_data w' =>
      Return {| frame_data := frame_data;
                sample_rate := SAMPLE_RATE source;
                sample_width := SAMPLE_WIDTH source |} w'
  | Raise e w' => Raise e w'
  | OutOfFuel => OutOfFuel
  end.
End Record.

(** *** [adjust_for_ambient_noise] *)

Section Adjust.
Variable source : AudioSource.
Variable duration : Q.

Local Abbreviation spb := (seconds_per_buffer source).

(** Lines 157-166: the loop reads without a test for the end of the
    stream. *)
Fixpoint adjust_loop (fuel : nat) (elapsed_time : Q) (w : world)
    : outcome unit :=
  match fuel with
  | O => OutOfFuel
  | S fuel' =>
      let elapsed_time := float_add elapsed_time spb in
      if Qgtb elapsed_time duration then Return tt w
      else
        let buffer := stream source (reads w) in
        let w := after_read w in
        let energy := rms buffer (SAMPLE_WIDTH source) in
        adjust_loop fuel' elapsed_time (adjust_threshold spb energy w)
  end.

Definition adjust_for_ambient_noise (fuel : nat) (w : world)
    : outcome unit :=
  if negb (thresholds_ok (self w)) then Raise AssertionError w
  else adjust_loop fuel 0 w.
End Adjust.

(** *** [listen] *)

Section Listen.
Variable source : AudioSource.
Variable timeout : option Q.

Local Abbreviation spb := (seconds_per_buffer source).

(** The three buffer counts computed at entry. *)
Variables pause_buffer_count phrase_buffer_count
          non_speaking_buffer_count : Z.

(** Lines 230-232: the end of an outer iteration. *)
Definition phrase_end (elapsed_time : Q) (frames : list buffer)
    (pause_count phrase_count : Z) (w : world) : step :=
  let phrase_count := phrase_count - pause_count in
  if phrase_count >=? phrase_buffer_count
  then Done (Return {| ring := frames;
                       final_pause_count := pause_count;
                       final_phrase_count := phrase_count |} w)
  else Continue (PhaseA elapsed_time []) w.

(** One iteration of the loop the control is in. *)
Definition listen_step (s : listen_state) (w : world) : step :=
  match s with
  | PhaseA elapsed_time frames =>
      let elapsed_time := float_add elapsed_time spb in
      if truthy timeout && exceeds elapsed_time timeout
      then Done (Raise WaitTimeoutError w)
      else
        let buffer := stream source (reads w) in
        let w := after_read w in
        if (length buffer =? 0)%nat
        then Continue (PhaseB elapsed_time frames 0 0) w
        else
          let frames := frames ++ [buffer] in
          let frames :=
            if Z.of_nat (length frames) >? non_speaking_buffer_count
            then tl frames else frames in
          let energy := rms buffer (SAMPLE_WIDTH source) in
          if Qgtb (inject_Z energy) (energy_threshold (self w))
          then Continue (PhaseB elapsed_time frames 0 0) w
          else
            let w :=
              if dynamic_energy_threshold (self w)
              then adjust_threshold spb energy w else w in
            Continue (PhaseA elapsed_time frames) w
  | PhaseB elapsed_time frames pause_count phrase_count =>
      let elapsed_time := float_add elapsed_time spb in
      let buffer := stream source (reads w) in
      let w := after_read w in
      if (length buffer =? 0)%nat
      then phrase_end elapsed_time frames pause_count phrase_count w
      else
        let frames := frames ++ [buffer] in
        let phrase_count := phrase_count + 1 in
        let energy := rms buffer (SAMPLE_WIDTH source) in
        let pause_count :=
          if Qgtb (inject_Z energy) (energy_threshold (self w))
          then 0 else pause_count + 1 in
        if pause_count >? pause_buffer_count
        then phrase_end elapsed_time frames pause_count phrase_count w
        else Continue (PhaseB elapsed_time frames pause_count phrase_count) w
  end.

(** Lines 186-232: the outer [while True], entered at any control point. *)
Fixpoint listen_loop (fuel : nat) (s : listen_state) (w : world)
    : outcome phrase :=
  match fuel with
  | O => OutOfFuel
  | S fuel' =>
      match listen_step s w with
      | Continue s' w' => listen_loop fuel' s' w'
      | Done o => o
      end
  end.

(** Lines 234-238: drop the extra trailing buffers, join, wrap. *)
Definition obtain_frame_data (p : phrase) (w : world) : outcome AudioData :=
  match pop_n (Z.to_nat (final_pause_count p - non_speaking_buffer_count))
              (ring p) with
  | None => Raise IndexError w
  | Some frames =>
      Return {| frame_data := concat frames;
                sample_rate := SAMPLE_RATE source;
                sample_width := SAMPLE_WIDTH source |} w
  end.
End Listen.

Definition listen (source : AudioSource) (timeout : option Q)
    (fuel : nat) (w : world) : outcome AudioData :=
  if negb (thresholds_ok (self w)) then Raise AssertionError w
  else
    let spb := seconds_per_buffer source in
    let pause_buffer_count := buffer_count (pause_threshold (self w)) spb in
    let phrase_buffer_count := buffer_count (phrase_threshold (self w)) spb in
    let non_speaking_buffer_count :=
      buffer_count (non_speaking_duration (self w)) spb in
    match listen_loop source timeout pause_buffer_count phrase_buffer_count
            non_speaking_buffer_count fuel (PhaseA 0 []) w with
    | Return p w' => obtain_frame_data source non_speaking_buffer_count p w'
    | Raise e w' => Raise e w'
    | OutOfFuel => OutOfFuel
    end.

End Recognizer.

(** ** [shutil_which] *)

(** [s.split(sep)] for a separator of one character, as [os.path.pathsep]
    is: the pieces of [s] between the occurrences of [sep], the empty ones
    included. *)
Fixpoint str_split (sep : Ascii.ascii) (s : String.string)
    : list String.string :=
  match s with
  | String.EmptyString => [String.EmptyString]
  | String.String c rest =>
      if Ascii.eqb c sep then String.EmptyString :: str_split sep rest
      else
        match str_split sep rest with
        | [] => [String.String c String.EmptyString]
        | piece :: pieces => String.String c piece :: pieces
        end
  end.

(** How a call of [shutil_which] ends: with a path or [None], or with the
    [AttributeError] of [None.split]. *)
Inductive which_outcome :=
| WhichReturn (p : option String.string)
| WhichAttributeError.

Section Which.
(** [os.getenv('PATH')]: [None] when the variable is not set. *)
Variable PATH : option String.string.
(** [os.path.pathsep] *)
Variable pathsep : Ascii.ascii.
(** [os.path.join], [os.path.exists] and [os.access(_, os.X_OK)] *)
Variable os_path_join : String.string -> String.string -> String.string.
Variable os_path_exists : String.string -> bool.
Variable os_access_X_OK : String.string -> bool.

(** Lines 275-278: the [for] loop over the entries; falling off its end
    returns [None]. *)
Fixpoint which_loop (pgm : String.string) (entries : list String.string)
    : option String.string :=
  match entries with
  | [] => None
  | p :: rest =>
      let p := os_path_join p pgm in
      if os_path_exists p && os_access_X_OK p then Some p
      else which_loop pgm rest
  end.

Definition shutil_which (pgm : String.string) : which_outcome :=
  match PATH with
  | None => WhichAttributeError
  | Some path => WhichReturn (which_loop pgm (str_split pathsep path))
  end.
End Which.

(** ** Runs and invariants of [listen] *)

Section ListenRun.
Variable rms : buffer -> positive -> Z.
Variable float_pow : Q -> Q -> Q.
Variable source : AudioSource.
Variable timeout : option Q.
Variables pause_buffer_count phrase_buffer_count non_speaking_buffer_count : Z.

(** Where the control is after [k] loop iterations, or how the call ended
    within them. *)
Fixpoint listen_run (k : nat) (s : listen_state) (w : world) : step :=
  match k with
  | O => Continue s w
  | S k' =>
      match listen_step rms float_pow source timeout pause_buffer_count
              phrase_buffer_count non_speaking_buffer_count s w with
      | Continue s' w' => listen_run k' s' w'
      | Done o => Done o
      end
  end.

(** What holds of the locals at each loop head. *)
Definition state_inv (s : listen_state) : Prop :=
  match s with
  | PhaseA _ frames => Z.of_nat (length frames) <= non_speaking_buffer_count
  | PhaseB _ frames pause_count phrase_count =>
      0 <= pause_count <= phrase_count
      /\ pause_count <= pause_buffer_count
      /\ phrase_count <= Z.of_nat (length frames)
         <= phrase_count + non_speaking_buffer_count
  end.

(** The buffers that were in the ring before the first one of phase B. *)
Definition pre_roll (p : phrase) : Z :=
  Z.of_nat (length (ring p)) - final_phrase_count p - final_pause_count p.

(** What holds of the locals when the outer loop breaks. *)
Definition phrase_post (n0 : nat) (p : phrase) (w : world) : Prop :=
  0 <= final_pause_count p <= pause_buffer_count + 1
  /\ phrase_buffer_count <= final_phrase_count p
  /\ 0 <= final_phrase_count p
  /\ 0 <= pre_roll p <= non_speaking_buffer_count
  /\ (final_pause_count p = pause_buffer_count + 1
      \/ exists n, (n0 <= n)%nat /\ reads w = S n /\ stream source n = []).
End ListenRun.

(** The three counts [listen] computes at entry, as functions of the source
    and of the recogniser. *)
Definition pause_buffers (source : AudioSource) (r : Recognizer) : Z :=
  buffer_count (pause_threshold r) (seconds_per_buffer source).

Definition phrase_buffers (source : AudioSource) (r : Recognizer) : Z :=
  buffer_count (phrase_threshold r) (seconds_per_buffer source).

Definition non_speaking_buffers (source : AudioSource) (r : Recognizer) : Z :=
  buffer_count (non_speaking_duration r) (seconds_per_buffer source).

(** The outer loop of [listen] from its entry, with the counts of the
    recogniser the call starts with. *)
Definition listen_phrase (rms : buffer -> positive -> Z)
    (float_pow : Q -> Q -> Q) (source : AudioSource) (timeout : option Q)
    (fuel : nat) (w : world) : outcome phrase :=
  listen_loop rms float_pow source timeout
    (pause_buffers source (self w)) (phrase_buffers source (self w))
    (non_speaking_buffers source (self w)) fuel (PhaseA 0 []) w.

(** The positions reached from the entry of [listen]. *)
Definition listen_trace (rms : buffer -> positive -> Z)
    (float_pow : Q -> Q -> Q) (source : AudioSource) (timeout : option Q)
    (k : nat) (w : world) : step :=
  listen_run rms float_pow source timeout
    (pause_buffers source (self w)) (phrase_buffers source (self w))
    (non_speaking_buffers source (self w)) k (PhaseA 0 []) w.

(** The ring holds buffers of the stream in the order they were read, all
    of them read at positions from [n0] up to [n]. *)
Definition arrival_ordered (source : AudioSource) (frames : list buffer)
    (n0 n : nat) : Prop :=
  (n0 <= n)%nat
  /\ exists idx, frames = map (stream source) idx
                 /\ StronglySorted lt idx
                 /\ Forall (fun i => (n0 <= i < n)%nat) idx.

(** The ring and the two counters after the statements of one iteration of
    the capture loop, and whether that iteration leaves the loop (end of the
    stream, or a pause longer than [pause_buffer_count]). *)
Definition capture_iteration (rms : buffer -> positive -> Z)
    (source : AudioSource) (pause_buffer_count : Z) (frames : list buffer)
    (pause_count phrase_count : Z) (w : world)
    : list buffer * Z * Z * bool :=
  let buffer := stream source (reads w) in
  if (length buffer =? 0)%nat then (frames, pause_count, phrase_count, true)
  else
    let pause_count :=
      if Qgtb (inject_Z (rms buffer (SAMPLE_WIDTH source)))
           (energy_threshold (self w))
      then 0 else pause_count + 1 in
    (frames ++ [buffer], pause_count, phrase_count + 1,
     pause_count >? pause_buffer_count).

(** A clock that stands at [e] after [k] more statements
    [clock += seconds_per_buffer]. *)
Fixpoint clock (source : AudioSource) (e : Q) (k : nat) : Q :=
  match k with
  | O => e
  | S k' => float_add (clock source e k') (seconds_per_buffer source)
  end.

(** The clock of a loop, which starts at 0, after [k] iterations. *)
Definition buffers_time (source : AudioSource) (k : nat) : Q :=
  clock source 0 k.

(** [n] buffers are within [x] seconds by the clock: the clock does not
    exceed [x] in its first [n] iterations and exceeds it in the next. *)
Definition buffers_within (source : AudioSource) (x : Q) (n : nat) : Prop :=
  (forall i, (1 <= i <= n)%nat -> (buffers_time source i <= x)%Q)
  /\ (x < buffers_time source (S n))%Q.

(** The number of buffers within [x] seconds, looked for among the first
    [bound] iterations of a clock that stands at [e]. *)
Fixpoint buffers_within_count (source : AudioSource) (x e : Q) (bound : nat)
    : option nat :=
  match bound with
  | O => None
  | S bound' =>
      let e' := float_add e (seconds_per_buffer source) in
      if Qgtb e' x then Some 0%nat
      else option_map S (buffers_within_count source x e' bound')
  end.

(** The limit is in force (neither [None] nor 0) and the clock exceeds it
    after [j] iterations. *)
Definition over (source : AudioSource) (limit : option Q) (j : nat) : bool :=
  truthy limit && exceeds (buffers_time source j) limit.

(** [record] passes over [k] buffers before it appends: those within
    [offset], none when [offset] is [None] or 0. *)
Definition skipped (source : AudioSource) (offset : option Q) (k : nat)
    : Prop :=
  match offset with
  | Some o => if truthy offset then buffers_within source o k else k = 0%nat
  | None => k = 0%nat
  end.

(** An iteration of [record] appends: the offset was reached before, or
    there is none, or it is reached by this iteration. *)
Definition appending (source : AudioSource) (offset : option Q)
    (offset_time : Q) (offset_reached : bool) : bool :=
  offset_reached || negb (truthy offset)
  || exceeds (float_add offset_time (seconds_per_buffer source)) offset.

(** The time that [n] buffers of the source hold. *)
Definition buffers_seconds (source : AudioSource) (n : nat) : Q :=
  inject_Z (Z.of_nat n) * (Zpos (CHUNK source) # SAMPLE_RATE source).

(** The length of an audio in seconds. *)
Definition audio_seconds (a : AudioData) : Q :=
  Z.of_nat (length (frame_data a))
  # (sample_rate a * sample_width a).

(** [n] updates of the threshold, one per buffer read. *)
Fixpoint calibrate (rms : buffer -> positive -> Z) (float_pow : Q -> Q -> Q)
    (source : AudioSource) (n : nat) (w : world) : world :=
  match n with
  | O => w
  | S k =>
      calibrate rms float_pow source k
        (adjust_threshold float_pow (seconds_per_buffer source)
           (rms (stream source (reads w)) (SAMPLE_WIDTH source))
           (after_read w))
  end.


(** [self.dynamic_energy_threshold = b] *)
Definition with_dynamic (w : world) (b : bool) : world :=
  {| reads := reads w;
     self := {| energy_threshold := energy_threshold (self w);
                dynamic_energy_threshold := b;
                dynamic_energy_adjustment_damping :=
                  dynamic_energy_adjustment_damping (self w);
                dynamic_energy_ratio := dynamic_energy_ratio (self w);
                pause_threshold := pause_threshold (self w);
                phrase_threshold := phrase_threshold (self w);
                non_speaking_duration := non_speaking_duration (self w) |} |}.

(** The last [pause_count] buffers of the ring are at or below the energy
    threshold. *)
Definition trailing_silence (rms : buffer -> positive -> Z)
    (source : AudioSource) (frames : list buffer) (pause_count : Z)
    (w : world) : Prop :=
  Forall (fun b => Qgtb (inject_Z (rms b (SAMPLE_WIDTH source)))
                     (energy_threshold (self w)) = false)
         (skipn (length frames - Z.to_nat pause_count) frames).

Definition state_silence (rms : buffer -> positive -> Z)
    (source : AudioSource) (s : listen_state) (w : world) : Prop :=
  match s with
  | PhaseA _ _ => True
  | PhaseB _ frames pause_count _ =>
      trailing_silence rms source frames pause_count w
  end.

Definition state_frames (s : listen_state) : list buffer :=
  match s with
  | PhaseA _ frames => frames
  | PhaseB _ frames _ _ => frames
  end.

Definition state_elapsed (s : listen_state) : Q :=
  match s with
  | PhaseA e _ => e
  | PhaseB e _ _ _ => e
  end.

(** Bytes in a whole buffer. *)
Definition chunk_bytes (source : AudioSource) : Z :=
  Zpos (CHUNK source) * Zpos (SAMPLE_WIDTH source).

(** ** Concrete operations and inputs *)

(** [audioop.rms] on little-endian signed samples of [width] bytes: the
    integer part of the square root of the mean of the squares, 0 on an
    empty fragment. *)
Fixpoint le_unsigned (bs : list byte) : Z :=
  match bs with
  | [] => 0
  | b :: r => Z.of_N (Byte.to_N b) + 256 * le_unsigned r
  end.

Definition le_signed (bs : list byte) : Z :=
  let n := 8 * Z.of_nat (length bs) in
  let u := le_unsigned bs in
  if u <? 2 ^ (n - 1) then u else u - 2 ^ n.

Fixpoint samples (fuel width : nat) (bs : list byte) : list Z :=
  match fuel with
  | O => []
  | S fuel' =>
      match bs with
      | [] => []
      | _ :: _ =>
          le_signed (firstn width bs) :: samples fuel' width (skipn width bs)
      end
  end.

Definition audioop_rms (fragment : buffer) (width : positive) : Z :=
  let vals := samples (length fragment) (Pos.to_nat width) fragment in
  match vals with
  | [] => 0
  | _ :: _ =>
      Z.sqrt (fold_right (fun v acc => v * v + acc) 0 vals
              / Z.of_nat (length vals))
  end.

(** A power operator that is exact on integer exponents (the exponent is
    truncated to its integer part). *)
Definition pow_int (b e : Q) : Q := Qpower b (Qfloor e).

(** The Standard Library's specification of IEEE 754 arithmetic, at the
    format of a Python float (binary64): the value of a finite number, the
    float of an integer, [seconds_per_buffer] and a clock computed with its
    operations, and the comparison of that clock with the one above over
    [k] iterations. *)
Definition binary64_value (f : spec_float) : Q :=
  match f with
  | S754_finite s m e =>
      ((if s then - inject_Z (Zpos m) else inject_Z (Zpos m)) * 2 ^ e)%Q
  | _ => 0%Q
  end.

Definition binary64_of_int (z : Z) : spec_float :=
  binary_normalize 53 1024 z 0 false.

Definition binary64_quotient (a b c d : Z) : spec_float :=
  SFdiv 53 1024
    (SFdiv 53 1024 (binary64_of_int a) (binary64_of_int b))
    (SFdiv 53 1024 (binary64_of_int c) (binary64_of_int d)).

Definition binary64_seconds_per_buffer (source : AudioSource) : spec_float :=
  SFdiv 53 1024
    (SFadd 53 1024 (binary64_of_int (Zpos (CHUNK source))) (S754_zero false))
    (binary64_of_int (Zpos (SAMPLE_RATE source))).

Fixpoint clocks_agree (source : AudioSource) (c64 : spec_float) (c : Q)
    (k : nat) : bool :=
  Qeq_bool (binary64_value c64) c
  && match k with
     | O => true
     | S k' =>
         clocks_agree source
           (SFadd 53 1024 c64 (binary64_seconds_per_buffer source))
           (float_add c (seconds_per_buffer source)) k'
     end.

(** The floats that the literals [0.1] and [0.64] denote. *)
Definition tenth : Q := float_round (1 # 10).

Definition sixty_four_hundredths : Q := float_round (64 # 100).

(** One buffer of [n] 16-bit samples, all equal to [lo + 256 * hi]. *)
Definition tone (n : nat) (lo hi : byte) : buffer :=
  concat (repeat [lo; hi] n).

(** Whole buffers for 1024-sample chunks: silence, and a signal of
    energy 3000. *)
Definition silent : buffer := tone 1024 x00 x00.

Definition loud : buffer := tone 1024 xb8 x0b.

(** A source with the microphone defaults (16 kHz, 1024-sample chunks,
    16-bit samples) that serves the buffers of [l] and then is at its end. *)
Definition source_of (l : list buffer) : AudioSource := {|
  CHUNK := 1024;
  SAMPLE_RATE := 16000;
  SAMPLE_WIDTH := 2;
  stream := stream_of_list l
|}.

(** A microphone in a silent room: it never ends. *)
Definition quiet_source : AudioSource := {|
  CHUNK := 1024;
  SAMPLE_RATE := 16000;
  SAMPLE_WIDTH := 2;
  stream := fun _ => silent
|}.

(** A source that never ends, of one-second buffers at 4 kHz, all with
    the same 16-bit sample, 100. *)
Definition hum_source : AudioSource := {|
  CHUNK := 4000;
  SAMPLE_RATE := 4000;
  SAMPLE_WIDTH := 2;
  stream := fun _ => tone 4000 x64 x00
|}.

(** Ten seconds of silence. *)
Definition ten_seconds_of_silence : list buffer := repeat silent 157.

(** 0.25 s of silence, 1.2 s of speech, 0.77 s of silence. *)
Definition clean_phrase : list buffer :=
  repeat silent 4 ++ repeat loud 19 ++ repeat silent 12.

(** Ten buffers of speech and then the end of the stream. *)
Definition cut_phrase : list buffer := repeat loud 10.

(** A click of about 0.2 s between silences, then the end of the stream. *)
Definition blip : list buffer :=
  repeat silent 2 ++ repeat loud 3 ++ repeat silent 12.

(** The default recogniser with a pause threshold below the retained
    silence. *)
Definition short_pause : Recognizer := {|
  energy_threshold := 600;
  dynamic_energy_threshold := false;
  dynamic_energy_adjustment_damping := 15 # 100;
  dynamic_energy_ratio := 2;
  pause_threshold := 1 # 10;
  phrase_threshold := 1 # 2;
  non_speaking_duration := 2 # 10
|}.

(** The default recogniser with a negative phrase threshold. *)
Definition negative_phrase : Recognizer := {|
  energy_threshold := 600;
  dynamic_energy_threshold := false;
  dynamic_energy_adjustment_damping := 15 # 100;
  dynamic_energy_ratio := 2;
  pause_threshold := 1 # 2;
  phrase_threshold := - (1 # 2);
  non_speaking_duration := 2 # 10
|}.


(** The world at the start of a session: nothing read yet. *)
Definition fresh (r : Recognizer) : world := {| reads := 0; self := r |}.

(** Projections of an outcome, for naming the results of concrete calls. *)
Definition returned {A : Type} (default : A) (o : outcome A) : A :=
  match o with
  | Return a _ => a
  | _ => default
  end.

Definition final_world {A : Type} (default : world) (o : outcome A) : world :=
  match o with
  | Return _ w => w
  | Raise _ w => w
  | OutOfFuel => default
  end.

Definition is_return {A : Type} (o : outcome A) : bool :=
  match o with
  | Return _ _ => true
  | _ => false
  end.

Definition no_audio : AudioData :=
  {| frame_data := []; sample_rate := 1; sample_width := 1 |}.

(** [listen] on the clean phrase with the default recogniser. *)
Abbreviation clean_call :=
  (listen audioop_rms pow_int (source_of clean_phrase) None 40
     (fresh Recognizer_init)).

(** ** Notions for the further properties *)

(** The buffer read at position [n] is not empty and does not exceed the
    energy threshold of [r]; or it is not empty and exceeds it. *)
Definition quiet (rms : buffer -> positive -> Z) (source : AudioSource)
    (r : Recognizer) (n : nat) : Prop :=
  stream source n <> []
  /\ Qgtb (inject_Z (rms (stream source n) (SAMPLE_WIDTH source)))
       (energy_threshold r) = false.

Definition speaking (rms : buffer -> positive -> Z) (source : AudioSource)
    (r : Recognizer) (n : nat) : Prop :=
  stream source n <> []
  /\ Qgtb (inject_Z (rms (stream source n) (SAMPLE_WIDTH source)))
       (energy_threshold r) = true.

(** [frames] are the last [length frames] buffers read before position
    [n], in order, none of them read before position [n0]. *)
Definition contiguous (source : AudioSource) (frames : list buffer)
    (n0 n : nat) : Prop :=
  (n0 + length frames <= n)%nat
  /\ frames = map (stream source) (seq (n - length frames) (length frames)).

(** The non-empty buffers in a row from position [a], [m] at most. *)
Fixpoint available (source : AudioSource) (a m : nat) : nat :=
  match m with
  | O => O
  | S m' =>
      match stream source a with
      | [] => O
      | _ :: _ => S (available source (S a) m')
      end
  end.

(** Someone who does not stop talking: the source never ends and every
    buffer has energy 3000. *)
Definition loud_source : AudioSource := {|
  CHUNK := 1024;
  SAMPLE_RATE := 16000;
  SAMPLE_WIDTH := 2;
  stream := fun _ => loud
|}.

(** No occurrence of [sep] in [s]. *)
Fixpoint sep_free (sep : Ascii.ascii) (s : String.string) : bool :=
  match s with
  | String.EmptyString => true
  | String.String c rest => negb (Ascii.eqb c sep) && sep_free sep rest
  end.

(** The entries of a search path written out with separators between them. *)
Definition search_path (sep : Ascii.ascii) (entries : list String.string)
    : String.string :=
  String.concat (String.String sep String.EmptyString) entries.

(** An entry under which [pgm] exists and may be executed. *)
Definition usable (os_path_join : String.string -> String.string -> String.string)
    (os_path_exists os_access_X_OK : String.string -> bool)
    (pgm entry : String.string) : bool :=
  os_path_exists (os_path_join entry pgm)
  && os_access_X_OK (os_path_join entry pgm).

(** A file system with two executables, and the join of two path
    components with a slash. *)
Section WhichInputs.
Import Strings.Ascii Strings.String.

Definition slash_join (a b : String.string) : String.string :=
  String.append a (String.String "/"%char b).

Definition two_executables (p : String.string) : bool :=
  String.eqb p "/flac"%string || String.eqb p "/usr/bin/flac"%string.

(** [PATH=/opt/bin::/usr/bin] *)
Definition path_entries : list String.string :=
  ["/opt/bin"%string; String.EmptyString; "/usr/bin"%string].

Definition flac : String.string := "flac"%string.

Definition colon : Ascii.ascii := ":"%char.
End WhichInputs.

(** The default recogniser with a pause threshold of [0.07], and a source
    of buffers of a hundredth of a second, which ends after twelve of them,
    one of speech and eleven of silence. *)
Definition brief_pause : Recognizer := {|
  energy_threshold := 600;
  dynamic_energy_threshold := false;
  dynamic_energy_adjustment_damping := 15 # 100;
  dynamic_energy_ratio := 2;
  pause_threshold := 7 # 100;
  phrase_threshold := 0;
  non_speaking_duration := 0
|}.

Definition hundredth_second_source : AudioSource := {|
  CHUNK := 160;
  SAMPLE_RATE := 16000;
  SAMPLE_WIDTH := 2;
  stream := stream_of_list (tone 160 xb8 x0b :: repeat (tone 160 x00 x00) 11)
|}.

(** A source of buffers of a tenth of a second that is at its end, and
    where its clock stands after nine iterations. *)
Definition tenth_second_source : AudioSource := {|
  CHUNK := 1;
  SAMPLE_RATE := 10;
  SAMPLE_WIDTH := 2;
  stream := fun _ => []
|}.

Definition clock_at_nine_tenths : Q := buffers_time tenth_second_source 9.


(** ** Proof steps *)

(** Proof steps shared by the case analyses of a loop iteration: name the
    energy test, and split on an integer comparison. *)
Ltac abstract_loud H :=
  match type of H with
  | context [Qgtb ?a ?b] =>
      revert H; generalize (Qgtb a b); intros loud_enough H
  end.

Ltac case_gtb H :=
  match type of H with
  | context [?a >? ?b] =>
      destruct (Z.gtb_spec a b) as [Hgt|Hle]
  end.

(** * Properties *)

(** ** Python expressions and counting *)

Lemma Qgtb_true (a b : Q) : Qgtb a b = true <-> (b < a)%Q.
Proof.
  unfold Qgtb. rewrite negb_true_iff, <- not_true_iff_false, Qle_bool_iff.
  split; [apply Qnot_le_lt | apply Qlt_not_le].
Qed.

Lemma Qgtb_false (a b : Q) : Qgtb a b = false <-> (a <= b)%Q.
Proof.
  unfold Qgtb. rewrite negb_false_iff. apply Qle_bool_iff.
Qed.

Lemma truthy_Some (q : Q) : truthy (Some q) = true <-> ~ (q == 0)%Q.
Proof.
  simpl. rewrite negb_true_iff, <- not_true_iff_false, Qeq_bool_iff. tauto.
Qed.

Lemma truthy_zero (q : Q) : (q == 0)%Q -> truthy (Some q) = false.
Proof.
  intros H. simpl. apply negb_false_iff, Qeq_bool_iff, H.
Qed.

(** ** Rounding to a float *)

Lemma pow2_pos (e : Z) : (0 < 2 ^ e)%Q.
Proof. apply Qpower_0_lt. reflexivity. Qed.

Lemma pow2_S (e : Z) : (2 ^ (e + 1) == 2 * 2 ^ e)%Q.
Proof. rewrite Qpower_plus by discriminate. rewrite Qpower_1_r. ring. Qed.

Lemma pow2_Z (n : Z) : 0 <= n -> (inject_Z (2 ^ n) == 2 ^ n)%Q.
Proof. intros H. apply (Zpower_Qpower 2 n H). Qed.

Lemma log2_bounds (n : Z) :
  0 < n ->
  (2 ^ Z.log2 n <= inject_Z n)%Q /\ (inject_Z n < 2 * 2 ^ Z.log2 n)%Q.
Proof.
  intros Hn. destruct (Z.log2_spec n Hn) as [Hlo Hhi].
  pose proof (Z.log2_nonneg n) as H0.
  rewrite <- (pow2_Z _ H0). split.
  - rewrite <- Zle_Qle. exact Hlo.
  - change 2%Q with (inject_Z 2). rewrite <- inject_Z_mult, <- Zlt_Qlt.
    rewrite Z.pow_succ_r in Hhi by exact H0. exact Hhi.
Qed.

Lemma binade_spec (q : Q) :
  (0 < q)%Q -> (2 ^ binade q <= q)%Q /\ (q < 2 ^ (binade q + 1))%Q.
Proof.
  intros Hq. unfold binade.
  set (a := Qnum q). set (b := Zpos (Qden q)).
  assert (Ha : 0 < a).
  { unfold a. unfold Qlt in Hq. simpl in Hq. lia. }
  assert (Hb : 0 < b) by (unfold b; lia).
  destruct (log2_bounds a Ha) as [Ha1 Ha2].
  destruct (log2_bounds b Hb) as [Hb1 Hb2].
  assert (Hqab : (q * inject_Z b == inject_Z a)%Q).
  { unfold a, b. destruct q as [n d]. unfold Qeq, Qmult, inject_Z. simpl. lia. }
  assert (Hbq : (0 < inject_Z b)%Q) by (rewrite <- (Zlt_Qlt 0); exact Hb).
  set (e := Z.log2 a - Z.log2 b).
  assert (He : (2 ^ e * 2 ^ Z.log2 b == 2 ^ Z.log2 a)%Q).
  { unfold e. rewrite <- Qpower_plus by discriminate. f_equiv. lia. }
  pose proof (pow2_pos e) as Hpe.
  pose proof (pow2_pos (Z.log2 a)) as Hpa.
  pose proof (pow2_pos (Z.log2 b)) as Hpb.
  set (X := (2 ^ e)%Q) in *. set (P := (2 ^ Z.log2 a)%Q) in *.
  set (P' := (2 ^ Z.log2 b)%Q) in *. set (A := inject_Z a) in *.
  set (B := inject_Z b) in *.
  assert (Hup : (q < 2 * X)%Q).
  { apply Qnot_le_lt. intros Hc. 
    assert ((2 * X * B <= q * B)%Q) by (apply Qmult_le_compat_r; [exact Hc | lra]).
    assert ((2 * X * P' <= 2 * X * B)%Q) by (apply Qmult_le_l; lra).
    nra. }
  assert (Hlow : (X < 2 * q)%Q).
  { apply Qnot_le_lt. intros Hc.
    assert ((2 * q * B <= X * B)%Q) by (apply Qmult_le_compat_r; [exact Hc | lra]).
    assert ((X * B < X * (2 * P'))%Q) by (apply Qmult_lt_l; lra).
    nra. }
  destruct (Qle_bool X q) eqn:Et.
  - apply Qle_bool_iff in Et. split; [exact Et|].
    rewrite pow2_S. exact Hup.
  - assert (Hn : ~ (X <= q)%Q) by (rewrite <- Qle_bool_iff, Et; discriminate).
    apply Qnot_le_lt in Hn.
    replace (e - 1 + 1) with e by lia. fold X.
    split; [|exact Hn].
    assert (Hx : (X == 2 * 2 ^ (e - 1))%Q).
    { unfold X. rewrite <- pow2_S. f_equiv. lia. }
    lra.
Qed.

Lemma binade_unique (q : Q) (e : Z) :
  (2 ^ e <= q)%Q -> (q < 2 ^ (e + 1))%Q -> binade q = e.
Proof.
  intros Hlo Hhi.
  assert (Hq : (0 < q)%Q) by (pose proof (pow2_pos e); lra).
  destruct (binade_spec q Hq) as [Hlo' Hhi'].
  assert (H1 : binade q < e + 1).
  { apply (Qpower_lt_compat_l_inv 2); [lra | reflexivity]. }
  assert (H2 : e < binade q + 1).
  { apply (Qpower_lt_compat_l_inv 2); [lra | reflexivity]. }
  lia.
Qed.

Lemma binade_comp (p q : Q) : (0 < p)%Q -> (p == q)%Q -> binade p = binade q.
Proof.
  intros Hp Heq. symmetry. apply binade_unique.
  - rewrite <- Heq. apply binade_spec, Hp.
  - rewrite <- Heq. apply binade_spec, Hp.
Qed.

Lemma binade_mono (p q : Q) : (0 < p)%Q -> (p <= q)%Q -> binade p <= binade q.
Proof.
  intros Hp Hpq.
  destruct (binade_spec p Hp) as [Hlo _].
  destruct (binade_spec q ltac:(lra)) as [_ Hhi].
  assert (binade p < binade q + 1); [|lia].
  apply (Qpower_lt_compat_l_inv 2); [lra | reflexivity].
Qed.

Lemma round_half_even_cases (x : Q) :
  let f := Qfloor x in
  let r := (x - inject_Z f)%Q in
  ((r < 1 # 2)%Q /\ round_half_even x = f)
  \/ ((r == 1 # 2)%Q /\ round_half_even x = if Z.even f then f else f + 1)
  \/ ((1 # 2 < r)%Q /\ round_half_even x = f + 1).
Proof.
  intros f r. unfold round_half_even. fold f. fold r.
  destruct (Qle_bool r (1 # 2)) eqn:Ele.
  - apply Qle_bool_iff in Ele.
    destruct (Qeq_bool r (1 # 2)) eqn:Eeq.
    + apply Qeq_bool_iff in Eeq. right. left. split; [exact Eeq | reflexivity].
    + apply Qeq_bool_neq in Eeq. left. split; [|reflexivity].
      apply Qle_lteq in Ele. destruct Ele; [assumption | contradiction].
  - right. right. split; [|reflexivity].
    apply Qnot_le_lt. rewrite <- Qle_bool_iff, Ele. discriminate.
Qed.

Lemma round_half_even_range (x : Q) :
  Qfloor x <= round_half_even x <= Qfloor x + 1.
Proof.
  destruct (round_half_even_cases x) as [[_ H]|[[_ H]|[_ H]]]; rewrite H;
    try destruct (Z.even _); lia.
Qed.

Lemma round_half_even_Z (n : Z) : round_half_even (inject_Z n) = n.
Proof.
  pose proof (Qfloor_Z n) as Hf.
  destruct (round_half_even_cases (inject_Z n)) as [[_ H]|[[Hr H]|[Hr H]]];
    rewrite Hf in *; try exact H; exfalso; lra.
Qed.

Lemma round_half_even_mono (x y : Q) :
  (x <= y)%Q -> round_half_even x <= round_half_even y.
Proof.
  intros Hxy. pose proof (Qfloor_resp_le x y Hxy) as Hf.
  pose proof (round_half_even_range x) as Rx.
  pose proof (round_half_even_range y) as Ry.
  destruct (Z.eq_dec (Qfloor x) (Qfloor y)) as [E|E]; [|lia].
  destruct (round_half_even_cases x) as [[Hx H]|[[Hx H]|[Hx H]]];
  destruct (round_half_even_cases y) as [[Hy H']|[[Hy H']|[Hy H']]];
    rewrite H, H'; rewrite E in *; try destruct (Z.even _); try lia;
    exfalso; lra.
Qed.

Lemma round_half_even_comp (x y : Q) :
  (x == y)%Q -> round_half_even x = round_half_even y.
Proof.
  intros E. apply Z.le_antisymm; apply round_half_even_mono; lra.
Qed.

Lemma round_half_even_lower (x : Q) (n : Z) :
  (inject_Z n <= x)%Q -> n <= round_half_even x.
Proof.
  intros H. rewrite <- (round_half_even_Z n). apply round_half_even_mono, H.
Qed.

Lemma round_half_even_upper (x : Q) (n : Z) :
  (x <= inject_Z n)%Q -> round_half_even x <= n.
Proof.
  intros H. rewrite <- (round_half_even_Z n). apply round_half_even_mono, H.
Qed.

(** The scaled value of a positive rational lies between [2 ^ 52] and
    [2 ^ 53]. *)
Lemma scaled_bounds (q : Q) :
  (0 < q)%Q ->
  (inject_Z (2 ^ 52) <= q / 2 ^ (binade q - 52))%Q
  /\ (q / 2 ^ (binade q - 52) < inject_Z (2 ^ 53))%Q.
Proof.
  intros Hq. destruct (binade_spec q Hq) as [Hlo Hhi].
  pose proof (pow2_pos (binade q - 52)) as Hc.
  rewrite !pow2_Z by lia.
  assert (E1 : (2 ^ binade q == 2 ^ 52 * 2 ^ (binade q - 52))%Q).
  { rewrite <- Qpower_plus by discriminate. f_equiv. lia. }
  assert (E2 : (2 ^ (binade q + 1) == 2 ^ 53 * 2 ^ (binade q - 52))%Q).
  { rewrite <- Qpower_plus by discriminate. f_equiv. lia. }
  split.
  - apply Qle_shift_div_l; [exact Hc|]. rewrite <- E1. exact Hlo.
  - apply Qlt_shift_div_r; [exact Hc|]. rewrite <- E2. exact Hhi.
Qed.

Lemma round_mantissa_bounds (q : Q) :
  (0 < q)%Q ->
  (2 ^ binade q <= round_mantissa q)%Q
  /\ (round_mantissa q <= 2 ^ (binade q + 1))%Q.
Proof.
  intros Hq. destruct (scaled_bounds q Hq) as [Hlo Hhi].
  pose proof (pow2_pos (binade q - 52)) as Hc.
  unfold round_mantissa.
  set (m := round_half_even (q / 2 ^ (binade q - 52))).
  assert (Hm1 : 2 ^ 52 <= m) by (apply round_half_even_lower, Hlo).
  assert (Hm2 : m <= 2 ^ 53) by (apply round_half_even_upper; lra).
  assert (E1 : (2 ^ binade q == 2 ^ 52 * 2 ^ (binade q - 52))%Q).
  { rewrite <- Qpower_plus by discriminate. f_equiv. lia. }
  assert (E2 : (2 ^ (binade q + 1) == 2 ^ 53 * 2 ^ (binade q - 52))%Q).
  { rewrite <- Qpower_plus by discriminate. f_equiv. lia. }
  rewrite E1, E2. rewrite <- (pow2_Z 52), <- (pow2_Z 53) by lia.
  split; (apply Qmult_le_compat_r; [rewrite <- Zle_Qle; assumption | lra]).
Qed.

Lemma round_mantissa_pos (q : Q) : (0 < q)%Q -> (0 < round_mantissa q)%Q.
Proof.
  intros Hq. destruct (round_mantissa_bounds q Hq) as [H _].
  pose proof (pow2_pos (binade q)). lra.
Qed.

Lemma round_mantissa_mono (p q : Q) :
  (0 < p)%Q -> (p <= q)%Q -> (round_mantissa p <= round_mantissa q)%Q.
Proof.
  intros Hp Hpq. assert (Hq : (0 < q)%Q) by lra.
  pose proof (binade_mono p q Hp Hpq) as He.
  destruct (Z.eq_dec (binade p) (binade q)) as [E|E].
  - unfold round_mantissa. rewrite E.
    pose proof (pow2_pos (binade q - 52)) as Hc.
    apply Qmult_le_compat_r; [|lra].
    rewrite <- Zle_Qle. apply round_half_even_mono.
    apply Qmult_le_compat_r; [exact Hpq|].
    apply Qlt_le_weak, Qinv_lt_0_compat, Hc.
  - destruct (round_mantissa_bounds p Hp) as [_ H1].
    destruct (round_mantissa_bounds q Hq) as [H2 _].
    assert (H3 : (2 ^ (binade p + 1) <= 2 ^ binade q)%Q)
      by (apply Qpower_le_compat_l; [lia | discriminate]).
    lra.
Qed.

Lemma round_mantissa_comp (p q : Q) :
  (0 < p)%Q -> (p == q)%Q -> (round_mantissa p == round_mantissa q)%Q.
Proof.
  intros Hp E. apply Qle_antisym; apply round_mantissa_mono; lra.
Qed.

(** A value with a 53-bit mantissa is its own rounding. *)
Lemma round_mantissa_exact (m c : Z) :
  2 ^ 52 <= m < 2 ^ 53 ->
  (round_mantissa (inject_Z m * 2 ^ c) == inject_Z m * 2 ^ c)%Q.
Proof.
  intros [Hm1 Hm2]. pose proof (pow2_pos c) as Hc.
  assert (Hb : binade (inject_Z m * 2 ^ c) = c + 52).
  { apply binade_unique.
    - rewrite Qpower_plus by discriminate. rewrite <- (pow2_Z 52) by lia.
      rewrite (Qmult_comm (2 ^ c)). apply Qmult_le_compat_r; [|lra].
      rewrite <- Zle_Qle. exact Hm1.
    - replace (c + 52 + 1) with (53 + c) by lia.
      rewrite Qpower_plus by discriminate. rewrite <- (pow2_Z 53) by lia.
      apply Qmult_lt_compat_r; [exact Hc|].
      rewrite <- Zlt_Qlt. exact Hm2. }
  unfold round_mantissa. rewrite Hb.
  replace (c + 52 - 52) with c by lia.
  assert (E : (inject_Z m * 2 ^ c / 2 ^ c == inject_Z m)%Q)
    by (field; lra).
  rewrite (round_half_even_comp _ _ E), round_half_even_Z. reflexivity.
Qed.

Lemma round_mantissa_idem (q : Q) :
  (0 < q)%Q -> (round_mantissa (round_mantissa q) == round_mantissa q)%Q.
Proof.
  intros Hq. destruct (scaled_bounds q Hq) as [Hlo Hhi].
  unfold round_mantissa at 2 3.
  set (c := binade q - 52) in *.
  set (m := round_half_even (q / 2 ^ c)).
  assert (Hm1 : 2 ^ 52 <= m) by (apply round_half_even_lower, Hlo).
  assert (Hm2 : m <= 2 ^ 53) by (apply round_half_even_upper; lra).
  destruct (Z.eq_dec m (2 ^ 53)) as [E|E].
  - assert (Ev : (inject_Z m * 2 ^ c == inject_Z (2 ^ 52) * 2 ^ (c + 1))%Q).
    { rewrite E, pow2_S. rewrite !pow2_Z by lia.
      change (2 ^ 53)%Q with (2 ^ (52 + 1))%Q. rewrite (pow2_S 52). ring. }
    pose proof (pow2_pos c) as Hc.
    assert (Hpos : (0 < inject_Z m * 2 ^ c)%Q).
    { apply Qmult_lt_0_compat; [|exact Hc]. rewrite <- (Zlt_Qlt 0). lia. }
    rewrite (round_mantissa_comp _ _ Hpos Ev).
    rewrite round_mantissa_exact by lia. symmetry. exact Ev.
  - apply round_mantissa_exact. lia.
Qed.

Lemma float_round_zero (q : Q) : (q == 0)%Q -> float_round q = 0%Q.
Proof.
  intros H. unfold float_round.
  rewrite (proj2 (Qeq_bool_iff q 0) H). reflexivity.
Qed.

Lemma float_round_pos_eq (q : Q) : (0 < q)%Q -> float_round q = round_mantissa q.
Proof.
  intros H. unfold float_round.
  destruct (Qeq_bool q 0) eqn:E0.
  - apply Qeq_bool_iff in E0. lra.
  - rewrite (proj2 (Qle_bool_iff 0 q)) by lra. reflexivity.
Qed.

Lemma float_round_neg_eq (q : Q) :
  (q < 0)%Q -> float_round q = (- round_mantissa (- q))%Q.
Proof.
  intros H. unfold float_round.
  destruct (Qeq_bool q 0) eqn:E0.
  - apply Qeq_bool_iff in E0. lra.
  - destruct (Qle_bool 0 q) eqn:E1; [|reflexivity].
    apply Qle_bool_iff in E1. lra.
Qed.

Lemma float_round_pos (q : Q) : (0 < q)%Q -> (0 < float_round q)%Q.
Proof.
  intros H. rewrite float_round_pos_eq by exact H.
  apply round_mantissa_pos, H.
Qed.

Lemma float_round_neg (q : Q) : (q < 0)%Q -> (float_round q < 0)%Q.
Proof.
  intros H. rewrite float_round_neg_eq by exact H.
  pose proof (round_mantissa_pos (- q) ltac:(lra)). lra.
Qed.

Lemma float_round_mono (p q : Q) :
  (p <= q)%Q -> (float_round p <= float_round q)%Q.
Proof.
  intros Hpq.
  destruct (Q_dec p 0) as [[Hp|Hp]|Hp]; destruct (Q_dec q 0) as [[Hq|Hq]|Hq].
  - rewrite !float_round_neg_eq by assumption.
    pose proof (round_mantissa_mono (- q) (- p) ltac:(lra) ltac:(lra)). lra.
  - pose proof (float_round_neg p Hp). pose proof (float_round_pos q Hq). lra.
  - pose proof (float_round_neg p Hp). rewrite (float_round_zero q Hq). lra.
  - lra.
  - rewrite !float_round_pos_eq by assumption.
    apply round_mantissa_mono; assumption.
  - lra.
  - lra.
  - rewrite (float_round_zero p Hp). pose proof (float_round_pos q Hq). lra.
  - rewrite (float_round_zero p Hp), (float_round_zero q Hq). lra.
Qed.

Lemma float_round_comp (p q : Q) :
  (p == q)%Q -> (float_round p == float_round q)%Q.
Proof. intros E. apply Qle_antisym; apply float_round_mono; lra. Qed.

Lemma float_round_idem (q : Q) :
  (float_round (float_round q) == float_round q)%Q.
Proof.
  destruct (Q_dec q 0) as [[Hq|Hq]|Hq].
  - rewrite (float_round_neg_eq q Hq).
    pose proof (round_mantissa_pos (- q) ltac:(lra)) as Hp.
    rewrite float_round_neg_eq by lra.
    apply Qopp_comp.
    rewrite (round_mantissa_comp (- - round_mantissa (- q))
               (round_mantissa (- q))) by lra.
    apply round_mantissa_idem. lra.
  - rewrite (float_round_pos_eq q Hq).
    rewrite float_round_pos_eq by (apply round_mantissa_pos, Hq).
    apply round_mantissa_idem, Hq.
  - rewrite (float_round_zero q Hq). reflexivity.
Qed.

Lemma float_add_0_l (x : Q) : (float_add 0 (float_round x) == float_round x)%Q.
Proof.
  unfold float_add. rewrite (float_round_comp (0 + float_round x) (float_round x))
    by ring.
  apply float_round_idem.
Qed.

Lemma float_add_0_r (x : Q) : (float_add (float_round x) 0 == float_round x)%Q.
Proof.
  unfold float_add. rewrite (float_round_comp (float_round x + 0) (float_round x))
    by ring.
  apply float_round_idem.
Qed.

Lemma float_div_pos (a b : Q) : (0 < a)%Q -> (0 < b)%Q -> (0 < float_div a b)%Q.
Proof.
  intros Ha Hb. apply float_round_pos. unfold Qdiv.
  apply Qmult_lt_0_compat; [exact Ha | apply Qinv_lt_0_compat, Hb].
Qed.

Lemma seconds_per_buffer_pos (source : AudioSource) :
  (0 < seconds_per_buffer source)%Q.
Proof.
  unfold seconds_per_buffer, float_of_int.
  assert (H : forall p : positive, (0 < float_round (inject_Z (Zpos p)))%Q).
  { intros p. apply float_round_pos. rewrite <- (Zlt_Qlt 0). lia. }
  apply float_div_pos; [|apply H].
  rewrite float_add_0_r. apply H.
Qed.

(** [seconds_per_buffer] is a float. *)
Lemma seconds_per_buffer_float (source : AudioSource) :
  (float_round (seconds_per_buffer source) == seconds_per_buffer source)%Q.
Proof. unfold seconds_per_buffer, float_div. apply float_round_idem. Qed.

(** The first statement [elapsed_time += seconds_per_buffer], on the
    integer 0. *)
Lemma first_tick (source : AudioSource) :
  (float_add 0 (seconds_per_buffer source) == seconds_per_buffer source)%Q.
Proof.
  unfold seconds_per_buffer at 1 2, float_div. apply float_add_0_l.
Qed.

Lemma thresholds_ok_true (r : Recognizer) :
  thresholds_ok r = true <->
  (non_speaking_duration r <= pause_threshold r)%Q
  /\ (0 <= non_speaking_duration r)%Q.
Proof.
  unfold thresholds_ok. rewrite andb_true_iff, !Qle_bool_iff. tauto.
Qed.

Lemma buffer_count_mono (x y spb : Q) :
  (0 < spb)%Q -> (x <= y)%Q -> buffer_count x spb <= buffer_count y spb.
Proof.
  intros Hs Hxy. unfold buffer_count. apply Qceiling_resp_le.
  apply float_round_mono. unfold Qdiv.
  apply Qmult_le_compat_r; [apply float_round_mono, Hxy|].
  apply Qlt_le_weak, Qinv_lt_0_compat, Hs.
Qed.

Lemma buffer_count_nonneg (x spb : Q) :
  (0 < spb)%Q -> (0 <= x)%Q -> 0 <= buffer_count x spb.
Proof.
  intros Hs Hx. change 0 with (Qceiling 0). unfold buffer_count.
  apply Qceiling_resp_le.
  rewrite <- (float_round_zero 0) by reflexivity.
  apply float_round_mono. unfold Qdiv.
  apply Qmult_le_0_compat;
    [|apply Qlt_le_weak, Qinv_lt_0_compat, Hs].
  rewrite <- (float_round_zero 0) by reflexivity.
  apply float_round_mono, Hx.
Qed.

(** The counts of [listen] are taken from float quotients: [0.07 / 0.01]
    is 7.000000000000001 as a float, which makes a [pause_buffer_count] of
    8 where the exact quotient is 7, and the phrase is ended by the ninth
    buffer of silence. *)
Lemma counts_follow_the_float_quotient :
  pause_buffers hundredth_second_source brief_pause = 8
  /\ Qceiling ((7 # 100) / (1 # 100))%Q = 7
  /\ is_return (listen audioop_rms pow_int hundredth_second_source None 20
                  (fresh brief_pause)) = true
  /\ reads (final_world (fresh brief_pause)
              (listen audioop_rms pow_int hundredth_second_source None 20
                 (fresh brief_pause))) = 10%nat.
Proof.
  split; [vm_compute; reflexivity|].
  split; [vm_compute; reflexivity|].
  split; vm_compute; reflexivity.
Qed.

(** On the sources of this development, the rounding above computes what
    the Standard Library's specification of IEEE 754 binary64 computes:
    the same [seconds_per_buffer], the same clock over two hundred
    iterations, the same quotients under [math.ceil]. *)
Lemma float_operations_agree_with_binary64 :
  clocks_agree (source_of []) (S754_zero false) 0 200 = true
  /\ clocks_agree hum_source (S754_zero false) 0 200 = true
  /\ clocks_agree tenth_second_source (S754_zero false) 0 200 = true
  /\ clocks_agree hundredth_second_source (S754_zero false) 0 200 = true
  /\ (binary64_value (binary64_seconds_per_buffer (source_of []))
      == seconds_per_buffer (source_of []))%Q
  /\ (binary64_value (binary64_quotient 7 100 1 100)
      == float_div (float_round (7 # 100)) (float_round (1 # 100)))%Q
  /\ (binary64_value
        (SFdiv 53 1024
           (SFdiv 53 1024 (binary64_of_int 2) (binary64_of_int 10))
           (binary64_seconds_per_buffer (source_of [])))
      == float_div (float_round (non_speaking_duration Recognizer_init))
           (seconds_per_buffer (source_of [])))%Q.
Proof.
  split; [vm_compute; reflexivity|].
  split; [vm_compute; reflexivity|].
  split; [vm_compute; reflexivity|].
  split; [vm_compute; reflexivity|].
  split; [vm_compute; reflexivity|].
  split; vm_compute; reflexivity.
Qed.

(** ** The clock *)

Lemma buffers_time_S (source : AudioSource) (k : nat) :
  buffers_time source (S k)
  = float_add (buffers_time source k) (seconds_per_buffer source).
Proof. reflexivity. Qed.

Lemma buffers_time_0 (source : AudioSource) : buffers_time source 0 = 0%Q.
Proof. reflexivity. Qed.

(** The clock is a float, and it never goes back. *)
Lemma buffers_time_float (source : AudioSource) (k : nat) :
  (float_round (buffers_time source k) == buffers_time source k)%Q.
Proof.
  destruct k as [|k]; [rewrite buffers_time_0, float_round_zero; reflexivity|].
  rewrite buffers_time_S. unfold float_add. apply float_round_idem.
Qed.

Lemma buffers_time_step (source : AudioSource) (k : nat) :
  (buffers_time source k <= buffers_time source (S k))%Q.
Proof.
  rewrite <- (buffers_time_float source k) at 1.
  rewrite buffers_time_S. unfold float_add. apply float_round_mono.
  pose proof (seconds_per_buffer_pos source). lra.
Qed.

Lemma buffers_time_mono (source : AudioSource) (j k : nat) :
  (j <= k)%nat -> (buffers_time source j <= buffers_time source k)%Q.
Proof.
  induction 1 as [|k _ IH]; [apply Qle_refl|].
  eapply Qle_trans; [exact IH | apply buffers_time_step].
Qed.

(** Once over, always over: it is enough to look at the last iteration
    that is within [x] and at the next. *)
Lemma buffers_within_intro (source : AudioSource) (x : Q) (n : nat) :
  (n = 0%nat \/ (buffers_time source n <= x)%Q) ->
  (x < buffers_time source (S n))%Q ->
  buffers_within source x n.
Proof.
  intros Hn Hx. split; [|exact Hx]. intros i Hi.
  destruct Hn as [->|Hn]; [lia|].
  eapply Qle_trans; [apply (buffers_time_mono source i n); lia | exact Hn].
Qed.

Lemma buffers_within_over (source : AudioSource) (x : Q) (n k : nat) :
  buffers_within source x n -> (n < k)%nat -> (x < buffers_time source k)%Q.
Proof.
  intros [_ Hx] Hk. eapply Qlt_le_trans; [exact Hx|].
  apply buffers_time_mono. lia.
Qed.

Lemma buffers_within_unique (source : AudioSource) (x : Q) (n m : nat) :
  buffers_within source x n -> buffers_within source x m -> n = m.
Proof.
  intros Hn Hm.
  destruct (Nat.lt_trichotomy n m) as [H|[H|H]]; [|exact H|]; exfalso.
  - pose proof (buffers_within_over source x n m Hn H) as Ho.
    destruct Hm as [Hm _]. specialize (Hm m ltac:(lia)).
    apply (Qlt_irrefl x). eapply Qlt_le_trans; eassumption.
  - pose proof (buffers_within_over source x m n Hm H) as Ho.
    destruct Hn as [Hn _]. specialize (Hn n ltac:(lia)).
    apply (Qlt_irrefl x). eapply Qlt_le_trans; eassumption.
Qed.

(** The search finds the number of buffers within [x]. *)
Lemma buffers_within_count_from (source : AudioSource) (x : Q) (bound : nat) :
  forall (j n : nat),
    buffers_within_count source x (buffers_time source j) bound = Some n ->
    (forall i, (j + 1 <= i <= j + n)%nat -> (buffers_time source i <= x)%Q)
    /\ (x < buffers_time source (S (j + n)))%Q.
Proof.
  induction bound as [|bound IH]; intros j n Hc; [discriminate|].
  cbn [buffers_within_count] in Hc. rewrite <- buffers_time_S in Hc.
  destruct (Qgtb (buffers_time source (S j)) x) eqn:Eg.
  - inversion Hc; subst. rewrite Nat.add_0_r.
    split; [intros i Hi; lia | apply Qgtb_true, Eg].
  - destruct (buffers_within_count source x (buffers_time source (S j)) bound)
      as [n'|] eqn:En; [|discriminate].
    inversion Hc; subst. destruct (IH (S j) n' En) as [Hle Hgt].
    replace (j + S n')%nat with (S j + n')%nat by lia.
    split; [|exact Hgt].
    intros i Hi. destruct (Nat.eq_dec i (S j)) as [->|Hne].
    + apply Qgtb_false, Eg.
    + apply Hle. lia.
Qed.

Lemma buffers_within_count_sound (source : AudioSource) (x : Q)
    (bound n : nat) :
  buffers_within_count source x 0 bound = Some n ->
  buffers_within source x n.
Proof.
  intros Hc.
  destruct (buffers_within_count_from source x bound 0 n Hc) as [Hle Hgt].
  split; [intros i Hi; apply Hle; lia | exact Hgt].
Qed.

Lemma skipped_none (source : AudioSource) (offset : option Q) :
  truthy offset = false -> skipped source offset 0.
Proof.
  intros H. unfold skipped. destruct offset as [o|]; [|reflexivity].
  rewrite H. reflexivity.
Qed.

Lemma concat_uniform_length (c : Z) (frames : list buffer) :
  Forall (fun b => Z.of_nat (length b) = c) frames ->
  Z.of_nat (length (concat frames)) = Z.of_nat (length frames) * c.
Proof.
  induction 1 as [|b l Hb Hl IH]; [reflexivity|].
  simpl concat. rewrite length_app.
  change (length (b :: l)) with (S (length l)). lia.
Qed.

Lemma chunk_bytes_pos (source : AudioSource) : 0 < chunk_bytes source.
Proof. unfold chunk_bytes. lia. Qed.

Lemma concat_stream_length (source : AudioSource) (a n : nat) :
  (forall i, (i < n)%nat ->
             Z.of_nat (length (stream source (a + i))) = chunk_bytes source) ->
  Z.of_nat (length (concat (map (stream source) (seq a n))))
  = Z.of_nat n * chunk_bytes source.
Proof.
  intros H. rewrite (concat_uniform_length (chunk_bytes source)).
  - rewrite length_map, length_seq. reflexivity.
  - apply Forall_forall. intros b Hb. apply in_map_iff in Hb.
    destruct Hb as (i & <- & Hi). apply in_seq in Hi.
    replace i with (a + (i - a))%nat by lia. apply H. lia.
Qed.

Lemma firstn_In {A : Type} (k : nat) (l : list A) (x : A) :
  In x (firstn k l) -> In x l.
Proof.
  intros H. rewrite <- (firstn_skipn k l). apply in_or_app. left. exact H.
Qed.

Lemma pop_n_firstn (n : nat) (frames : list buffer) :
  (n <= length frames)%nat ->
  pop_n n frames = Some (firstn (length frames - n) frames).
Proof.
  revert frames. induction n as [|n IH]; intros frames Hn; simpl.
  - rewrite Nat.sub_0_r, firstn_all. reflexivity.
  - destruct frames as [|f frames]; [simpl in Hn; lia|].
    rewrite IH.
    + rewrite removelast_firstn_len, firstn_firstn, length_firstn.
      simpl length. f_equal. f_equal. lia.
    + rewrite removelast_firstn_len, length_firstn. simpl in *. lia.
Qed.

Lemma pop_n_underflow (n : nat) (frames : list buffer) :
  (length frames < n)%nat -> pop_n n frames = None.
Proof.
  revert frames. induction n as [|n IH]; intros frames Hn; [lia|].
  destruct frames as [|f frames]; [reflexivity|].
  change (pop_n (S n) (f :: frames)) with (pop_n n (removelast (f :: frames))).
  apply IH. rewrite removelast_firstn_len, length_firstn. simpl in *. lia.
Qed.

(** ** Concrete inputs *)

Lemma stream_of_list_eof (l : list buffer) (n : nat) :
  (length l <= n)%nat -> stream_of_list l n = [].
Proof. intros H. unfold stream_of_list. apply nth_overflow, H. Qed.

Lemma world_eta (w : world) (n : nat) :
  n = reads w -> {| reads := n; self := self w |} = w.
Proof. intros ->. destruct w. reflexivity. Qed.

Lemma return_eta {A : Type} (d : A) (w0 : world) (o : outcome A) :
  is_return o = true -> o = Return (returned d o) (final_world w0 o).
Proof. destruct o; simpl; intros H; [reflexivity | discriminate | discriminate]. Qed.

Lemma clean_source_whole (n : nat) :
  (n < 35)%nat ->
  Z.of_nat (length (stream (source_of clean_phrase) n))
  = chunk_bytes (source_of clean_phrase).
Proof.
  intros Hn.
  do 35 (destruct n as [|n]; [vm_compute; reflexivity|]). lia.
Qed.

Lemma clean_call_reads :
  reads (final_world (fresh Recognizer_init) clean_call) = 32%nat.
Proof. vm_compute. reflexivity. Qed.

(** ** Runs of [listen] *)

Section ListenFacts.
Variable rms : buffer -> positive -> Z.
Variable float_pow : Q -> Q -> Q.
Variable source : AudioSource.
Variable timeout : option Q.
Variables pbc phbc nsbc : Z.

Local Abbreviation step_ := (listen_step rms float_pow source timeout pbc phbc nsbc).
Local Abbreviation loop_ := (listen_loop rms float_pow source timeout pbc phbc nsbc).
Local Abbreviation run_ := (listen_run rms float_pow source timeout pbc phbc nsbc).

Lemma listen_loop_run (fuel : nat) (s : listen_state) (w : world) :
  loop_ fuel s w =
  match run_ fuel s w with
  | Continue _ _ => OutOfFuel
  | Done o => o
  end.
Proof.
  revert s w. induction fuel as [|fuel IH]; intros s w; simpl; [reflexivity|].
  destruct (step_ s w); [apply IH | reflexivity].
Qed.

Lemma listen_run_add (j k : nat) (s : listen_state) (w : world) :
  run_ (j + k) s w =
  match run_ j s w with
  | Continue s' w' => run_ k s' w'
  | Done o => Done o
  end.
Proof.
  revert s w. induction j as [|j IH]; intros s w; simpl; [reflexivity|].
  destruct (step_ s w); [apply IH | reflexivity].
Qed.

Lemma listen_run_S (k : nat) (s : listen_state) (w : world) :
  run_ (S k) s w =
  match run_ k s w with
  | Continue s' w' => step_ s' w'
  | Done o => Done o
  end.
Proof.
  replace (S k) with (k + 1)%nat by lia. rewrite listen_run_add.
  destruct (run_ k s w) as [s' w'|o]; [|reflexivity].
  simpl. destruct (step_ s' w'); reflexivity.
Qed.

(** A call that has ended ends the same way with more fuel. *)
Lemma listen_run_done_mono (j k : nat) (s : listen_state) (w : world)
    (o : outcome phrase) :
  run_ j s w = Done o -> run_ (j + k) s w = Done o.
Proof. intros H. rewrite listen_run_add, H. reflexivity. Qed.

(** Once the source is exhausted and no timeout applies, a phrase that is
    still too short is never handed over: each outer iteration reads two
    empty buffers and starts again. *)
Lemma listen_run_eof_continues (n0 : nat) :
  truthy timeout = false ->
  0 < phbc ->
  (forall n, (n0 <= n)%nat -> stream source n = []) ->
  forall k s w,
    (n0 <= reads w)%nat ->
    (match s with
     | PhaseA _ _ => True
     | PhaseB _ _ pa ph => ph - pa < phbc
     end) ->
    exists s' w', run_ k s w = Continue s' w'.
Proof.
  intros Ht Hp Heof. induction k as [|k IH]; intros s w Hw Hs.
  - simpl. eauto.
  - simpl. destruct s as [e fr | e fr pa ph]; simpl.
    + rewrite Ht. simpl. rewrite (Heof _ Hw). simpl.
      apply IH; simpl; lia.
    + rewrite (Heof _ Hw). simpl. unfold phrase_end.
      destruct (Z.geb_spec (ph - pa) phbc) as [Hge|Hlt]; [lia|].
      apply IH; simpl; [lia | exact I].
Qed.
End ListenFacts.

(** With no timeout, a run that reaches a loop head at or past the end of
    the stream, with a phrase still too short, never ends. *)
Lemma listen_loop_diverges_from_eof
    (rms : buffer -> positive -> Z) (float_pow : Q -> Q -> Q)
    (source : AudioSource) (timeout : option Q) (pbc phbc nsbc : Z)
    (n0 j : nat) (s0 s : listen_state) (w0 w : world) :
  truthy timeout = false ->
  0 < phbc ->
  (forall n, (n0 <= n)%nat -> stream source n = []) ->
  listen_run rms float_pow source timeout pbc phbc nsbc j s0 w0 = Continue s w ->
  (n0 <= reads w)%nat ->
  (match s with
   | PhaseA _ _ => True
   | PhaseB _ _ pa ph => ph - pa < phbc
   end) ->
  forall fuel,
    listen_loop rms float_pow source timeout pbc phbc nsbc fuel s0 w0 = OutOfFuel.
Proof.
  intros Ht Hp Heof Hj Hw Hs fuel. rewrite listen_loop_run.
  destruct (listen_run _ _ _ _ _ _ _ fuel s0 w0) as [s1 w1|o] eqn:E;
    [reflexivity|].
  exfalso. apply listen_run_done_mono with (k := j) in E.
  replace (fuel + j)%nat with (j + fuel)%nat in E by lia.
  rewrite listen_run_add, Hj in E.
  destruct (listen_run_eof_continues rms float_pow source timeout pbc phbc nsbc
              n0 Ht Hp Heof fuel s w Hw Hs) as (s' & w' & E').
  congruence.
Qed.

Lemma listen_unfold (rms : buffer -> positive -> Z) (float_pow : Q -> Q -> Q)
    (source : AudioSource) (timeout : option Q) (fuel : nat) (w : world) :
  listen rms float_pow source timeout fuel w =
  if negb (thresholds_ok (self w)) then Raise AssertionError w
  else match listen_phrase rms float_pow source timeout fuel w with
       | Return p w' =>
           obtain_frame_data source (non_speaking_buffers source (self w)) p w'
       | Raise e w' => Raise e w'
       | OutOfFuel => OutOfFuel
       end.
Proof. reflexivity. Qed.

Lemma buffer_count_pos (x spb : Q) :
  (0 < spb)%Q -> (0 < x)%Q -> 0 < buffer_count x spb.
Proof.
  intros Hs Hx. unfold buffer_count.
  assert (Hq : (0 < float_div (float_round x) spb)%Q)
    by (apply float_div_pos; [apply float_round_pos, Hx | exact Hs]).
  pose proof (Qle_ceiling (float_div (float_round x) spb)) as Hc.
  assert (H : (inject_Z 0 < inject_Z (Qceiling (float_div (float_round x) spb)))%Q)
    by (eapply Qlt_le_trans; eassumption).
  rewrite <- Zlt_Qlt in H. exact H.
Qed.

(** With no timeout in force and a positive [phrase_threshold], [listen]
    does not come back from a source that is at its end when the call
    starts. *)
Lemma listen_diverges_at_end_of_stream (rms : buffer -> positive -> Z)
    (float_pow : Q -> Q -> Q) (source : AudioSource) (timeout : option Q)
    (w : world) :
  thresholds_ok (self w) = true ->
  (0 < phrase_threshold (self w))%Q ->
  truthy timeout = false ->
  (forall n, (reads w <= n)%nat -> stream source n = []) ->
  forall fuel, listen rms float_pow source timeout fuel w = OutOfFuel.
Proof.
  intros Hok Hph Ht Heof fuel. rewrite listen_unfold, Hok. simpl negb.
  cbv iota. unfold listen_phrase.
  rewrite (listen_loop_diverges_from_eof rms float_pow source timeout
             _ _ _ (reads w) 0 (PhaseA 0 []) (PhaseA 0 []) w w Ht).
  - reflexivity.
  - apply buffer_count_pos; [apply seconds_per_buffer_pos | exact Hph].
  - exact Heof.
  - reflexivity.
  - lia.
  - exact I.
Qed.

Lemma counts_ordered (source : AudioSource) (r : Recognizer) :
  thresholds_ok r = true ->
  0 <= non_speaking_buffers source r <= pause_buffers source r.
Proof.
  intros H. apply thresholds_ok_true in H. destruct H as [H1 H2].
  unfold non_speaking_buffers, pause_buffers. split.
  - apply buffer_count_nonneg; [apply seconds_per_buffer_pos | exact H2].
  - apply buffer_count_mono; [apply seconds_per_buffer_pos | exact H1].
Qed.

(** ** Invariants of the loops of [listen] *)

Lemma arrival_ordered_nil (source : AudioSource) (n0 n : nat) :
  (n0 <= n)%nat -> arrival_ordered source [] n0 n.
Proof. intros H. split; [exact H|]. exists []. repeat split; constructor. Qed.

Lemma arrival_ordered_later (source : AudioSource) (frames : list buffer)
    (n0 n : nat) :
  arrival_ordered source frames n0 n -> arrival_ordered source frames n0 (S n).
Proof.
  intros (Hn & idx & Hf & Hs & Hb). split; [lia|].
  exists idx. repeat split; try assumption.
  eapply Forall_impl; [|exact Hb]. simpl. intros; lia.
Qed.

Lemma StronglySorted_snoc (idx : list nat) (n : nat) :
  StronglySorted lt idx -> Forall (fun i => (i < n)%nat) idx ->
  StronglySorted lt (idx ++ [n]).
Proof.
  induction 1 as [|a l Hl IH Ha]; intros Hb; simpl.
  - constructor; constructor.
  - inversion Hb; subst. constructor; [apply IH; assumption|].
    apply Forall_app. split; [assumption|]. constructor; [assumption|constructor].
Qed.

Lemma arrival_ordered_append (source : AudioSource) (frames : list buffer)
    (n0 n : nat) :
  arrival_ordered source frames n0 n ->
  arrival_ordered source (frames ++ [stream source n]) n0 (S n).
Proof.
  intros (Hn & idx & Hf & Hs & Hb). split; [lia|].
  exists (idx ++ [n]). repeat split.
  - rewrite map_app, Hf. reflexivity.
  - apply StronglySorted_snoc; [assumption|].
    eapply Forall_impl; [|exact Hb]. simpl. intros; lia.
  - apply Forall_app. split.
    + eapply Forall_impl; [|exact Hb]. simpl. intros; lia.
    + constructor; [lia|constructor].
Qed.

Lemma arrival_ordered_tl (source : AudioSource) (frames : list buffer)
    (n0 n : nat) :
  arrival_ordered source frames n0 n -> arrival_ordered source (tl frames) n0 n.
Proof.
  intros (Hn & idx & Hf & Hs & Hb). split; [exact Hn|].
  exists (tl idx). subst frames.
  destruct idx as [|i idx]; simpl; [repeat split; constructor|].
  inversion Hs; subst. inversion Hb; subst. repeat split; assumption.
Qed.

Lemma arrival_ordered_firstn (source : AudioSource) (frames : list buffer)
    (n0 n k : nat) :
  arrival_ordered source frames n0 n ->
  arrival_ordered source (firstn k frames) n0 n.
Proof.
  intros (Hn & idx & Hf & Hs & Hb). split; [exact Hn|].
  exists (firstn k idx). subst frames. repeat split.
  - apply firstn_map.
  - clear Hb. revert k. induction Hs as [|a l Hl IH Ha]; intros k.
    + rewrite firstn_nil. constructor.
    + destruct k as [|k]; simpl; constructor; [apply IH|].
      apply Forall_forall. intros x Hx. apply firstn_In in Hx.
      rewrite Forall_forall in Ha. apply Ha, Hx.
  - apply Forall_forall. intros x Hx. apply firstn_In in Hx.
    rewrite Forall_forall in Hb. apply Hb, Hx.
Qed.

Lemma arrival_ordered_from_stream (source : AudioSource)
    (frames : list buffer) (n0 n : nat) (P : buffer -> Prop) :
  arrival_ordered source frames n0 n ->
  (forall i, (n0 <= i < n)%nat -> P (stream source i)) ->
  Forall P frames.
Proof.
  intros (_ & idx & Hf & _ & Hb) HP. subst frames.
  apply Forall_forall. intros b Hin. apply in_map_iff in Hin.
  destruct Hin as (i & <- & Hi). rewrite Forall_forall in Hb.
  apply HP, Hb, Hi.
Qed.

Section ListenInvariants.
Variable rms : buffer -> positive -> Z.
Variable float_pow : Q -> Q -> Q.
Variable source : AudioSource.
Variable timeout : option Q.
Variables pbc phbc nsbc : Z.

Local Abbreviation step_ := (listen_step rms float_pow source timeout pbc phbc nsbc).
Local Abbreviation loop_ := (listen_loop rms float_pow source timeout pbc phbc nsbc).
Local Abbreviation run_ := (listen_run rms float_pow source timeout pbc phbc nsbc).

Hypothesis nsbc_nonneg : 0 <= nsbc.
Hypothesis nsbc_le_pbc : nsbc <= pbc.

Lemma listen_step_inv (s s' : listen_state) (w w' : world) :
  state_inv pbc nsbc s ->
  step_ s w = Continue s' w' ->
  state_inv pbc nsbc s'.
Proof.
  intros Hinv Hstep. destruct s as [e fr | e fr pa ph]; simpl in *.
  - destruct (truthy timeout && _); [discriminate|].
    destruct (stream source (reads w)) as [|b0 bs] eqn:Eb; simpl in Hstep.
    + inversion Hstep; subst; simpl. lia.
    + match type of Hstep with
      | context [if ?c then tl ?l else ?l] =>
          assert (Hlen : Z.of_nat (length (if c then tl l else l)) <= nsbc);
            [|revert Hstep Hlen; generalize (if c then tl l else l);
              intros fr' Hstep Hlen]
      end.
      { match goal with
        | |- context [?a >? nsbc] =>
            destruct (Z.gtb_spec a nsbc) as [Hgt|Hle]; [|exact Hle]
        end.
        destruct fr as [|f fr]; simpl in *; [lia|].
        rewrite length_app in *. simpl in *. lia. }
      destruct (Qgtb _ _); inversion Hstep; subst; simpl; lia.
  - destruct Hinv as (Hpa & Hpb & Hlen).
    destruct (stream source (reads w)) as [|b0 bs] eqn:Eb; simpl in Hstep.
    + unfold phrase_end in Hstep. destruct (_ >=? _); [discriminate|].
      inversion Hstep; subst; simpl. lia.
    + abstract_loud Hstep. case_gtb Hstep.
      * unfold phrase_end in Hstep. destruct (_ >=? _); [discriminate|].
        inversion Hstep; subst; simpl. lia.
      * inversion Hstep; subst; simpl. rewrite length_app. simpl.
        destruct loud_enough; lia.
Qed.

Lemma listen_step_post (n0 : nat) (s : listen_state) (w w' : world)
    (p : phrase) :
  state_inv pbc nsbc s ->
  (n0 <= reads w)%nat ->
  step_ s w = Done (Return p w') ->
  phrase_post source pbc phbc nsbc n0 p w'.
Proof.
  intros Hinv Hn0 Hstep. destruct s as [e fr | e fr pa ph]; simpl in *.
  - destruct (truthy timeout && _); [discriminate|].
    destruct (stream source (reads w)) as [|b0 bs]; simpl in Hstep;
      [discriminate|].
    destruct (Qgtb _ _); discriminate.
  - destruct Hinv as (Hpa & Hpb & Hlen).
    destruct (stream source (reads w)) as [|b0 bs] eqn:Eb; simpl in Hstep.
    + unfold phrase_end in Hstep.
      destruct (Z.geb_spec (ph - pa) phbc) as [Hge|Hlt]; [|discriminate].
      inversion Hstep; subst. unfold phrase_post, pre_roll; simpl.
      repeat split; try lia. right. exists (reads w). split; [exact Hn0|].
      split; [reflexivity|exact Eb].
    + abstract_loud Hstep. case_gtb Hstep; [|discriminate].
      unfold phrase_end in Hstep.
      match type of Hstep with
      | context [?a >=? phbc] =>
          destruct (Z.geb_spec a phbc) as [Hge|Hlt]; [|discriminate]
      end.
      inversion Hstep; subst. unfold phrase_post, pre_roll; simpl.
      rewrite length_app; simpl.
      destruct loud_enough; repeat split; try lia; left; lia.
Qed.

(** No loop iteration of [listen] raises anything but [WaitTimeoutError]. *)
Lemma listen_step_raise (s : listen_state) (w w' : world) (e : exn) :
  step_ s w = Done (Raise e w') ->
  e = WaitTimeoutError /\ w' = w /\ exists el fr, s = PhaseA el fr.
Proof.
  intros Hstep. destruct s as [el fr | el fr pa ph]; simpl in *.
  - destruct (truthy timeout && _).
    + inversion Hstep; subst. eauto.
    + destruct (stream source (reads w)) as [|b0 bs]; simpl in Hstep;
        [discriminate|].
      destruct (Qgtb _ _); discriminate.
  - unfold phrase_end in Hstep.
    destruct (stream source (reads w)) as [|b0 bs]; simpl in Hstep.
    + destruct (_ >=? _); discriminate.
    + destruct (_ >? pbc); [|discriminate].
      destruct (_ >=? _); discriminate.
Qed.

Lemma listen_step_order (n0 : nat) (s s' : listen_state) (w w' : world) :
  arrival_ordered source (state_frames s) n0 (reads w) ->
  step_ s w = Continue s' w' ->
  arrival_ordered source (state_frames s') n0 (reads w').
Proof.
  intros Hord Hstep. destruct s as [e fr | e fr pa ph]; simpl in *.
  - destruct (truthy timeout && _); [discriminate|].
    destruct (stream source (reads w)) as [|b0 bs] eqn:Eb; simpl in Hstep.
    + inversion Hstep; subst; simpl. apply arrival_ordered_later, Hord.
    + match type of Hstep with
      | context [if ?c then tl ?l else ?l] =>
          assert (Ho : arrival_ordered source (if c then tl l else l) n0
                         (S (reads w)));
            [destruct c; rewrite <- Eb;
             [apply arrival_ordered_tl|]; apply arrival_ordered_append, Hord
            |revert Hstep Ho; generalize (if c then tl l else l);
             intros fr' Hstep Ho]
      end.
      destruct (Qgtb _ _); inversion Hstep; subst; simpl; try exact Ho.
      destruct (dynamic_energy_threshold _); exact Ho.
  - destruct (stream source (reads w)) as [|b0 bs] eqn:Eb; simpl in Hstep.
    + unfold phrase_end in Hstep. destruct (_ >=? _); [discriminate|].
      inversion Hstep; subst; simpl. apply arrival_ordered_nil.
        destruct Hord; lia.
    + destruct (_ >? pbc).
      * unfold phrase_end in Hstep. destruct (_ >=? _); [discriminate|].
        inversion Hstep; subst; simpl. apply arrival_ordered_nil.
        destruct Hord; lia.
      * inversion Hstep; subst; simpl. rewrite <- Eb.
        apply arrival_ordered_append, Hord.
Qed.

Lemma listen_step_post_order (n0 : nat) (s : listen_state) (w w' : world)
    (p : phrase) :
  arrival_ordered source (state_frames s) n0 (reads w) ->
  step_ s w = Done (Return p w') ->
  arrival_ordered source (ring p) n0 (reads w').
Proof.
  intros Hord Hstep. destruct s as [e fr | e fr pa ph]; simpl in *.
  - destruct (truthy timeout && _); [discriminate|].
    destruct (stream source (reads w)) as [|b0 bs]; simpl in Hstep;
      [discriminate|].
    destruct (Qgtb _ _); discriminate.
  - unfold phrase_end in Hstep.
    destruct (stream source (reads w)) as [|b0 bs] eqn:Eb; simpl in Hstep.
    + destruct (_ >=? _); [|discriminate].
      inversion Hstep; subst; simpl. apply arrival_ordered_later, Hord.
    + destruct (_ >? pbc); [|discriminate].
      destruct (_ >=? _); [|discriminate].
      inversion Hstep; subst; simpl. rewrite <- Eb.
      apply arrival_ordered_append, Hord.
Qed.

Lemma trailing_silence_none (frames : list buffer) (w : world) :
  trailing_silence rms source frames 0 w.
Proof.
  unfold trailing_silence. simpl. rewrite Nat.sub_0_r, skipn_all. constructor.
Qed.

Lemma trailing_silence_snoc (frames : list buffer) (b : buffer) (pa : Z)
    (w : world) :
  0 <= pa <= Z.of_nat (length frames) ->
  Qgtb (inject_Z (rms b (SAMPLE_WIDTH source))) (energy_threshold (self w))
  = false ->
  trailing_silence rms source frames pa w ->
  trailing_silence rms source (frames ++ [b]) (pa + 1) w.
Proof.
  unfold trailing_silence. intros Hpa Hb H.
  rewrite length_app. simpl length.
  replace (length frames + 1 - Z.to_nat (pa + 1))%nat
    with (length frames - Z.to_nat pa)%nat by lia.
  rewrite skipn_app. apply Forall_app. split; [exact H|].
  replace (length frames - Z.to_nat pa - length frames)%nat with 0%nat by lia.
  simpl. constructor; [exact Hb | constructor].
Qed.

Lemma listen_step_silence (s s' : listen_state) (w w' : world) :
  state_inv pbc nsbc s ->
  state_silence rms source s w ->
  step_ s w = Continue s' w' ->
  state_silence rms source s' w'.
Proof.
  intros Hinv Hsil Hstep. destruct s as [e fr | e fr pa ph]; simpl in *.
  - destruct (truthy timeout && _); [discriminate|].
    destruct (stream source (reads w)) as [|b0 bs]; simpl in Hstep.
    + inversion Hstep; subst; simpl. apply trailing_silence_none.
    + destruct (Qgtb _ _); inversion Hstep; subst; simpl;
        [apply trailing_silence_none | exact I].
  - destruct Hinv as (Hpa & Hpb & Hlen).
    destruct (stream source (reads w)) as [|b0 bs]; simpl in Hstep.
    + unfold phrase_end in Hstep. destruct (_ >=? _); [discriminate|].
      inversion Hstep; subst; simpl. exact I.
    + destruct (Qgtb _ _) eqn:Eloud.
      * destruct (0 >? pbc).
        -- unfold phrase_end in Hstep. destruct (_ >=? _); [discriminate|].
           inversion Hstep; subst; simpl. exact I.
        -- inversion Hstep; subst; simpl. apply trailing_silence_none.
      * destruct (pa + 1 >? pbc).
        -- unfold phrase_end in Hstep. destruct (_ >=? _); [discriminate|].
           inversion Hstep; subst; simpl. exact I.
        -- inversion Hstep; subst; simpl.
           apply trailing_silence_snoc; [lia | exact Eloud | exact Hsil].
Qed.

Lemma listen_step_post_silence (s : listen_state) (w w' : world)
    (p : phrase) :
  state_inv pbc nsbc s ->
  state_silence rms source s w ->
  step_ s w = Done (Return p w') ->
  trailing_silence rms source (ring p) (final_pause_count p) w'.
Proof.
  intros Hinv Hsil Hstep. destruct s as [e fr | e fr pa ph]; simpl in *.
  - destruct (truthy timeout && _); [discriminate|].
    destruct (stream source (reads w)) as [|b0 bs]; simpl in Hstep;
      [discriminate|].
    destruct (Qgtb _ _); discriminate.
  - destruct Hinv as (Hpa & Hpb & Hlen). unfold phrase_end in Hstep.
    destruct (stream source (reads w)) as [|b0 bs]; simpl in Hstep.
    + destruct (_ >=? _); [|discriminate].
      inversion Hstep; subst; simpl. exact Hsil.
    + destruct (Qgtb _ _) eqn:Eloud.
      * destruct (0 >? pbc); [|discriminate].
        destruct (_ >=? _); [|discriminate].
        inversion Hstep; subst; simpl. apply trailing_silence_none.
      * destruct (pa + 1 >? pbc); [|discriminate].
        destruct (_ >=? _); [|discriminate].
        inversion Hstep; subst; simpl.
        apply trailing_silence_snoc; [lia | exact Eloud | exact Hsil].
Qed.

Lemma listen_loop_post_silence (fuel : nat) (s : listen_state)
    (w w' : world) (p : phrase) :
  state_inv pbc nsbc s ->
  state_silence rms source s w ->
  loop_ fuel s w = Return p w' ->
  trailing_silence rms source (ring p) (final_pause_count p) w'.
Proof.
  revert s w. induction fuel as [|fuel IH]; intros s w Hinv Hsil Hloop;
    simpl in Hloop; [discriminate|].
  destruct (step_ s w) as [s1 w1|o] eqn:Es.
  - apply (IH s1 w1); [| |exact Hloop].
    + eapply listen_step_inv; eassumption.
    + eapply listen_step_silence; eassumption.
  - subst o. eapply listen_step_post_silence; eassumption.
Qed.

(** The invariants hold wherever a run arrives. *)
Lemma listen_run_inv (n0 k : nat) (s s' : listen_state) (w w' : world) :
  state_inv pbc nsbc s ->
  arrival_ordered source (state_frames s) n0 (reads w) ->
  run_ k s w = Continue s' w' ->
  state_inv pbc nsbc s'
  /\ arrival_ordered source (state_frames s') n0 (reads w').
Proof.
  revert s w. induction k as [|k IH]; intros s w Hinv Hord Hrun; simpl in Hrun.
  - inversion Hrun; subst. split; assumption.
  - destruct (step_ s w) as [s1 w1|o] eqn:Es; [|discriminate].
    apply (IH s1 w1); [| |exact Hrun].
    + eapply listen_step_inv; eassumption.
    + eapply listen_step_order; eassumption.
Qed.

Lemma listen_loop_post (n0 fuel : nat) (s : listen_state) (w w' : world)
    (p : phrase) :
  state_inv pbc nsbc s ->
  arrival_ordered source (state_frames s) n0 (reads w) ->
  loop_ fuel s w = Return p w' ->
  phrase_post source pbc phbc nsbc n0 p w'
  /\ arrival_ordered source (ring p) n0 (reads w').
Proof.
  revert s w. induction fuel as [|fuel IH]; intros s w Hinv Hord Hloop;
    simpl in Hloop; [discriminate|].
  destruct (step_ s w) as [s1 w1|o] eqn:Es.
  - apply (IH s1 w1); [| |exact Hloop].
    + eapply listen_step_inv; eassumption.
    + eapply listen_step_order; eassumption.
  - subst o. split.
    + apply (listen_step_post n0 s w w' p Hinv); [|exact Es].
      destruct Hord as [Hn _]. exact Hn.
    + eapply listen_step_post_order; eassumption.
Qed.

Lemma listen_loop_raise (fuel : nat) (s : listen_state) (w w' : world)
    (e : exn) :
  loop_ fuel s w = Raise e w' -> e = WaitTimeoutError.
Proof.
  revert s w. induction fuel as [|fuel IH]; intros s w Hloop;
    simpl in Hloop; [discriminate|].
  destruct (step_ s w) as [s1 w1|o] eqn:Es.
  - eapply IH; eassumption.
  - subst o. apply listen_step_raise in Es. tauto.
Qed.
End ListenInvariants.

(** When the outer loop of a call breaks, the invariants' consequences hold
    of what it hands over. *)
Lemma listen_phrase_post (rms : buffer -> positive -> Z)
    (float_pow : Q -> Q -> Q) (source : AudioSource) (timeout : option Q)
    (fuel : nat) (w w' : world) (p : phrase) :
  thresholds_ok (self w) = true ->
  listen_phrase rms float_pow source timeout fuel w = Return p w' ->
  phrase_post source (pause_buffers source (self w))
    (phrase_buffers source (self w)) (non_speaking_buffers source (self w))
    (reads w) p w'
  /\ arrival_ordered source (ring p) (reads w) (reads w').
Proof.
  intros Hok Hloop. destruct (counts_ordered source (self w) Hok) as [H0 H1].
  eapply listen_loop_post; [exact H0 | exact H1 | | | exact Hloop].
  - simpl. exact H0.
  - simpl. apply arrival_ordered_nil. lia.
Qed.

(** The trimming never pops an empty deque. *)
Lemma obtain_frame_data_ok (source : AudioSource) (pbc phbc nsbc : Z)
    (n0 : nat) (p : phrase) (w : world) :
  phrase_post source pbc phbc nsbc n0 p w ->
  obtain_frame_data source nsbc p w =
  Return {| frame_data :=
              concat (firstn (length (ring p)
                              - Z.to_nat (final_pause_count p - nsbc)) (ring p));
            sample_rate := SAMPLE_RATE source;
            sample_width := SAMPLE_WIDTH source |} w.
Proof.
  intros (Hpa & Hph & Hph0 & Hpre & _). unfold obtain_frame_data.
  unfold pre_roll in Hpre. rewrite pop_n_firstn; [reflexivity|]. lia.
Qed.

Lemma obtain_frame_data_exn (source : AudioSource) (nsbc : Z) (p : phrase)
    (w w' : world) (e : exn) :
  obtain_frame_data source nsbc p w = Raise e w' -> e = IndexError.
Proof.
  unfold obtain_frame_data. destruct (pop_n _ _); intros H;
    [discriminate | inversion H; reflexivity].
Qed.

(** Inversion of a call of [listen] that returns. *)
Lemma listen_return_inv (rms : buffer -> positive -> Z)
    (float_pow : Q -> Q -> Q) (source : AudioSource) (timeout : option Q)
    (fuel : nat) (w w' : world) (audio : AudioData) :
  listen rms float_pow source timeout fuel w = Return audio w' ->
  exists p,
    thresholds_ok (self w) = true
    /\ listen_phrase rms float_pow source timeout fuel w = Return p w'
    /\ obtain_frame_data source (non_speaking_buffers source (self w)) p w'
       = Return audio w'.
Proof.
  rewrite listen_unfold. intros H.
  destruct (thresholds_ok (self w)) eqn:Hok; simpl in H; [|discriminate].
  destruct (listen_phrase _ _ _ _ _ _) as [p w1|e w1|] eqn:Hloop;
    try discriminate.
  exists p. split; [reflexivity|].
  destruct (listen_phrase_post _ _ _ _ _ _ _ _ Hok Hloop) as [Hpost _].
  rewrite (obtain_frame_data_ok _ _ _ _ _ _ _ Hpost) in H.
  inversion H; subst. split; [reflexivity|].
  apply (obtain_frame_data_ok _ _ _ _ _ _ _ Hpost).
Qed.

(** ** The clock of [listen] *)

Section ListenClock.
Variable rms : buffer -> positive -> Z.
Variable float_pow : Q -> Q -> Q.
Variable source : AudioSource.
Variable timeout : option Q.
Variables pbc phbc nsbc : Z.

Local Abbreviation step_ := (listen_step rms float_pow source timeout pbc phbc nsbc).
Local Abbreviation loop_ := (listen_loop rms float_pow source timeout pbc phbc nsbc).
Local Abbreviation run_ := (listen_run rms float_pow source timeout pbc phbc nsbc).

(** Every iteration, of either inner loop, adds one buffer to the clock
    and reads one buffer. *)
Lemma listen_step_clock (s s' : listen_state) (w w' : world) :
  step_ s w = Continue s' w' ->
  state_elapsed s' = float_add (state_elapsed s) (seconds_per_buffer source)
  /\ reads w' = S (reads w).
Proof.
  intros Hstep. destruct s as [e fr | e fr pa ph]; simpl in *.
  - destruct (truthy timeout && _); [discriminate|].
    destruct (stream source (reads w)) as [|b0 bs]; simpl in Hstep.
    + inversion Hstep; subst. split; reflexivity.
    + destruct (Qgtb _ _); inversion Hstep; subst; simpl;
        [split; reflexivity|].
      destruct (dynamic_energy_threshold _); split; reflexivity.
  - unfold phrase_end in Hstep.
    destruct (stream source (reads w)) as [|b0 bs]; simpl in Hstep.
    + destruct (_ >=? _); [discriminate|].
      inversion Hstep; subst. split; reflexivity.
    + destruct (_ >? pbc).
      * destruct (_ >=? _); [discriminate|].
        inversion Hstep; subst. split; reflexivity.
      * inversion Hstep; subst. split; reflexivity.
Qed.

Lemma listen_run_clock (k : nat) (s s' : listen_state) (w w' : world) :
  run_ k s w = Continue s' w' ->
  state_elapsed s' = clock source (state_elapsed s) k
  /\ reads w' = (reads w + k)%nat.
Proof.
  revert s' w'. induction k as [|k IH]; intros s' w' Hrun.
  - simpl in Hrun. inversion Hrun; subst. simpl. split; [reflexivity | lia].
  - rewrite listen_run_S in Hrun.
    destruct (run_ k s w) as [s1 w1|o]; [|discriminate].
    destruct (IH s1 w1 eq_refl) as [He Hr].
    destruct (listen_step_clock _ _ _ _ Hrun) as [He' Hr'].
    rewrite He', Hr', Hr, He. split; [reflexivity | lia].
Qed.

(** The check at the head of an iteration of phase A. *)
Lemma listen_step_timeout (e : Q) (fr : list buffer) (w : world) :
  step_ (PhaseA e fr) w = Done (Raise WaitTimeoutError w)
  <-> exists t, timeout = Some t /\ ~ (t == 0)%Q
                /\ (t < float_add e (seconds_per_buffer source))%Q.
Proof.
  simpl. split.
  - intros Hstep.
    destruct (truthy timeout && _) eqn:Echeck.
    + apply andb_true_iff in Echeck. destruct Echeck as [Ht Hx].
      destruct timeout as [t|]; [|discriminate]. exists t.
      split; [reflexivity|]. split; [apply truthy_Some, Ht|].
      apply Qgtb_true, Hx.
    + destruct (stream source (reads w)) as [|b0 bs]; simpl in Hstep;
        [discriminate|].
      destruct (Qgtb _ _); discriminate.
  - intros (t & -> & Ht & Hx).
    apply truthy_Some in Ht. apply Qgtb_true in Hx.
    simpl exceeds. rewrite Ht, Hx. reflexivity.
Qed.

(** A run that has ended took its last step from some loop head. *)
Lemma listen_run_done (k : nat) (s : listen_state) (w : world)
    (o : outcome phrase) :
  run_ k s w = Done o ->
  exists j sj wj, (j < k)%nat /\ run_ j s w = Continue sj wj
                  /\ step_ sj wj = Done o.
Proof.
  induction k as [|k IH]; intros Hrun; [discriminate|].
  rewrite listen_run_S in Hrun.
  destruct (run_ k s w) as [s1 w1|o1] eqn:Ek.
  - exists k, s1, w1. split; [lia|]. split; [exact Ek | exact Hrun].
  - destruct (IH Hrun) as (j & sj & wj & Hj & Hc & Hd).
    exists j, sj, wj. split; [lia|]. split; assumption.
Qed.
End ListenClock.

Lemma listen_raise_inv (rms : buffer -> positive -> Z)
    (float_pow : Q -> Q -> Q) (source : AudioSource) (timeout : option Q)
    (fuel : nat) (w w' : world) :
  listen rms float_pow source timeout fuel w = Raise WaitTimeoutError w' ->
  thresholds_ok (self w) = true
  /\ listen_phrase rms float_pow source timeout fuel w
     = Raise WaitTimeoutError w'.
Proof.
  rewrite listen_unfold. intros H.
  destruct (thresholds_ok (self w)) eqn:Hok; simpl in H; [|discriminate].
  split; [reflexivity|].
  destruct (listen_phrase _ _ _ _ _ _) as [p w1|e w1|] eqn:Hloop;
    try discriminate.
  - unfold obtain_frame_data in H. destruct (pop_n _ _); discriminate.
  - inversion H; subst. reflexivity.
Qed.

(** A call of [listen] that raises [WaitTimeoutError] does so at the head of
    an iteration of phase A, before that iteration reads. *)
Lemma listen_timeout_position (rms : buffer -> positive -> Z)
    (float_pow : Q -> Q -> Q) (source : AudioSource) (timeout : option Q)
    (fuel : nat) (w w' : world) :
  listen rms float_pow source timeout fuel w = Raise WaitTimeoutError w' ->
  exists k e fr,
    (k < fuel)%nat
    /\ listen_trace rms float_pow source timeout k w = Continue (PhaseA e fr) w'
    /\ listen_step rms float_pow source timeout
         (pause_buffers source (self w)) (phrase_buffers source (self w))
         (non_speaking_buffers source (self w)) (PhaseA e fr) w'
       = Done (Raise WaitTimeoutError w').
Proof.
  intros H. apply listen_raise_inv in H. destruct H as [_ H].
  unfold listen_phrase in H. rewrite listen_loop_run in H.
  destruct (listen_run _ _ _ _ _ _ _ fuel _ w) as [s1 w1|o] eqn:Erun;
    [discriminate|]. subst o.
  apply listen_run_done in Erun. destruct Erun as (j & sj & wj & Hj & Hc & Hd).
  destruct (listen_step_raise _ _ _ _ _ _ _ _ _ _ _ Hd) as (_ & -> & e & fr & ->).
  exists j, e, fr. split; [exact Hj|]. split; [exact Hc | exact Hd].
Qed.

(** ** The energy threshold during [listen] *)

Section ListenThreshold.
Variable rms : buffer -> positive -> Z.
Variable float_pow : Q -> Q -> Q.
Variable source : AudioSource.
Variable timeout : option Q.
Variables pbc phbc nsbc : Z.

Local Abbreviation step_ := (listen_step rms float_pow source timeout pbc phbc nsbc).
Local Abbreviation loop_ := (listen_loop rms float_pow source timeout pbc phbc nsbc).
Local Abbreviation run_ := (listen_run rms float_pow source timeout pbc phbc nsbc).

(** The one assignment to the recogniser in an iteration of [listen]. *)
Lemma listen_step_self (s s' : listen_state) (w w' : world) :
  step_ s w = Continue s' w' ->
  self w' = self w
  \/ (exists e fr,
         s = PhaseA e fr
         /\ dynamic_energy_threshold (self w) = true
         /\ stream source (reads w) <> []
         /\ Qgtb (inject_Z (rms (stream source (reads w)) (SAMPLE_WIDTH source)))
              (energy_threshold (self w)) = false
         /\ w' = adjust_threshold float_pow (seconds_per_buffer source)
                   (rms (stream source (reads w)) (SAMPLE_WIDTH source))
                   (after_read w)).
Proof.
  intros Hstep. destruct s as [e fr | e fr pa ph]; simpl in *.
  - destruct (truthy timeout && _); [discriminate|].
    destruct (stream source (reads w)) as [|b0 bs] eqn:Eb; simpl in Hstep.
    + inversion Hstep; subst. left. reflexivity.
    + destruct (Qgtb _ _) eqn:Eloud.
      * inversion Hstep; subst. left. reflexivity.
      * destruct (dynamic_energy_threshold (self w)) eqn:Edyn;
          inversion Hstep; subst.
        -- right. exists e, fr. repeat split; try assumption. discriminate.
        -- left. reflexivity.
  - unfold phrase_end in Hstep.
    destruct (stream source (reads w)) as [|b0 bs]; simpl in Hstep.
    + destruct (_ >=? _); [discriminate|].
      inversion Hstep; subst. left. reflexivity.
    + destruct (_ >? pbc).
      * destruct (_ >=? _); [discriminate|].
        inversion Hstep; subst. left. reflexivity.
      * inversion Hstep; subst. left. reflexivity.
Qed.

Lemma listen_step_done_self (s : listen_state) (w : world)
    (o : outcome phrase) :
  step_ s w = Done o ->
  match o with
  | Return _ w' => self w' = self w
  | Raise _ w' => w' = w
  | OutOfFuel => False
  end.
Proof.
  intros Hstep. destruct s as [e fr | e fr pa ph]; simpl in *.
  - destruct (truthy timeout && _).
    + inversion Hstep; subst. reflexivity.
    + destruct (stream source (reads w)) as [|b0 bs]; simpl in Hstep;
        [discriminate|].
      destruct (Qgtb _ _); discriminate.
  - unfold phrase_end in Hstep.
    destruct (stream source (reads w)) as [|b0 bs]; simpl in Hstep.
    + destruct (_ >=? _); [|discriminate].
      inversion Hstep; subst. reflexivity.
    + destruct (_ >? pbc); [|discriminate].
      destruct (_ >=? _); [|discriminate].
      inversion Hstep; subst. reflexivity.
Qed.

Lemma listen_run_static (k : nat) (s s' : listen_state) (w w' : world) :
  dynamic_energy_threshold (self w) = false ->
  run_ k s w = Continue s' w' ->
  self w' = self w.
Proof.
  intros Hdyn. revert s' w'. induction k as [|k IH]; intros s' w' Hrun.
  - simpl in Hrun. inversion Hrun; subst. reflexivity.
  - rewrite listen_run_S in Hrun.
    destruct (run_ k s w) as [s1 w1|o]; [|discriminate].
    specialize (IH s1 w1 eq_refl).
    destruct (listen_step_self _ _ _ _ Hrun)
      as [H|(e & fr & _ & Hd & _)]; [congruence|].
    rewrite IH in Hd. congruence.
Qed.

Lemma listen_loop_static (fuel : nat) (s : listen_state) (w : world) :
  dynamic_energy_threshold (self w) = false ->
  match loop_ fuel s w with
  | Return _ w' => self w' = self w
  | Raise _ w' => self w' = self w
  | OutOfFuel => True
  end.
Proof.
  intros Hdyn. rewrite listen_loop_run.
  destruct (run_ fuel s w) as [s1 w1|o] eqn:Erun; [exact I|].
  apply listen_run_done in Erun. destruct Erun as (j & sj & wj & _ & Hc & Hd).
  apply (listen_run_static _ _ _ _ _ Hdyn) in Hc.
  apply listen_step_done_self in Hd.
  destruct o as [p w'|e w'|]; [congruence | congruence | exact I].
Qed.
End ListenThreshold.

(** ** End of the stream inside [listen] *)

(** C1 (the code departs from the claim).  On the default recogniser and a
    16 kHz source of 1024-sample chunks, [listen] without a timeout never
    returns when the stream is empty, nor when it ends after a click shorter
    than [phrase_threshold]; with a timeout of two seconds the second call
    raises [WaitTimeoutError] instead of returning what was captured. *)
Theorem listen_eof_short_phrase_does_not_return :
  (forall fuel,
      listen audioop_rms pow_int (source_of []) None fuel
        (fresh Recognizer_init) = OutOfFuel)
  /\ (forall fuel,
      listen audioop_rms pow_int (source_of blip) None fuel
        (fresh Recognizer_init) = OutOfFuel)
  /\ (exists w,
      listen audioop_rms pow_int (source_of blip) (Some 2%Q) 40
        (fresh Recognizer_init) = Raise WaitTimeoutError w).
Proof.
  split; [|split].
  - apply listen_diverges_at_end_of_stream; try reflexivity.
    intros n _. apply (stream_of_list_eof [] n). simpl. lia.
  - intros fuel. unfold listen.
    change (thresholds_ok (self (fresh Recognizer_init))) with true.
    cbv beta iota zeta delta [negb].
    assert (H18 : exists s w,
               listen_run audioop_rms pow_int (source_of blip) None
                 (buffer_count (pause_threshold (self (fresh Recognizer_init)))
                    (seconds_per_buffer (source_of blip)))
                 (buffer_count (phrase_threshold (self (fresh Recognizer_init)))
                    (seconds_per_buffer (source_of blip)))
                 (buffer_count (non_speaking_duration (self (fresh Recognizer_init)))
                    (seconds_per_buffer (source_of blip)))
                 18 (PhaseA 0 []) (fresh Recognizer_init) = Continue s w
               /\ (17 <= reads w)%nat
               /\ match s with
                  | PhaseA _ _ => True
                  | PhaseB _ _ pa ph => ph - pa < 8
                  end).
    { do 2 eexists. split; [vm_compute; reflexivity|].
      split; [simpl; lia | reflexivity]. }
    destruct H18 as (s & w & Hrun & Hw & Hs).
    rewrite (listen_loop_diverges_from_eof audioop_rms pow_int (source_of blip)
               None _ _ _ 17 18 (PhaseA 0 []) s (fresh Recognizer_init) w).
    + reflexivity.
    + reflexivity.
    + vm_compute. reflexivity.
    + intros n Hn. apply (stream_of_list_eof blip n). exact Hn.
    + exact Hrun.
    + exact Hw.
    + destruct s; [exact I | exact Hs].
  - vm_compute. eexists. reflexivity.
Qed.

(** ** The size of the returned audio *)

(** C2.  When every read of the call returns a whole buffer, the audio that
    [listen] returns is made of exactly
    [pre_roll + body + non_speaking_buffer_count] whole buffers, where the
    pre-roll (what the ring held when phase A ended, the triggering buffer
    included) is at most [non_speaking_buffer_count] and the body,
    [phrase_count - pause_count] at the break of the outer loop, is at least
    [phrase_buffer_count]: so at least
    [phrase_buffer_count + non_speaking_buffer_count] buffers, and at most
    [non_speaking_buffer_count + body + non_speaking_buffer_count]. *)
Theorem listen_emitted_buffer_count
    (rms : buffer -> positive -> Z) (float_pow : Q -> Q -> Q)
    (source : AudioSource) (timeout : option Q) (fuel : nat)
    (w w' : world) (audio : AudioData) :
  (forall n, (reads w <= n < reads w')%nat ->
             Z.of_nat (length (stream source n)) = chunk_bytes source) ->
  listen rms float_pow source timeout fuel w = Return audio w' ->
  exists p frames,
    listen_phrase rms float_pow source timeout fuel w = Return p w'
    /\ frame_data audio = concat frames
    /\ Forall (fun b => Z.of_nat (length b) = chunk_bytes source) frames
    /\ Z.of_nat (length (frame_data audio))
       = Z.of_nat (length frames) * chunk_bytes source
    /\ 0 <= pre_roll p <= non_speaking_buffers source (self w)
    /\ phrase_buffers source (self w) <= final_phrase_count p
    /\ Z.of_nat (length frames)
       = pre_roll p + final_phrase_count p + non_speaking_buffers source (self w)
    /\ phrase_buffers source (self w) + non_speaking_buffers source (self w)
       <= Z.of_nat (length frames)
    /\ Z.of_nat (length frames)
       <= non_speaking_buffers source (self w) + final_phrase_count p
          + non_speaking_buffers source (self w).
Proof.
  intros Hwhole Hcall.
  destruct (listen_return_inv _ _ _ _ _ _ _ _ Hcall) as (p & Hok & Hloop & Hob).
  destruct (listen_phrase_post _ _ _ _ _ _ _ _ Hok Hloop) as [Hpost Hord].
  rewrite (obtain_frame_data_ok _ _ _ _ _ _ _ Hpost) in Hob.
  inversion Hob as [Haudio]; clear Hob.
  destruct (counts_ordered source (self w) Hok) as [Hns0 Hnsp].
  destruct Hpost as (Hpa & Hph & Hph0 & Hpre & Hend).
  assert (Hfull : final_pause_count p = pause_buffers source (self w) + 1).
  { destruct Hend as [H|(n & Hn0 & Hn & Heof)]; [exact H|].
    exfalso. specialize (Hwhole n). rewrite Heof in Hwhole. simpl in Hwhole.
    pose proof (chunk_bytes_pos source). lia. }
  set (frames := firstn (length (ring p)
       - Z.to_nat (final_pause_count p - non_speaking_buffers source (self w)))
       (ring p)).
  assert (Hwf : Forall (fun b => Z.of_nat (length b) = chunk_bytes source) frames).
  { apply (arrival_ordered_from_stream source frames (reads w) (reads w')).
    - apply arrival_ordered_firstn, Hord.
    - exact Hwhole. }
  assert (Hlen : Z.of_nat (length frames)
                 = pre_roll p + final_phrase_count p
                   + non_speaking_buffers source (self w)).
  { unfold frames. rewrite length_firstn. unfold pre_roll in *. lia. }
  exists p, frames. simpl.
  repeat split; try assumption; try lia.
  apply concat_uniform_length, Hwf.
Qed.

(** The clean phrase: four buffers of pre-roll, eighteen of body and four
    of trailing silence come back. *)
Lemma listen_emitted_buffer_count_witness :
  exists p frames,
    listen_phrase audioop_rms pow_int (source_of clean_phrase) None 40
      (fresh Recognizer_init)
    = Return p (final_world (fresh Recognizer_init) clean_call)
    /\ frame_data (returned no_audio clean_call) = concat frames
    /\ Forall (fun b => Z.of_nat (length b)
                        = chunk_bytes (source_of clean_phrase)) frames
    /\ Z.of_nat (length (frame_data (returned no_audio clean_call)))
       = Z.of_nat (length frames) * chunk_bytes (source_of clean_phrase)
    /\ 0 <= pre_roll p
       <= non_speaking_buffers (source_of clean_phrase)
            (self (fresh Recognizer_init))
    /\ phrase_buffers (source_of clean_phrase)
            (self (fresh Recognizer_init))
       <= final_phrase_count p
    /\ Z.of_nat (length frames)
       = pre_roll p + final_phrase_count p
         + non_speaking_buffers (source_of clean_phrase)
            (self (fresh Recognizer_init))
    /\ phrase_buffers (source_of clean_phrase)
            (self (fresh Recognizer_init))
       + non_speaking_buffers (source_of clean_phrase)
            (self (fresh Recognizer_init))
       <= Z.of_nat (length frames)
    /\ Z.of_nat (length frames)
       <= non_speaking_buffers (source_of clean_phrase)
            (self (fresh Recognizer_init))
          + final_phrase_count p
          + non_speaking_buffers (source_of clean_phrase)
            (self (fresh Recognizer_init)).
Proof.
  apply (listen_emitted_buffer_count audioop_rms pow_int
           (source_of clean_phrase) None 40 (fresh Recognizer_init)
           (final_world (fresh Recognizer_init) clean_call)
           (returned no_audio clean_call)).
  - intros n Hn. rewrite clean_call_reads in Hn.
    apply clean_source_whole. lia.
  - apply (return_eta no_audio (fresh Recognizer_init) clean_call).
    vm_compute. reflexivity.
Defined.

(** Beside C2: when the stream ends inside the phrase, the audio can be
    shorter than [phrase_buffer_count + non_speaking_buffer_count] buffers.
    Ten buffers of speech and the end of the stream give ten buffers back,
    against 8 + 4. *)
Lemma listen_end_of_stream_inside_phrase :
  is_return (listen audioop_rms pow_int (source_of cut_phrase) None 40
               (fresh Recognizer_init)) = true
  /\ Z.of_nat (length (frame_data
        (returned no_audio
           (listen audioop_rms pow_int (source_of cut_phrase) None 40
              (fresh Recognizer_init)))))
     = 10 * chunk_bytes (source_of cut_phrase)
  /\ phrase_buffers (source_of cut_phrase) Recognizer_init
     + non_speaking_buffers (source_of cut_phrase) Recognizer_init = 12.
Proof.
  split; [vm_compute; reflexivity|].
  split; vm_compute; reflexivity.
Qed.

(** ** [record] *)

Section Recording.
Variable source : AudioSource.
Variables duration offset : option Q.

Local Abbreviation spb := (seconds_per_buffer source).
Local Abbreviation loop_ := (record_loop source duration offset).

(** An empty read ends the loop in any state. *)
Lemma record_loop_eof (fuel : nat) (e ot : Q) (r : bool)
    (frames : list byte) (w : world) :
  stream source (reads w) = [] ->
  loop_ (S fuel) e ot r frames w = Return frames (after_read w).
Proof. intros Hb. cbn [record_loop]. rewrite Hb. reflexivity. Qed.

(** While the offset clock does not exceed the offset, non-empty buffers
    are read and dropped. *)
Lemma record_loop_passes_over (k : nat) :
  forall (i fuel : nat) (e : Q) (frames : list byte) (w : world),
    (forall x, (1 <= x <= k)%nat ->
               truthy offset = true /\ over source offset (i + x) = false) ->
    (forall x, (x < k)%nat -> stream source (reads w + x) <> []) ->
    loop_ (k + fuel) e (buffers_time source i) false frames w
    = loop_ fuel e (buffers_time source (i + k)) false frames
        {| reads := reads w + k; self := self w |}.
Proof.
  induction k as [|k IH]; intros i fuel e frames w Hoff Hne.
  - rewrite Nat.add_0_r. simpl plus. f_equal. symmetry. apply world_eta.
    simpl. lia.
  - destruct (Hoff 1%nat ltac:(lia)) as [Htr Hover].
    unfold over in Hover. rewrite Htr in Hover. cbn [andb] in Hover.
    replace (i + 1)%nat with (S i) in Hover by lia.
    pose proof (Hne 0%nat ltac:(lia)) as Hb. rewrite Nat.add_0_r in Hb.
    change (S k + fuel)%nat with (S (k + fuel)). cbn [record_loop].
    rewrite Htr. cbn [andb negb]. rewrite <- buffers_time_S, Hover.
    cbn [orb negb].
    destruct (stream source (reads w)) as [|b0 bs]; [contradiction|].
    simpl length. simpl Nat.eqb. cbv iota.
    rewrite (IH (S i) fuel e frames (after_read w)).
    + replace (S i + k)%nat with (i + S k)%nat by lia.
      f_equal. simpl. f_equal. lia.
    + intros x Hx. replace (S i + x)%nat with (i + S x)%nat by lia.
      apply Hoff. lia.
    + intros x Hx. simpl. specialize (Hne (S x) ltac:(lia)).
      replace (reads w + S x)%nat with (S (reads w + x)) in Hne by lia.
      exact Hne.
Qed.

(** Once the offset is behind, non-empty buffers are appended as long as
    the capture clock does not exceed the duration. *)
Lemma record_loop_keeps (m : nat) :
  forall (j fuel : nat) (ot : Q) (r : bool) (frames : list byte)
         (w : world),
    appending source offset ot r = true ->
    (forall x, (1 <= x <= m)%nat -> over source duration (j + x) = false) ->
    (forall i, (i < m)%nat -> stream source (reads w + i) <> []) ->
    exists ot' r',
      appending source offset ot' r' = true
      /\ loop_ (m + fuel) (buffers_time source j) ot r frames w
         = loop_ fuel (buffers_time source (j + m)) ot' r'
             (frames ++ concat (map (stream source) (seq (reads w) m)))
             {| reads := reads w + m; self := self w |}.
Proof.
  induction m as [|m IH]; intros j fuel ot r frames w Happ Hcap Hne.
  - exists ot, r. rewrite Nat.add_0_r. split; [exact Happ|].
    simpl. rewrite app_nil_r. f_equal. symmetry. apply world_eta.
    simpl. lia.
  - pose proof (Hcap 1%nat ltac:(lia)) as Hle. unfold over in Hle.
    replace (j + 1)%nat with (S j) in Hle by lia.
    pose proof (Hne 0%nat ltac:(lia)) as Hb. rewrite Nat.add_0_r in Hb.
    assert (Hnext : forall i, (i < m)%nat ->
               stream source (reads (after_read w) + i) <> []).
    { intros i Hi. simpl. specialize (Hne (S i) ltac:(lia)).
      replace (reads w + S i)%nat with (S (reads w + i)) in Hne by lia.
      exact Hne. }
    assert (Hcap' : forall x, (1 <= x <= m)%nat ->
                              over source duration (S j + x) = false).
    { intros x Hx. replace (S j + x)%nat with (j + S x)%nat by lia.
      apply Hcap. lia. }
    unfold appending in Happ.
    change (S m + fuel)%nat with (S (m + fuel)). cbn [record_loop].
    rewrite <- buffers_time_S, Hle.
    destruct (stream source (reads w)) as [|b0 bs] eqn:Eb; [contradiction|].
    simpl length. simpl Nat.eqb. cbv iota.
    assert (Hfinish : forall ot1 r1,
               appending source offset ot1 r1 = true ->
               exists ot' r',
                 appending source offset ot' r' = true
                 /\ loop_ (m + fuel) (buffers_time source (S j)) ot1 r1
                      (frames ++ b0 :: bs) (after_read w)
                    = loop_ fuel (buffers_time source (j + S m)) ot' r'
                        (frames ++ concat (map (stream source)
                                             (seq (reads w) (S m))))
                        {| reads := reads w + S m; self := self w |}).
    { intros ot1 r1 Happ1.
      destruct (IH (S j) fuel ot1 r1 (frames ++ b0 :: bs)
                  (after_read w) Happ1 Hcap' Hnext)
        as (ot' & r' & Happ' & Heq).
      exists ot', r'. split; [exact Happ'|].
      rewrite Heq. simpl seq. simpl map. simpl concat.
      rewrite Eb, <- app_assoc. simpl reads.
      replace (S j + m)%nat with (j + S m)%nat by lia.
      f_equal. f_equal. lia. }
    destruct (truthy offset) eqn:Eo; destruct r; simpl in Happ |- *.
    + apply Hfinish. unfold appending. reflexivity.
    + rewrite Happ. simpl. apply Hfinish. unfold appending. reflexivity.
    + apply Hfinish. unfold appending. reflexivity.
    + apply Hfinish. unfold appending. rewrite Eo. reflexivity.
Qed.

(** The iteration that takes the capture clock above the duration ends
    the loop; its buffer is read and not written. *)
Lemma record_loop_full (j fuel : nat) (ot : Q) (r : bool)
    (frames : list byte) (w : world) :
  appending source offset ot r = true ->
  over source duration (S j) = true ->
  loop_ (S fuel) (buffers_time source j) ot r frames w
  = Return frames (after_read w).
Proof.
  intros Happ Hover. unfold over in Hover.
  unfold appending in Happ. cbn [record_loop].
  rewrite <- buffers_time_S, Hover.
  destruct (stream source (reads w)) as [|b0 bs]; simpl length;
    simpl Nat.eqb; cbv iota; [reflexivity|].
  destruct (truthy offset) eqn:Eo; destruct r; simpl in Happ |- *;
    try rewrite Happ; simpl; solve [reflexivity | discriminate].
Qed.

Lemma skipped_passes (k : nat) :
  skipped source offset k ->
  (forall x, (1 <= x <= k)%nat ->
             truthy offset = true /\ over source offset x = false)
  /\ appending source offset (buffers_time source k) false = true.
Proof.
  unfold skipped, over, appending. intros Hk.
  destruct offset as [o|]; [|subst k; split; [intros; lia | reflexivity]].
  destruct (truthy (Some o)) eqn:Etr;
    [|subst k; split; [intros; lia | reflexivity]].
  destruct Hk as [Hle Hgt]. split.
  - intros x Hx. split; [reflexivity|]. simpl. apply Qgtb_false, Hle, Hx.
  - simpl. rewrite <- buffers_time_S. apply Qgtb_true, Hgt.
Qed.

(** The loop of [record] from its entry: [e] non-empty buffers are read,
    the first [k] of them passed over, and then the stream is at its end
    or the capture clock exceeds the duration. *)
Lemma record_loop_until (k e fuel : nat) (w : world) :
  skipped source offset k ->
  (forall i, (i < e)%nat -> stream source (reads w + i) <> []) ->
  (forall x, (1 <= x <= e - k)%nat -> over source duration x = false) ->
  (stream source (reads w + e) = []
   \/ ((k <= e)%nat /\ over source duration (S (e - k)) = true)) ->
  (e < fuel)%nat ->
  loop_ fuel 0 0 false [] w
  = Return (concat (map (stream source) (seq (reads w + k) (e - k))))
      {| reads := reads w + e + 1; self := self w |}.
Proof.
  intros Hskip Hne Hcap Hstop Hfuel.
  destruct (skipped_passes k Hskip) as [Hoff Happ].
  change 0%Q with (buffers_time source 0).
  destruct (le_lt_dec k e) as [Hke|Hek].
  - replace fuel with (k + (fuel - k))%nat by lia.
    rewrite record_loop_passes_over;
      [|intros x Hx; apply Hoff, Hx | intros x Hx; apply Hne; lia].
    simpl plus.
    destruct (record_loop_keeps (e - k) 0 (fuel - e)
                (buffers_time source k) false []
                {| reads := reads w + k; self := self w |} Happ)
      as (ot2 & r2 & Happ2 & Heq2).
    + intros x Hx. apply Hcap, Hx.
    + intros i Hi. simpl. rewrite <- Nat.add_assoc. apply Hne. lia.
    + replace (e - k + (fuel - e))%nat with (fuel - k)%nat in Heq2 by lia.
      rewrite Heq2. clear Heq2. simpl app. simpl reads. simpl plus.
      destruct (fuel - e)%nat as [|fuel'] eqn:Ef; [lia|].
      replace (reads w + k + (e - k))%nat with (reads w + e)%nat by lia.
      destruct Hstop as [Heof|[_ Hover]].
      * rewrite record_loop_eof by exact Heof.
        unfold after_read. simpl. f_equal. f_equal. lia.
      * rewrite record_loop_full by assumption.
        unfold after_read. simpl. f_equal. f_equal. lia.
  - destruct Hstop as [Heof|[Hke _]]; [|lia].
    replace fuel with (e + (fuel - e))%nat by lia.
    rewrite record_loop_passes_over;
      [|intros x Hx; apply Hoff; lia | exact Hne].
    destruct (fuel - e)%nat as [|fuel'] eqn:Ef; [lia|].
    rewrite record_loop_eof by exact Heof.
    replace (e - k)%nat with 0%nat by lia. simpl.
    unfold after_read. simpl. f_equal. f_equal. lia.
Qed.

(** With no duration in force and no end of the stream, the loop goes on
    in any state. *)
Lemma record_loop_goes_on (fuel : nat) :
  truthy duration = false ->
  forall (e ot : Q) (r : bool) (frames : list byte) (w : world),
    (forall n, (reads w <= n)%nat -> stream source n <> []) ->
    loop_ fuel e ot r frames w = OutOfFuel.
Proof.
  intros Hd. induction fuel as [|fuel IH]; intros e ot r frames w Hne;
    [reflexivity|].
  pose proof (Hne (reads w) ltac:(lia)) as Hb.
  assert (Hnext : forall n, (reads (after_read w) <= n)%nat ->
                            stream source n <> []).
  { intros n Hn. apply Hne. simpl in Hn. lia. }
  cbn [record_loop]. rewrite Hd. cbn [andb].
  destruct (stream source (reads w)) as [|b0 bs]; [contradiction|].
  simpl length. simpl Nat.eqb. cbv iota.
  destruct (_ || _); apply IH, Hnext.
Qed.
End Recording.

Lemma over_within (source : AudioSource) (d : Q) (n : nat) :
  ~ (d == 0)%Q ->
  buffers_within source d n ->
  (forall x, (1 <= x <= n)%nat -> over source (Some d) x = false)
  /\ over source (Some d) (S n) = true.
Proof.
  intros Hd [Hle Hgt]. apply truthy_Some in Hd. unfold over. rewrite Hd.
  split.
  - intros x Hx. simpl. apply Qgtb_false, Hle, Hx.
  - simpl. apply Qgtb_true, Hgt.
Qed.

(** C3, as the code has it.  With a [duration] that is neither [None] nor
    zero, on a stream with enough buffers, [record] passes over the [k]
    buffers within [offset] by its offset clock, appends the [n] buffers
    within [duration] by its capture clock, reads one more buffer and
    returns.  A clock is a float that starts at 0 and is increased by
    [seconds_per_buffer] in each iteration; the buffer whose iteration
    takes the capture clock above [duration] is read and not written, so
    that the capture stops short of [duration] by the clock. *)
Theorem record_rounds_down
    (source : AudioSource) (d : Q) (offset : option Q) (k n fuel : nat)
    (w : world) :
  ~ (d == 0)%Q ->
  skipped source offset k ->
  buffers_within source d n ->
  (forall i, (i < k + n)%nat -> stream source (reads w + i) <> []) ->
  (k + n < fuel)%nat ->
  let audio :=
    {| frame_data :=
         concat (map (stream source) (seq (reads w + k) n));
       sample_rate := SAMPLE_RATE source;
       sample_width := SAMPLE_WIDTH source |} in
  record source (Some d) offset fuel w
  = Return audio {| reads := reads w + k + n + 1; self := self w |}
  /\ ((1 <= n)%nat -> (buffers_time source n <= d)%Q)
  /\ (d < buffers_time source (S n))%Q
  /\ ((forall i, (i < k + n)%nat ->
                 Z.of_nat (length (stream source (reads w + i)))
                 = chunk_bytes source) ->
      (audio_seconds audio == buffers_seconds source n)%Q).
Proof.
  intros Hd Hskip Hwithin Hne Hfuel audio.
  destruct (over_within source d n Hd Hwithin) as [Hcap Hover].
  split; [|split; [|split]].
  - unfold record.
    rewrite (record_loop_until source (Some d) offset k (k + n) fuel w);
      try assumption.
    + replace (k + n - k)%nat with n by lia.
      unfold audio. f_equal. f_equal. lia.
    + intros x Hx. apply Hcap. lia.
    + right. split; [lia|]. replace (k + n - k)%nat with n by lia.
      exact Hover.
  - intros Hn. destruct Hwithin as [Hle _]. apply Hle. lia.
  - destruct Hwithin as [_ Hgt]. exact Hgt.
  - intros Hwhole. unfold audio_seconds, audio, buffers_seconds.
    cbn [frame_data sample_rate sample_width].
    rewrite concat_stream_length.
    + unfold chunk_bytes, Qeq, Qmult, inject_Z. simpl Qnum. simpl Qden. nia.
    + intros i Hi. rewrite <- Nat.add_assoc. apply Hwhole. lia.
Qed.

(** A tenth of a second asked after an offset of a tenth of a second: one
    buffer is passed over and one is returned. *)
Lemma record_rounds_down_witness :
  let source := source_of clean_phrase in
  let w := fresh Recognizer_init in
  let audio :=
    {| frame_data :=
         concat (map (stream source) (seq (reads w + 1) 1));
       sample_rate := SAMPLE_RATE source;
       sample_width := SAMPLE_WIDTH source |} in
  record source (Some tenth) (Some tenth) 40 w
  = Return audio {| reads := reads w + 1 + 1 + 1; self := self w |}
  /\ ((1 <= 1)%nat -> (buffers_time source 1 <= tenth)%Q)
  /\ (tenth < buffers_time source 2)%Q
  /\ ((forall i, (i < 1 + 1)%nat ->
                 Z.of_nat (length (stream source (reads w + i)))
                 = chunk_bytes source) ->
      (audio_seconds audio == buffers_seconds source 1)%Q).
Proof.
  assert (Hw : buffers_within (source_of clean_phrase) tenth 1)
    by (apply (buffers_within_count_sound _ _ 5); vm_compute; reflexivity).
  apply (record_rounds_down (source_of clean_phrase) tenth (Some tenth)
           1 1 40 (fresh Recognizer_init)).
  - intros H. vm_compute in H. discriminate H.
  - exact Hw.
  - exact Hw.
  - intros i Hi. destruct i as [|[|i]]; [discriminate | discriminate | lia].
  - lia.
Defined.

(** C3 as stated fails: a tenth of a second is asked of a stream of more
    than two seconds; one buffer of 1024 samples, 0.064 s, comes back. *)
Lemma record_returns_less_than_duration :
  is_return (record (source_of clean_phrase) (Some tenth) None 40
               (fresh Recognizer_init)) = true
  /\ Z.of_nat (length (frame_data
       (returned no_audio
          (record (source_of clean_phrase) (Some tenth) None 40
             (fresh Recognizer_init))))) = 2048
  /\ (audio_seconds
        (returned no_audio
           (record (source_of clean_phrase) (Some tenth) None 40
              (fresh Recognizer_init))) < tenth)%Q
  /\ (forall k : Z,
        ~ (tenth == inject_Z k * seconds_per_buffer (source_of clean_phrase))%Q)
  /\ (forall n, (n < 35)%nat ->
        Z.of_nat (length (stream (source_of clean_phrase) n))
        = chunk_bytes (source_of clean_phrase)).
Proof.
  split; [vm_compute; reflexivity|].
  split; [vm_compute; reflexivity|].
  split; [vm_compute; reflexivity|].
  split.
  - intros k H.
    assert (E1 : (tenth == 3602879701896397 # 36028797018963968)%Q)
      by (vm_compute; reflexivity).
    assert (E2 : (seconds_per_buffer (source_of clean_phrase)
                  == 1152921504606847 # 18014398509481984)%Q)
      by (vm_compute; reflexivity).
    rewrite E1, E2 in H. unfold Qeq in H. simpl in H. lia.
  - apply clean_source_whole.
Qed.

(** The capture follows the float clock, not the quotient
    [duration / seconds_per_buffer]: ten additions of 0.064 give
    0.6400000000000001, so that [record] with a duration of 0.64 returns
    nine buffers, after ten reads, where the quotient is 10. *)
Lemma record_follows_the_float_clock :
  buffers_within (source_of clean_phrase) sixty_four_hundredths 9
  /\ Qfloor (sixty_four_hundredths
             / seconds_per_buffer (source_of clean_phrase)) = 10
  /\ is_return (record (source_of clean_phrase) (Some sixty_four_hundredths)
                  None 40 (fresh Recognizer_init)) = true
  /\ Z.of_nat (length (frame_data
       (returned no_audio
          (record (source_of clean_phrase) (Some sixty_four_hundredths) None
             40 (fresh Recognizer_init))))) = 9 * 2048
  /\ reads (final_world (fresh Recognizer_init)
              (record (source_of clean_phrase) (Some sixty_four_hundredths)
                 None 40 (fresh Recognizer_init))) = 10%nat.
Proof.
  split; [apply (buffers_within_count_sound _ _ 20); vm_compute; reflexivity|].
  split; [vm_compute; reflexivity|].
  split; [vm_compute; reflexivity|].
  split; vm_compute; reflexivity.
Qed.

(** ** The timeout of [listen] *)

(** C4.  [listen] raises [WaitTimeoutError] exactly when the timeout is set
    (neither [None] nor zero) and the call arrives at the head of an
    iteration of phase A at which the clock exceeds it; the exception is
    raised there, before that iteration reads.  The clock is one float for
    the whole call: it starts at 0 and every iteration, of either phase and
    across restarts, adds [seconds_per_buffer] to it, so that after [k]
    buffers read it stands at [buffers_time source k] and the test at the
    next loop head is on [buffers_time source (S k)]. *)
Theorem listen_wait_timeout
    (rms : buffer -> positive -> Z) (float_pow : Q -> Q -> Q)
    (source : AudioSource) (timeout : option Q) (w : world) :
  ((exists fuel w',
       listen rms float_pow source timeout fuel w = Raise WaitTimeoutError w')
   <-> thresholds_ok (self w) = true
       /\ exists t k e fr wk,
            timeout = Some t /\ ~ (t == 0)%Q
            /\ listen_trace rms float_pow source timeout k w
               = Continue (PhaseA e fr) wk
            /\ (t < buffers_time source (S k))%Q)
  /\ (forall k s wk,
        listen_trace rms float_pow source timeout k w = Continue s wk ->
        (state_elapsed s == buffers_time source k)%Q
        /\ reads wk = (reads w + k)%nat)
  /\ (forall fuel w',
        listen rms float_pow source timeout fuel w = Raise WaitTimeoutError w' ->
        exists k e fr,
          (k < fuel)%nat
          /\ listen_trace rms float_pow source timeout k w
             = Continue (PhaseA e fr) w'
          /\ reads w' = (reads w + k)%nat).
Proof.
  assert (Hclock : forall k s wk,
             listen_trace rms float_pow source timeout k w = Continue s wk ->
             state_elapsed s = buffers_time source k
             /\ reads wk = (reads w + k)%nat).
  { intros k s wk Htr. unfold listen_trace in Htr.
    apply listen_run_clock in Htr. exact Htr. }
  split; [|split].
  - split.
    + intros (fuel & w' & Hcall).
      split; [apply (listen_raise_inv _ _ _ _ _ _ _ Hcall)|].
      destruct (listen_timeout_position _ _ _ _ _ _ _ Hcall)
        as (k & e & fr & Hk & Htr & Hstep).
      apply listen_step_timeout in Hstep. destruct Hstep as (t & Ht & Ht0 & Hlt).
      exists t, k, e, fr, w'. repeat split; try assumption.
      destruct (Hclock _ _ _ Htr) as [He _]. simpl in He.
      rewrite buffers_time_S, <- He. exact Hlt.
    + intros (Hok & t & k & e & fr & wk & Ht & Ht0 & Htr & Hlt).
      exists (S k), wk. rewrite listen_unfold, Hok. simpl negb. cbv iota.
      unfold listen_phrase. rewrite listen_loop_run, listen_run_S.
      unfold listen_trace in Htr. rewrite Htr.
      destruct (Hclock _ _ _ Htr) as [He _]. simpl in He.
      assert (Hstep : listen_step rms float_pow source timeout
                        (pause_buffers source (self w))
                        (phrase_buffers source (self w))
                        (non_speaking_buffers source (self w))
                        (PhaseA e fr) wk = Done (Raise WaitTimeoutError wk)).
      { apply listen_step_timeout. exists t. repeat split; try assumption.
        rewrite He, <- buffers_time_S. exact Hlt. }
      rewrite Hstep. reflexivity.
  - intros k s wk Htr. destruct (Hclock k s wk Htr) as [He Hr].
    rewrite He. split; [reflexivity | exact Hr].
  - intros fuel w' Hcall.
    destruct (listen_timeout_position _ _ _ _ _ _ _ Hcall)
      as (k & e & fr & Hk & Htr & _).
    exists k, e, fr. split; [exact Hk|]. split; [exact Htr|].
    apply (Hclock _ _ _ Htr).
Qed.

(** A timeout of 0.64 on silence: the clock, ten times 0.064 added up as
    floats, exceeds it at the head of the tenth iteration. *)
Lemma listen_wait_timeout_witness :
  exists fuel w',
    listen audioop_rms pow_int (source_of ten_seconds_of_silence)
      (Some sixty_four_hundredths) fuel (fresh Recognizer_init)
    = Raise WaitTimeoutError w'.
Proof.
  destruct (listen_wait_timeout audioop_rms pow_int
              (source_of ten_seconds_of_silence) (Some sixty_four_hundredths)
              (fresh Recognizer_init)) as [[_ H] _].
  apply H. split; [reflexivity|].
  exists sixty_four_hundredths, 9%nat. do 3 eexists.
  split; [reflexivity|]. split; [intros H0; vm_compute in H0; discriminate H0|].
  split; [vm_compute; reflexivity|]. vm_compute. reflexivity.
Defined.

(** Beside C4: the test is on the float clock, not on the quotient
    [timeout / seconds_per_buffer].  With a timeout of 0.64 the call on
    silence has read nine buffers when it raises, and ten fit in the
    quotient; with the background listener's timeout of one second it has
    read fifteen. *)
Lemma listen_times_out_by_the_float_clock :
  listen audioop_rms pow_int (source_of ten_seconds_of_silence)
    (Some sixty_four_hundredths) 40 (fresh Recognizer_init)
  = Raise WaitTimeoutError {| reads := 9; self := Recognizer_init |}
  /\ Qfloor (sixty_four_hundredths
             / seconds_per_buffer (source_of ten_seconds_of_silence)) = 10
  /\ listen audioop_rms pow_int (source_of ten_seconds_of_silence)
       (Some 1%Q) 40 (fresh Recognizer_init)
     = Raise WaitTimeoutError {| reads := 15; self := Recognizer_init |}.
Proof.
  split; [vm_compute; reflexivity|].
  split; vm_compute; reflexivity.
Qed.

(** ** The emission test *)

Section EmissionTest.
Variable rms : buffer -> positive -> Z.
Variable float_pow : Q -> Q -> Q.
Variable source : AudioSource.
Variable timeout : option Q.
Variables pbc phbc nsbc : Z.

Local Abbreviation step_ :=
  (listen_step rms float_pow source timeout pbc phbc nsbc).

(** An iteration of the capture loop that leaves it goes to the test of
    lines 231-232; one that does not is back at the head of the capture
    loop. *)
Lemma listen_step_capture (e : Q) (fr : list buffer) (pa ph : Z)
    (w : world) (fr' : list buffer) (pa' ph' : Z) (ended : bool) :
  capture_iteration rms source pbc fr pa ph w = (fr', pa', ph', ended) ->
  step_ (PhaseB e fr pa ph) w
  = if ended
    then phrase_end phbc (float_add e (seconds_per_buffer source)) fr' pa' ph'
           (after_read w)
    else Continue (PhaseB (float_add e (seconds_per_buffer source)) fr' pa' ph')
           (after_read w).
Proof.
  unfold capture_iteration. cbn [listen_step].
  destruct (stream source (reads w)) as [|b0 bs]; simpl length;
    simpl Nat.eqb; cbv iota; intros Hcap.
  - inversion Hcap; subst. reflexivity.
  - change (self (after_read w)) with (self w).
    inversion Hcap as [[Hfr Hpa Hph Hend]]. reflexivity.
Qed.

(** Every iteration of the capture loop is one or the other. *)
Lemma capture_iteration_total (fr : list buffer) (pa ph : Z) (w : world) :
  exists fr' pa' ph' ended,
    capture_iteration rms source pbc fr pa ph w = (fr', pa', ph', ended).
Proof.
  destruct (capture_iteration rms source pbc fr pa ph w) as [[[fr' pa'] ph'] b].
  eauto.
Qed.

(** Phase A hands nothing over, and enters the capture loop with both
    counters at 0. *)
Lemma listen_step_await (e : Q) (fr : list buffer) (w : world) :
  (forall p w', step_ (PhaseA e fr) w <> Done (Return p w'))
  /\ (forall e' fr' pa' ph' w',
        step_ (PhaseA e fr) w = Continue (PhaseB e' fr' pa' ph') w' ->
        pa' = 0 /\ ph' = 0).
Proof.
  split.
  - intros p w' Hstep. simpl in Hstep.
    destruct (truthy timeout && _); [discriminate|].
    destruct (stream source (reads w)) as [|b0 bs]; simpl in Hstep;
      [discriminate|].
    destruct (Qgtb _ _); discriminate.
  - intros e' fr' pa' ph' w' Hstep. simpl in Hstep.
    destruct (truthy timeout && _); [discriminate|].
    destruct (stream source (reads w)) as [|b0 bs]; simpl in Hstep.
    + inversion Hstep; subst. split; reflexivity.
    + destruct (Qgtb _ _); inversion Hstep; subst. split; reflexivity.
Qed.
End EmissionTest.

(** C5.  In a call of [listen], whenever an iteration of the capture loop
    ends phase B, with ring [fr'] and counters [pa'], [ph'], the call hands
    over that ring, and returns, exactly when
    [ph' - pa' >= phrase_buffer_count], the count that the call computed
    from [phrase_threshold]; otherwise the call is back at the head of
    phase A with an empty ring.  A call returns from nowhere else, and
    every entry into phase B is with both counters at 0. *)
Theorem listen_emission_test
    (rms : buffer -> positive -> Z) (float_pow : Q -> Q -> Q)
    (source : AudioSource) (timeout : option Q) (w : world) :
  thresholds_ok (self w) = true ->
  let pbc := pause_buffers source (self w) in
  let phbc := phrase_buffers source (self w) in
  (forall k e fr pa ph wk fr' pa' ph',
      listen_trace rms float_pow source timeout k w
      = Continue (PhaseB e fr pa ph) wk ->
      capture_iteration rms source pbc fr pa ph wk = (fr', pa', ph', true) ->
      (phbc <= ph' - pa' <->
       listen_phrase rms float_pow source timeout (S k) w
       = Return {| ring := fr';
                   final_pause_count := pa';
                   final_phrase_count := ph' - pa' |} (after_read wk))
      /\ (phbc <= ph' - pa' <->
          exists audio,
            listen rms float_pow source timeout (S k) w
            = Return audio (after_read wk))
      /\ (ph' - pa' < phbc <->
          listen_trace rms float_pow source timeout (S k) w
          = Continue (PhaseA (float_add e (seconds_per_buffer source)) [])
              (after_read wk)))
  /\ (forall fuel audio w',
        listen rms float_pow source timeout fuel w = Return audio w' ->
        exists k e fr pa ph wk fr' pa' ph',
          (k < fuel)%nat
          /\ listen_trace rms float_pow source timeout k w
             = Continue (PhaseB e fr pa ph) wk
          /\ capture_iteration rms source pbc fr pa ph wk
             = (fr', pa', ph', true)
          /\ phbc <= ph' - pa'
          /\ w' = after_read wk
          /\ listen_phrase rms float_pow source timeout fuel w
             = Return {| ring := fr';
                         final_pause_count := pa';
                         final_phrase_count := ph' - pa' |} w')
  /\ (forall k e fr wk e' fr' pa' ph' wk',
        listen_trace rms float_pow source timeout k w
        = Continue (PhaseA e fr) wk ->
        listen_trace rms float_pow source timeout (S k) w
        = Continue (PhaseB e' fr' pa' ph') wk' ->
        pa' = 0 /\ ph' = 0).
Proof.
  intros Hok pbc phbc.
  set (nsbc := non_speaking_buffers source (self w)).
  assert (Hnext : forall k s wk,
             listen_trace rms float_pow source timeout k w = Continue s wk ->
             listen_trace rms float_pow source timeout (S k) w
             = listen_step rms float_pow source timeout pbc phbc nsbc s wk).
  { intros k s wk Htr. unfold listen_trace in *.
    rewrite listen_run_S, Htr. reflexivity. }
  assert (Hphrase : forall fuel,
             listen_phrase rms float_pow source timeout fuel w
             = match listen_trace rms float_pow source timeout fuel w with
               | Continue _ _ => OutOfFuel
               | Done o => o
               end).
  { intros fuel. unfold listen_phrase, listen_trace. apply listen_loop_run. }
  assert (Hret : forall fuel p w',
             listen_phrase rms float_pow source timeout fuel w = Return p w' ->
             exists audio,
               listen rms float_pow source timeout fuel w = Return audio w').
  { intros fuel p w' Hp. rewrite listen_unfold, Hok, Hp. simpl negb. cbv iota.
    destruct (listen_phrase_post _ _ _ _ _ _ _ _ Hok Hp) as [Hpost _].
    rewrite (obtain_frame_data_ok _ _ _ _ _ _ _ Hpost). eauto. }
  split; [|split].
  - intros k e fr pa ph wk fr' pa' ph' Htr Hcap.
    pose proof (Hnext _ _ _ Htr) as Hs.
    rewrite (listen_step_capture _ _ _ _ _ _ _ _ _ _ _ _ _ _ _ _ Hcap) in Hs.
    unfold phrase_end in Hs.
    destruct (Z.geb_spec (ph' - pa') phbc) as [Hge|Hlt].
    + assert (Hp : listen_phrase rms float_pow source timeout (S k) w
                   = Return {| ring := fr';
                               final_pause_count := pa';
                               final_phrase_count := ph' - pa' |}
                       (after_read wk))
        by (rewrite Hphrase, Hs; reflexivity).
      split; [|split].
      * split; [intros _; exact Hp | intros _; lia].
      * split; [intros _; apply (Hret _ _ _ Hp) | intros _; lia].
      * split; [intros H; lia|]. intros H. rewrite Hs in H. discriminate H.
    + assert (Hp : listen_phrase rms float_pow source timeout (S k) w
                   = OutOfFuel)
        by (rewrite Hphrase, Hs; reflexivity).
      split; [|split].
      * split; [intros H; lia|]. intros H. rewrite Hp in H. discriminate H.
      * split; [intros H; lia|]. intros [audio H].
        rewrite listen_unfold, Hok, Hp in H. discriminate H.
      * split; [intros _; exact Hs | intros _; exact Hlt].
  - intros fuel audio w' Hcall.
    destruct (listen_return_inv _ _ _ _ _ _ _ _ Hcall) as (p & _ & Hp & _).
    pose proof Hp as Hp'. rewrite Hphrase in Hp'.
    destruct (listen_trace rms float_pow source timeout fuel w)
      as [s1 w1|o] eqn:Erun; [discriminate|]. subst o.
    unfold listen_trace in Erun. apply listen_run_done in Erun.
    destruct Erun as (k & sk & wk & Hk & Hc & Hd).
    destruct sk as [e fr | e fr pa ph].
    + exfalso.
      apply (proj1 (listen_step_await rms float_pow source timeout
                      _ _ _ e fr wk) p w' Hd).
    + destruct (capture_iteration_total rms source pbc fr pa ph wk)
        as (fr' & pa' & ph' & ended & Hcap).
      rewrite (listen_step_capture _ _ _ _ _ _ _ _ _ _ _ _ _ _ _ _ Hcap) in Hd.
      destruct ended; [|discriminate].
      unfold phrase_end in Hd.
      destruct (Z.geb_spec (ph' - pa') (phrase_buffers source (self w)))
        as [Hge|Hlt]; [|discriminate].
      inversion Hd; subst p w'.
      exists k, e, fr, pa, ph, wk, fr', pa', ph'.
      split; [exact Hk|]. split; [exact Hc|]. split; [exact Hcap|].
      split; [exact Hge|]. split; [reflexivity | exact Hp].
  - intros k e fr wk e' fr' pa' ph' wk' Htr Htr'.
    rewrite (Hnext _ _ _ Htr) in Htr'.
    apply (proj2 (listen_step_await rms float_pow source timeout
                    _ _ _ e fr wk) _ _ _ _ _ Htr').
Qed.

(** The clean phrase: the ninth buffer of silence after eighteen of speech
    ends phase B at the thirty-second iteration, and the call returns. *)
Lemma listen_emission_test_witness :
  exists k e fr pa ph wk fr' pa' ph',
    (k < 40)%nat
    /\ listen_trace audioop_rms pow_int (source_of clean_phrase) None k
         (fresh Recognizer_init)
       = Continue (PhaseB e fr pa ph) wk
    /\ capture_iteration audioop_rms (source_of clean_phrase)
         (pause_buffers (source_of clean_phrase)
            (self (fresh Recognizer_init))) fr pa ph wk
       = (fr', pa', ph', true)
    /\ phrase_buffers (source_of clean_phrase) (self (fresh Recognizer_init))
       <= ph' - pa'
    /\ final_world (fresh Recognizer_init) clean_call = after_read wk
    /\ listen_phrase audioop_rms pow_int (source_of clean_phrase) None 40
         (fresh Recognizer_init)
       = Return {| ring := fr';
                   final_pause_count := pa';
                   final_phrase_count := ph' - pa' |}
           (final_world (fresh Recognizer_init) clean_call).
Proof.
  destruct (listen_emission_test audioop_rms pow_int (source_of clean_phrase)
              None (fresh Recognizer_init) eq_refl) as (_ & H & _).
  apply (H 40%nat (returned no_audio clean_call)).
  apply (return_eta no_audio (fresh Recognizer_init) clean_call).
  vm_compute. reflexivity.
Defined.

(** Beside C5: the click of three buffers ends phase B with
    [ph' - pa' = 2 < 8]; the call does not return there, and is back in
    phase A with an empty ring. *)
Lemma listen_discards_a_click :
  exists e fr pa ph wk e',
    listen_trace audioop_rms pow_int (source_of blip) None 13
      (fresh Recognizer_init) = Continue (PhaseB e fr pa ph) wk
    /\ capture_iteration audioop_rms (source_of blip)
         (pause_buffers (source_of blip) Recognizer_init) fr pa ph wk
       = (fr ++ [silent], 9, 11, true)
    /\ phrase_buffers (source_of blip) Recognizer_init = 8
    /\ listen_trace audioop_rms pow_int (source_of blip) None 14
         (fresh Recognizer_init) = Continue (PhaseA e' []) (after_read wk)
    /\ listen audioop_rms pow_int (source_of blip) None 14
         (fresh Recognizer_init) = OutOfFuel.
Proof.
  do 6 eexists.
  split; [vm_compute; reflexivity|].
  split; [vm_compute; reflexivity|].
  split; [vm_compute; reflexivity|].
  split; vm_compute; reflexivity.
Qed.

(** ** Trimming *)

(** C6.  When [listen] returns, its audio is the ring of the outer loop
    without its last [max(0, pause_count - non_speaking_buffer_count)]
    buffers, the rest joined in the order the buffers were read; nothing is
    removed when [pause_count <= non_speaking_buffer_count], and the
    [pause_count] trailing buffers, which are all at or below the energy
    threshold, are all removed when [non_speaking_buffer_count = 0]. *)
Theorem listen_trims_trailing_buffers
    (rms : buffer -> positive -> Z) (float_pow : Q -> Q -> Q)
    (source : AudioSource) (timeout : option Q) (fuel : nat)
    (w w' : world) (audio : AudioData) :
  listen rms float_pow source timeout fuel w = Return audio w' ->
  exists p,
    listen_phrase rms float_pow source timeout fuel w = Return p w'
    /\ arrival_ordered source (ring p) (reads w) (reads w')
    /\ trailing_silence rms source (ring p) (final_pause_count p) w'
    /\ 0 <= Z.max 0 (final_pause_count p - non_speaking_buffers source (self w))
         <= Z.of_nat (length (ring p))
    /\ frame_data audio
       = concat (firstn (length (ring p)
                         - Z.to_nat (Z.max 0 (final_pause_count p
                              - non_speaking_buffers source (self w))))
                        (ring p))
    /\ (final_pause_count p <= non_speaking_buffers source (self w) ->
        frame_data audio = concat (ring p))
    /\ (non_speaking_buffers source (self w) = 0 ->
        frame_data audio
        = concat (firstn (length (ring p) - Z.to_nat (final_pause_count p))
                         (ring p))).
Proof.
  intros Hcall.
  destruct (listen_return_inv _ _ _ _ _ _ _ _ Hcall) as (p & Hok & Hloop & Hob).
  destruct (listen_phrase_post _ _ _ _ _ _ _ _ Hok Hloop) as [Hpost Hord].
  rewrite (obtain_frame_data_ok _ _ _ _ _ _ _ Hpost) in Hob.
  inversion Hob as [Haudio]; clear Hob.
  destruct (counts_ordered source (self w) Hok) as [Hns0 Hnsp].
  assert (Hsil : trailing_silence rms source (ring p) (final_pause_count p) w').
  { unfold listen_phrase in Hloop.
    eapply listen_loop_post_silence; [exact Hns0 | exact Hnsp | | | exact Hloop].
    - simpl. exact Hns0.
    - exact I. }
  destruct Hpost as (Hpa & Hph & Hph0 & Hpre & Hend). unfold pre_roll in Hpre.
  exists p. simpl.
  split; [exact Hloop|]. split; [exact Hord|]. split; [exact Hsil|].
  split; [lia|]. split; [|split].
  - replace (Z.to_nat (Z.max 0 _))
      with (Z.to_nat (final_pause_count p
                      - non_speaking_buffers source (self w))) by lia.
    reflexivity.
  - intros Hle. replace (Z.to_nat _) with 0%nat by lia.
    rewrite Nat.sub_0_r, firstn_all. reflexivity.
  - intros H0. rewrite H0, Z.sub_0_r. reflexivity.
Qed.

(** The clean phrase: nine trailing buffers of silence, five removed. *)
Lemma listen_trims_trailing_buffers_witness :
  exists p,
    listen_phrase audioop_rms pow_int (source_of clean_phrase) None 40
      (fresh Recognizer_init)
    = Return p (final_world (fresh Recognizer_init) clean_call)
    /\ arrival_ordered (source_of clean_phrase) (ring p)
         (reads (fresh Recognizer_init))
         (reads (final_world (fresh Recognizer_init) clean_call))
    /\ trailing_silence audioop_rms (source_of clean_phrase) (ring p)
         (final_pause_count p) (final_world (fresh Recognizer_init) clean_call)
    /\ 0 <= Z.max 0 (final_pause_count p
                     - non_speaking_buffers (source_of clean_phrase)
                         (self (fresh Recognizer_init)))
         <= Z.of_nat (length (ring p))
    /\ frame_data (returned no_audio clean_call)
       = concat (firstn (length (ring p)
                         - Z.to_nat (Z.max 0 (final_pause_count p
                              - non_speaking_buffers (source_of clean_phrase)
                                  (self (fresh Recognizer_init)))))
                        (ring p))
    /\ (final_pause_count p
        <= non_speaking_buffers (source_of clean_phrase)
             (self (fresh Recognizer_init)) ->
        frame_data (returned no_audio clean_call) = concat (ring p))
    /\ (non_speaking_buffers (source_of clean_phrase)
          (self (fresh Recognizer_init)) = 0 ->
        frame_data (returned no_audio clean_call)
        = concat (firstn (length (ring p) - Z.to_nat (final_pause_count p))
                         (ring p))).
Proof.
  apply (listen_trims_trailing_buffers audioop_rms pow_int
           (source_of clean_phrase) None 40 (fresh Recognizer_init)
           (final_world (fresh Recognizer_init) clean_call)
           (returned no_audio clean_call)).
  apply (return_eta no_audio (fresh Recognizer_init) clean_call).
  vm_compute. reflexivity.
Defined.

(** ** [adjust_for_ambient_noise] *)

Section Calibration.
Variable rms : buffer -> positive -> Z.
Variable float_pow : Q -> Q -> Q.
Variable source : AudioSource.

Local Abbreviation spb := (seconds_per_buffer source).
Local Abbreviation calibrate_ := (calibrate rms float_pow source).

Lemma adjust_loop_calibrates (duration : Q) (m : nat) :
  forall (j fuel : nat) (w : world),
    (forall x, (1 <= x <= m)%nat ->
               (buffers_time source (j + x) <= duration)%Q) ->
    (duration < buffers_time source (S (j + m)))%Q ->
    (m < fuel)%nat ->
    adjust_loop rms float_pow source duration fuel (buffers_time source j) w
    = Return tt (calibrate_ m w).
Proof.
  induction m as [|m IH]; intros j fuel w Hle Hgt Hfuel;
    (destruct fuel as [|fuel]; [lia|]); cbn [adjust_loop];
    rewrite <- buffers_time_S.
  - rewrite Nat.add_0_r in Hgt. apply Qgtb_true in Hgt. rewrite Hgt.
    reflexivity.
  - pose proof (Hle 1%nat ltac:(lia)) as H1.
    replace (j + 1)%nat with (S j) in H1 by lia.
    apply Qgtb_false in H1. rewrite H1.
    apply (IH (S j)); [| |lia].
    + intros x Hx. replace (S j + x)%nat with (j + S x)%nat by lia.
      apply Hle. lia.
    + replace (S j + m)%nat with (j + S m)%nat by lia. exact Hgt.
Qed.

Lemma adjust_for_ambient_noise_returns (duration : Q) (n fuel : nat)
    (w : world) :
  thresholds_ok (self w) = true ->
  buffers_within source duration n ->
  (n < fuel)%nat ->
  adjust_for_ambient_noise rms float_pow source duration fuel w
  = Return tt (calibrate_ n w).
Proof.
  intros Hok [Hle Hgt] Hfuel. unfold adjust_for_ambient_noise.
  rewrite Hok. simpl negb. cbv iota.
  apply (adjust_loop_calibrates duration n 0 fuel w);
    [exact Hle | exact Hgt | exact Hfuel].
Qed.



(** What the updates leave alone, and where the reading stands. *)
Lemma calibrate_static (n : nat) (w : world) :
  reads (calibrate_ n w) = (reads w + n)%nat
  /\ dynamic_energy_adjustment_damping (self (calibrate_ n w))
     = dynamic_energy_adjustment_damping (self w)
  /\ dynamic_energy_ratio (self (calibrate_ n w))
     = dynamic_energy_ratio (self w).
Proof.
  revert w. induction n as [|n IH]; intros w; simpl.
  - repeat split. lia.
  - destruct (IH (adjust_threshold float_pow spb
                    (rms (stream source (reads w)) (SAMPLE_WIDTH source))
                    (after_read w))) as (Hr & Hd & Hq).
    rewrite Hr, Hd, Hq. simpl. repeat split. lia.
Qed.

End Calibration.




(** ** [listen] leaves a static threshold alone *)

(** C8.  With [dynamic_energy_threshold] false, [listen] leaves the
    recogniser, and so [energy_threshold], as it found it, however the call
    ends and at every loop head on the way; and in any call the only
    iteration that changes the recogniser is one of phase A, with the flag
    true, on a buffer that is not empty and does not exceed the threshold,
    where the change is the weighted-average assignment. *)
Theorem listen_static_threshold
    (rms : buffer -> positive -> Z) (float_pow : Q -> Q -> Q)
    (source : AudioSource) (timeout : option Q) :
  (forall fuel w,
      dynamic_energy_threshold (self w) = false ->
      match listen rms float_pow source timeout fuel w with
      | Return _ w' =>
          energy_threshold (self w') = energy_threshold (self w)
          /\ self w' = self w
      | Raise _ w' =>
          energy_threshold (self w') = energy_threshold (self w)
          /\ self w' = self w
      | OutOfFuel => True
      end)
  /\ (forall k w s wk,
      dynamic_energy_threshold (self w) = false ->
      listen_trace rms float_pow source timeout k w = Continue s wk ->
      energy_threshold (self wk) = energy_threshold (self w))
  /\ (forall pbc phbc nsbc s w s' w',
      listen_step rms float_pow source timeout pbc phbc nsbc s w
      = Continue s' w' ->
      self w' <> self w ->
      exists e fr,
        s = PhaseA e fr
        /\ dynamic_energy_threshold (self w) = true
        /\ stream source (reads w) <> []
        /\ Qgtb (inject_Z (rms (stream source (reads w)) (SAMPLE_WIDTH source)))
             (energy_threshold (self w)) = false
        /\ w' = adjust_threshold float_pow (seconds_per_buffer source)
                  (rms (stream source (reads w)) (SAMPLE_WIDTH source))
                  (after_read w))
  /\ (forall pbc phbc nsbc s w o,
      listen_step rms float_pow source timeout pbc phbc nsbc s w = Done o ->
      match o with
      | Return _ w' => self w' = self w
      | Raise _ w' => w' = w
      | OutOfFuel => False
      end).
Proof.
  split; [|split; [|split]].
  - intros fuel w Hdyn. rewrite listen_unfold.
    destruct (thresholds_ok (self w)); simpl; [|split; reflexivity].
    pose proof (listen_loop_static rms float_pow source timeout
                  (pause_buffers source (self w))
                  (phrase_buffers source (self w))
                  (non_speaking_buffers source (self w))
                  fuel (PhaseA 0 []) w Hdyn) as H.
    unfold listen_phrase.
    destruct (listen_loop _ _ _ _ _ _ _ fuel _ w) as [p w'|e w'|];
      [|rewrite H; split; reflexivity | exact I].
    unfold obtain_frame_data. destruct (pop_n _ _); rewrite H; split; reflexivity.
  - intros k w s wk Hdyn Htr. unfold listen_trace in Htr.
    rewrite (listen_run_static _ _ _ _ _ _ _ _ _ _ _ _ Hdyn Htr). reflexivity.
  - intros pbc phbc nsbc s w s' w' Hstep Hneq.
    destruct (listen_step_self _ _ _ _ _ _ _ _ _ _ _ Hstep) as [H|H];
      [contradiction | exact H].
  - intros pbc phbc nsbc s w o Hstep.
    apply (listen_step_done_self _ _ _ _ _ _ _ _ _ _ Hstep).
Qed.

(** The background listener's call on silence times out with the threshold
    as it was. *)
Lemma listen_static_threshold_witness :
  energy_threshold
    (self (final_world (fresh Recognizer_init)
             (listen audioop_rms pow_int (source_of ten_seconds_of_silence)
                (Some 1%Q) 40 (fresh Recognizer_init))))
  = energy_threshold (self (fresh Recognizer_init)).
Proof.
  destruct (listen_static_threshold audioop_rms pow_int
              (source_of ten_seconds_of_silence) (Some 1%Q)) as [H _].
  specialize (H 40%nat (fresh Recognizer_init) eq_refl).
  destruct (listen audioop_rms pow_int (source_of ten_seconds_of_silence)
              (Some 1%Q) 40 (fresh Recognizer_init)) as [a w'|e w'|];
    simpl; [apply H | apply H | reflexivity].
Defined.

(** ** The entry assertion *)

(** C9, as the code has it.  [listen] and [adjust_for_ambient_noise] raise
    [AssertionError] at entry, with nothing read and the recogniser
    untouched, for every recogniser that violates
    [pause_threshold >= non_speaking_duration >= 0]; when that ordering
    holds neither raises [AssertionError], whatever [phrase_threshold] is. *)
Theorem invalid_thresholds_rejected
    (rms : buffer -> positive -> Z) (float_pow : Q -> Q -> Q)
    (source : AudioSource) (w : world) :
  (~ ((non_speaking_duration (self w) <= pause_threshold (self w))%Q
      /\ (0 <= non_speaking_duration (self w))%Q) ->
   (forall timeout fuel,
       listen rms float_pow source timeout fuel w = Raise AssertionError w)
   /\ (forall duration fuel,
       adjust_for_ambient_noise rms float_pow source duration fuel w
       = Raise AssertionError w))
  /\ ((non_speaking_duration (self w) <= pause_threshold (self w))%Q
      /\ (0 <= non_speaking_duration (self w))%Q ->
      (forall timeout fuel w',
          listen rms float_pow source timeout fuel w <> Raise AssertionError w')
      /\ (forall duration fuel w',
          adjust_for_ambient_noise rms float_pow source duration fuel w
          <> Raise AssertionError w')).
Proof.
  split.
  - intros Hbad.
    assert (Hok : thresholds_ok (self w) = false).
    { destruct (thresholds_ok (self w)) eqn:E; [|reflexivity].
      apply thresholds_ok_true in E. contradiction. }
    split; intros; [rewrite listen_unfold|unfold adjust_for_ambient_noise];
      rewrite Hok; reflexivity.
  - intros Hgood. apply thresholds_ok_true in Hgood. split.
    + intros timeout fuel w' H. rewrite listen_unfold, Hgood in H. simpl in H.
      destruct (listen_phrase _ _ _ _ _ _) as [p w1|e w1|] eqn:Hloop;
        try discriminate.
      * apply obtain_frame_data_exn in H. discriminate.
      * unfold listen_phrase in Hloop. apply listen_loop_raise in Hloop.
        inversion H; subst. discriminate.
    + intros duration fuel w' H. unfold adjust_for_ambient_noise in H.
      rewrite Hgood in H. simpl in H.
      set (e0 := 0%Q) in H. clearbody e0.
      clear Hgood. revert e0 w H.
      induction fuel as [|fuel IH]; intros e0 w H; simpl in H; [discriminate|].
      destruct (Qgtb _ _); [discriminate|]. apply IH in H. exact H.
Qed.

(** A pause threshold of 0.1 s under a retained silence of 0.2 s. *)
Lemma invalid_thresholds_rejected_witness :
  (forall timeout fuel,
      listen audioop_rms pow_int (source_of clean_phrase) timeout fuel
        (fresh short_pause) = Raise AssertionError (fresh short_pause))
  /\ (forall duration fuel,
      adjust_for_ambient_noise audioop_rms pow_int (source_of clean_phrase)
        duration fuel (fresh short_pause)
      = Raise AssertionError (fresh short_pause)).
Proof.
  apply (invalid_thresholds_rejected audioop_rms pow_int
           (source_of clean_phrase) (fresh short_pause)).
  simpl. intros [H _]. revert H. unfold Qle. simpl. lia.
Defined.

(** C9 as stated fails: a negative [phrase_threshold], with the other two
    thresholds in order, is not rejected; both calls go on to read audio. *)
Lemma negative_phrase_threshold_accepted :
  (phrase_threshold negative_phrase < 0)%Q
  /\ is_return (listen audioop_rms pow_int (source_of clean_phrase) None 40
                  (fresh negative_phrase)) = true
  /\ reads (final_world (fresh negative_phrase)
              (listen audioop_rms pow_int (source_of clean_phrase) None 40
                 (fresh negative_phrase))) = 32%nat
  /\ is_return (adjust_for_ambient_noise audioop_rms pow_int
                  (source_of clean_phrase) 1 40 (fresh negative_phrase)) = true
  /\ reads (final_world (fresh negative_phrase)
              (adjust_for_ambient_noise audioop_rms pow_int
                 (source_of clean_phrase) 1 40 (fresh negative_phrase)))
     = 15%nat.
Proof.
  split; [reflexivity|].
  split; [vm_compute; reflexivity|]. split; [vm_compute; reflexivity|].
  split; vm_compute; reflexivity.
Qed.

(** ** Falsy arguments *)

Lemma listen_step_falsy_timeout (rms : buffer -> positive -> Z)
    (float_pow : Q -> Q -> Q) (source : AudioSource) (timeout : option Q)
    (pbc phbc nsbc : Z) (s : listen_state) (w : world) :
  truthy timeout = false ->
  listen_step rms float_pow source timeout pbc phbc nsbc s w
  = listen_step rms float_pow source None pbc phbc nsbc s w.
Proof.
  intros Ht. destruct s as [e fr | e fr pa ph]; simpl; [|reflexivity].
  rewrite Ht. reflexivity.
Qed.

Lemma listen_falsy_timeout (rms : buffer -> positive -> Z)
    (float_pow : Q -> Q -> Q) (source : AudioSource) (timeout : option Q)
    (fuel : nat) (w : world) :
  truthy timeout = false ->
  listen rms float_pow source timeout fuel w
  = listen rms float_pow source None fuel w.
Proof.
  intros Ht. rewrite !listen_unfold. unfold listen_phrase.
  assert (Hloop : forall pbc phbc nsbc s w0,
             listen_loop rms float_pow source timeout pbc phbc nsbc fuel s w0
             = listen_loop rms float_pow source None pbc phbc nsbc fuel s w0).
  { intros pbc phbc nsbc. induction fuel as [|fuel IH]; intros s w0; simpl;
      [reflexivity|].
    rewrite (listen_step_falsy_timeout _ _ _ _ _ _ _ _ _ Ht).
    destruct (listen_step _ _ _ None _ _ _ s w0); [apply IH | reflexivity]. }
  rewrite Hloop. reflexivity.
Qed.

Lemma record_loop_falsy_duration (source : AudioSource)
    (duration offset : option Q) (fuel : nat) (e ot : Q) (r : bool)
    (frames : list byte) (w : world) :
  truthy duration = false ->
  record_loop source duration offset fuel e ot r frames w
  = record_loop source None offset fuel e ot r frames w.
Proof.
  intros Hd. revert e ot r frames w.
  induction fuel as [|fuel IH]; intros e ot r frames w; simpl; [reflexivity|].
  rewrite Hd. simpl. rewrite !IH. reflexivity.
Qed.

Lemma record_loop_falsy_offset (source : AudioSource)
    (duration offset : option Q) (fuel : nat) (e ot : Q) (r : bool)
    (frames : list byte) (w : world) :
  truthy offset = false ->
  record_loop source duration offset fuel e ot r frames w
  = record_loop source duration None fuel e ot r frames w.
Proof.
  intros Ho. revert e ot r frames w.
  induction fuel as [|fuel IH]; intros e ot r frames w; simpl; [reflexivity|].
  rewrite Ho. simpl. rewrite !orb_true_r, !IH. reflexivity.
Qed.

(** Below the threshold for ever: with no timeout in force and a fixed
    threshold, phase A never ends. *)
Lemma listen_run_awaits (rms : buffer -> positive -> Z)
    (float_pow : Q -> Q -> Q) (source : AudioSource) (timeout : option Q)
    (pbc phbc nsbc : Z) (r : Recognizer) :
  truthy timeout = false ->
  dynamic_energy_threshold r = false ->
  (forall n, stream source n <> []
             /\ Qgtb (inject_Z (rms (stream source n) (SAMPLE_WIDTH source)))
                  (energy_threshold r) = false) ->
  forall k e fr w,
    self w = r ->
    exists e' fr' w',
      listen_run rms float_pow source timeout pbc phbc nsbc k (PhaseA e fr) w
      = Continue (PhaseA e' fr') w'.
Proof.
  intros Ht Hdyn Hquiet. induction k as [|k IH]; intros e fr w Hw.
  - simpl. eauto.
  - simpl. rewrite Ht. simpl.
    destruct (Hquiet (reads w)) as [Hne Hq].
    destruct (stream source (reads w)) as [|b0 bs] eqn:Eb; [contradiction|].
    simpl. rewrite Hw, Hq, Hdyn. apply IH. simpl. exact Hw.
Qed.

(** C10.  A timeout that is zero is no timeout: [listen] behaves with it
    exactly as with [None], and never raises [WaitTimeoutError]; on a source
    that stays at or below a fixed threshold it never comes back.  [record]
    takes a zero [duration] and a zero [offset] for [None] in the same way. *)
Theorem zero_timeout_is_no_timeout
    (rms : buffer -> positive -> Z) (float_pow : Q -> Q -> Q)
    (source : AudioSource) (z : Q) :
  (z == 0)%Q ->
  (forall fuel w,
      listen rms float_pow source (Some z) fuel w
      = listen rms float_pow source None fuel w)
  /\ (forall fuel w w',
      listen rms float_pow source (Some z) fuel w <> Raise WaitTimeoutError w')
  /\ (forall w,
      thresholds_ok (self w) = true ->
      dynamic_energy_threshold (self w) = false ->
      (forall n, stream source n <> []
                 /\ Qgtb (inject_Z (rms (stream source n) (SAMPLE_WIDTH source)))
                      (energy_threshold (self w)) = false) ->
      forall fuel, listen rms float_pow source (Some z) fuel w = OutOfFuel)
  /\ (forall offset fuel w,
      record source (Some z) offset fuel w = record source None offset fuel w)
  /\ (forall duration fuel w,
      record source duration (Some z) fuel w
      = record source duration None fuel w).
Proof.
  intros Hz. pose proof (truthy_zero z Hz) as Ht.
  split; [|split; [|split; [|split]]].
  - intros fuel w. apply listen_falsy_timeout, Ht.
  - intros fuel w w' H.
    destruct (listen_timeout_position _ _ _ _ _ _ _ H) as (k & e & fr & _ & _ & Hs).
    apply listen_step_timeout in Hs. destruct Hs as (t & Heq & Ht0 & _).
    inversion Heq; subst. contradiction.
  - intros w Hok Hdyn Hquiet fuel. rewrite listen_unfold, Hok. simpl.
    unfold listen_phrase. rewrite listen_loop_run.
    destruct (listen_run_awaits rms float_pow source (Some z)
                (pause_buffers source (self w)) (phrase_buffers source (self w))
                (non_speaking_buffers source (self w)) (self w) Ht Hdyn Hquiet
                fuel 0%Q [] w eq_refl) as (e' & fr' & w' & Hrun).
    rewrite Hrun. reflexivity.
  - intros offset fuel w. unfold record.
    rewrite (record_loop_falsy_duration source (Some z) offset fuel _ _ _ _ _ Ht).
    reflexivity.
  - intros duration fuel w. unfold record.
    rewrite (record_loop_falsy_offset source duration (Some z) fuel _ _ _ _ _ Ht).
    reflexivity.
Qed.

(** A timeout of 0 in a silent room. *)
Lemma zero_timeout_is_no_timeout_witness :
  (forall fuel w,
      listen audioop_rms pow_int quiet_source (Some 0%Q) fuel w
      = listen audioop_rms pow_int quiet_source None fuel w)
  /\ (forall fuel w w',
      listen audioop_rms pow_int quiet_source (Some 0%Q) fuel w
      <> Raise WaitTimeoutError w')
  /\ (forall fuel,
      listen audioop_rms pow_int quiet_source (Some 0%Q) fuel
        (fresh Recognizer_init) = OutOfFuel)
  /\ (forall offset fuel w,
      record quiet_source (Some 0%Q) offset fuel w
      = record quiet_source None offset fuel w)
  /\ (forall duration fuel w,
      record quiet_source duration (Some 0%Q) fuel w
      = record quiet_source duration None fuel w).
Proof.
  destruct (zero_timeout_is_no_timeout audioop_rms pow_int quiet_source 0%Q
              ltac:(reflexivity)) as (H1 & H2 & H3 & H4 & H5).
  split; [exact H1|]. split; [exact H2|]. split; [|split; assumption].
  apply (H3 (fresh Recognizer_init)); [reflexivity | reflexivity |].
  intros n. split; [discriminate | vm_compute; reflexivity].
Defined.


(** * Further properties of the code *)

(** ** [listen]: how a call ends *)

(** An outcome reached with some fuel is reached with any more. *)
Lemma listen_loop_more_fuel (rms : buffer -> positive -> Z)
    (float_pow : Q -> Q -> Q) (source : AudioSource) (timeout : option Q)
    (pbc phbc nsbc : Z) (fuel k : nat) (s : listen_state) (w : world) :
  listen_loop rms float_pow source timeout pbc phbc nsbc fuel s w <> OutOfFuel ->
  listen_loop rms float_pow source timeout pbc phbc nsbc (fuel + k) s w
  = listen_loop rms float_pow source timeout pbc phbc nsbc fuel s w.
Proof.
  rewrite !listen_loop_run. intros H.
  destruct (listen_run _ _ _ _ _ _ _ fuel s w) as [s1 w1|o] eqn:E;
    [contradiction|].
  rewrite (listen_run_done_mono _ _ _ _ _ _ _ _ _ _ _ _ E). reflexivity.
Qed.

Lemma listen_more_fuel (rms : buffer -> positive -> Z)
    (float_pow : Q -> Q -> Q) (source : AudioSource) (timeout : option Q)
    (fuel k : nat) (w : world) :
  listen rms float_pow source timeout fuel w <> OutOfFuel ->
  listen rms float_pow source timeout (fuel + k) w
  = listen rms float_pow source timeout fuel w.
Proof.
  rewrite !listen_unfold. destruct (negb _); [reflexivity|].
  unfold listen_phrase. intros H.
  rewrite listen_loop_more_fuel; [reflexivity|].
  intros E. rewrite E in H. apply H. reflexivity.
Qed.

Section ListenWaits.
Variable rms : buffer -> positive -> Z.
Variable float_pow : Q -> Q -> Q.
Variable source : AudioSource.
Variable t : Q.
Variables pbc phbc nsbc : Z.
Variable r : Recognizer.

Hypothesis t_truthy : ~ (t == 0)%Q.

Local Abbreviation loop_ :=
  (listen_loop rms float_pow source (Some t) pbc phbc nsbc).

(** Phase A on buffers that do not exceed a threshold that stays put: the
    loop reads the buffers within the timeout and raises. *)
Lemma listen_loop_waits (m : nat) :
  dynamic_energy_threshold r = false ->
  forall (j fuel : nat) (fr : list buffer) (w : world),
    self w = r ->
    (forall x, (1 <= x <= m)%nat -> (buffers_time source (j + x) <= t)%Q) ->
    (t < buffers_time source (S (j + m)))%Q ->
    (forall i, (i < m)%nat -> quiet rms source r (reads w + i)) ->
    (m < fuel)%nat ->
    loop_ fuel (PhaseA (buffers_time source j) fr) w
    = Raise WaitTimeoutError {| reads := reads w + m; self := self w |}.
Proof.
  intros Hdyn. induction m as [|m IH]; intros j fuel fr w Hw Hle Hgt Hq Hfuel;
    (destruct fuel as [|fuel]; [lia|]);
    cbn [listen_loop listen_step exceeds]; rewrite <- buffers_time_S.
  - rewrite Nat.add_0_r in Hgt. apply Qgtb_true in Hgt.
    rewrite (proj2 (truthy_Some t) t_truthy), Hgt. cbn [andb].
    rewrite world_eta; [reflexivity | lia].
  - pose proof (Hle 1%nat ltac:(lia)) as H1.
    replace (j + 1)%nat with (S j) in H1 by lia. apply Qgtb_false in H1.
    destruct (Hq 0%nat ltac:(lia)) as [Hne Hquiet].
    rewrite Nat.add_0_r in Hne, Hquiet.
    rewrite H1, andb_false_r.
    destruct (stream source (reads w)) as [|b0 bs] eqn:Eb; [contradiction|].
    simpl length. simpl Nat.eqb. cbv iota.
    change (self (after_read w)) with (self w). rewrite Hw, Hquiet, Hdyn.
    rewrite (IH (S j) fuel _ (after_read w)).
    + simpl. f_equal. f_equal; [lia | exact Hw].
    + exact Hw.
    + intros x Hx. replace (S j + x)%nat with (j + S x)%nat by lia.
      apply Hle. lia.
    + replace (S j + m)%nat with (j + S m)%nat by lia. exact Hgt.
    + intros i Hi. simpl. specialize (Hq (S i) ltac:(lia)).
      replace (reads w + S i)%nat with (S (reads w + i)) in Hq by lia.
      exact Hq.
    + lia.
Qed.
End ListenWaits.

(** On buffers that are not above a static threshold, [listen] with a
    timeout reads the [n] buffers within the timeout by its clock and
    raises [WaitTimeoutError], with the recogniser as it was. *)
Theorem listen_gives_up_after_timeout
    (rms : buffer -> positive -> Z) (float_pow : Q -> Q -> Q)
    (source : AudioSource) (t : Q) (n fuel : nat) (w : world) :
  thresholds_ok (self w) = true ->
  dynamic_energy_threshold (self w) = false ->
  ~ (t == 0)%Q ->
  buffers_within source t n ->
  (forall i, (i < n)%nat -> quiet rms source (self w) (reads w + i)) ->
  (n < fuel)%nat ->
  listen rms float_pow source (Some t) fuel w
  = Raise WaitTimeoutError {| reads := reads w + n; self := self w |}.
Proof.
  intros Hok Hdyn Ht [Hle Hgt] Hq Hfuel. rewrite listen_unfold, Hok.
  simpl negb. cbv iota. unfold listen_phrase.
  change 0%Q with (buffers_time source 0).
  rewrite (listen_loop_waits rms float_pow source t _ _ _ (self w) Ht
             n Hdyn 0 fuel [] w);
    try reflexivity; try assumption.
Qed.

(** The background listener's call on ten seconds of silence: fifteen
    buffers are read. *)
Lemma listen_gives_up_after_timeout_witness :
  listen audioop_rms pow_int (source_of ten_seconds_of_silence) (Some 1%Q) 40
    (fresh Recognizer_init)
  = Raise WaitTimeoutError
      {| reads := reads (fresh Recognizer_init) + 15;
         self := self (fresh Recognizer_init) |}.
Proof.
  apply (listen_gives_up_after_timeout audioop_rms pow_int
           (source_of ten_seconds_of_silence) 1 15 40 (fresh Recognizer_init)).
  - reflexivity.
  - reflexivity.
  - intros H; discriminate H.
  - apply (buffers_within_count_sound _ _ 20). vm_compute. reflexivity.
  - intros i Hi.
    do 15 (destruct i as [|i]; [split; [discriminate | vm_compute; reflexivity]|]).
    lia.
  - lia.
Defined.

(** A timeout shorter than one buffer (a negative one too) makes [listen]
    raise before it reads anything, whatever the source holds. *)
Theorem listen_timeout_under_one_buffer
    (rms : buffer -> positive -> Z) (float_pow : Q -> Q -> Q)
    (source : AudioSource) (t : Q) (fuel : nat) (w : world) :
  thresholds_ok (self w) = true ->
  ~ (t == 0)%Q ->
  (t < seconds_per_buffer source)%Q ->
  listen rms float_pow source (Some t) (S fuel) w = Raise WaitTimeoutError w.
Proof.
  intros Hok Ht Hlt. rewrite listen_unfold, Hok. simpl negb. cbv iota.
  unfold listen_phrase. cbn [listen_loop listen_step exceeds].
  rewrite (proj2 (truthy_Some t) Ht).
  assert (Hgt : Qgtb (float_add 0 (seconds_per_buffer source)) t = true).
  { apply Qgtb_true. rewrite first_tick. exact Hlt. }
  rewrite Hgt. reflexivity.
Qed.

(** A timeout of 50 ms at 16 kHz and 1024-sample chunks, on speech. *)
Lemma listen_timeout_under_one_buffer_witness :
  listen audioop_rms pow_int (source_of cut_phrase) (Some (1 # 20)%Q) 1
    (fresh Recognizer_init)
  = Raise WaitTimeoutError (fresh Recognizer_init).
Proof.
  apply (listen_timeout_under_one_buffer audioop_rms pow_int
           (source_of cut_phrase) (1 # 20) 0 (fresh Recognizer_init)).
  - reflexivity.
  - intros H; discriminate H.
  - vm_compute. reflexivity.
Defined.

Section ListenEnds.
Variable rms : buffer -> positive -> Z.
Variable float_pow : Q -> Q -> Q.
Variable source : AudioSource.
Variable t : Q.
Variables pbc phbc nsbc : Z.

Hypothesis t_truthy : ~ (t == 0)%Q.

Local Abbreviation step_ :=
  (listen_step rms float_pow source (Some t) pbc phbc nsbc).
Local Abbreviation run_ :=
  (listen_run rms float_pow source (Some t) pbc phbc nsbc).

(** Once the clock is over the timeout, the head of a phase-A iteration is
    where the call ends. *)
Lemma listen_run_raises_past_timeout (K k : nat) (w wk : world) (e : Q)
    (fr : list buffer) :
  (t < buffers_time source (S K))%Q ->
  (K <= k)%nat ->
  run_ k (PhaseA 0 []) w = Continue (PhaseA e fr) wk ->
  run_ (S k) (PhaseA 0 []) w = Done (Raise WaitTimeoutError wk).
Proof.
  intros Hover Hk Hrun. rewrite listen_run_S, Hrun.
  apply listen_step_timeout. exists t. split; [reflexivity|].
  split; [exact t_truthy|].
  destruct (listen_run_clock _ _ _ _ _ _ _ _ _ _ _ _ Hrun) as [He _].
  simpl in He. rewrite He. fold (buffers_time source k).
  rewrite <- buffers_time_S.
  eapply Qlt_le_trans; [exact Hover|]. apply buffers_time_mono. lia.
Qed.

(** Once the stream has ended and the clock is over the timeout, two more
    iterations end the call. *)
Lemma listen_run_ends (N K k : nat) (w : world) :
  (forall n, (N <= n)%nat -> stream source n = []) ->
  (t < buffers_time source (S K))%Q ->
  (N - reads w <= k)%nat ->
  (K <= k)%nat ->
  exists o, run_ (k + 2) (PhaseA 0 []) w = Done o.
Proof.
  intros Heof Hover HN HK.
  destruct (run_ k (PhaseA 0 []) w) as [s wk|o] eqn:Ek.
  - destruct s as [e fr | e fr pa ph].
    + exists (Raise WaitTimeoutError wk).
      replace (k + 2)%nat with (S k + 1)%nat by lia.
      apply listen_run_done_mono.
      eapply (listen_run_raises_past_timeout K); eassumption.
    + destruct (listen_run_clock _ _ _ _ _ _ _ _ _ _ _ _ Ek) as [_ Hr].
      assert (Hempty : stream source (reads wk) = [])
        by (apply Heof; lia).
      destruct (step_ (PhaseB e fr pa ph) wk) as [s1 w1|o] eqn:Es.
      * assert (Hs1 : exists e1, s1 = PhaseA e1 []).
        { simpl in Es. rewrite Hempty in Es. simpl in Es.
          unfold phrase_end in Es. destruct (_ >=? _); [discriminate|].
          inversion Es. eauto. }
        destruct Hs1 as (e1 & ->).
        exists (Raise WaitTimeoutError w1).
        replace (k + 2)%nat with (S (S k)) by lia.
        apply (listen_run_raises_past_timeout K (S k) w w1 e1 []);
          [exact Hover | lia|].
        rewrite listen_run_S, Ek. exact Es.
      * exists o. replace (k + 2)%nat with (S k + 1)%nat by lia.
        apply listen_run_done_mono. rewrite listen_run_S, Ek. exact Es.
  - exists o. apply listen_run_done_mono. exact Ek.
Qed.
End ListenEnds.

Lemma listen_run_done_outcome (rms : buffer -> positive -> Z)
    (float_pow : Q -> Q -> Q) (source : AudioSource) (timeout : option Q)
    (pbc phbc nsbc : Z) (k : nat) (s : listen_state) (w : world)
    (o : outcome phrase) :
  listen_run rms float_pow source timeout pbc phbc nsbc k s w = Done o ->
  o <> OutOfFuel.
Proof.
  intros H. apply listen_run_done in H. destruct H as (j & sj & wj & _ & _ & Hd).
  apply listen_step_done_self in Hd. intros ->. exact Hd.
Qed.

(** How far a run can have read. *)
Lemma listen_loop_reads_bound (rms : buffer -> positive -> Z)
    (float_pow : Q -> Q -> Q) (source : AudioSource) (timeout : option Q)
    (pbc phbc nsbc : Z) (fuel : nat) :
  forall (s : listen_state) (w : world),
    (reads w
     <= reads (final_world w
                 (listen_loop rms float_pow source timeout pbc phbc nsbc
                    fuel s w))
     <= reads w + fuel)%nat.
Proof.
  induction fuel as [|fuel IH]; intros s w; simpl; [lia|].
  destruct (listen_step _ _ _ _ _ _ _ s w) as [s1 w1|o] eqn:Es.
  - destruct (listen_step_clock _ _ _ _ _ _ _ _ _ _ _ Es) as [_ Hr].
    specialize (IH s1 w1).
    destruct (listen_loop _ _ _ _ _ _ _ fuel s1 w1); simpl in *; lia.
  - destruct s as [e fr | e fr pa ph]; simpl in Es.
    + destruct (truthy timeout && _).
      * inversion Es; subst. simpl. lia.
      * destruct (stream source (reads w)) as [|b0 bs]; simpl in Es;
          [discriminate|].
        destruct (Qgtb _ _); discriminate.
    + unfold phrase_end in Es.
      destruct (stream source (reads w)) as [|b0 bs]; simpl in Es.
      * destruct (_ >=? _); [|discriminate].
        inversion Es; subst. simpl. lia.
      * destruct (_ >? pbc); [|discriminate].
        destruct (_ >=? _); [|discriminate].
        inversion Es; subst. simpl. lia.
Qed.

Lemma listen_reads_bound (rms : buffer -> positive -> Z)
    (float_pow : Q -> Q -> Q) (source : AudioSource) (timeout : option Q)
    (fuel : nat) (w : world) :
  (reads w
   <= reads (final_world w (listen rms float_pow source timeout fuel w))
   <= reads w + fuel)%nat.
Proof.
  rewrite listen_unfold. destruct (negb _); [simpl; lia|].
  unfold listen_phrase.
  pose proof (listen_loop_reads_bound rms float_pow source timeout
                (pause_buffers source (self w)) (phrase_buffers source (self w))
                (non_speaking_buffers source (self w)) fuel (PhaseA 0 []) w) as H.
  destruct (listen_loop _ _ _ _ _ _ _ fuel _ w) as [p w'|e w'|];
    simpl in *; [|exact H | exact H].
  unfold obtain_frame_data. destruct (pop_n _ _); simpl; exact H.
Qed.

(** With a timeout in force that the clock exceeds after [K + 1]
    iterations, [listen] on a stream that ends always comes to an end: it
    returns or raises within two iterations of the later of the end of the
    stream and that point of the clock, and more fuel changes nothing. *)
Theorem listen_with_timeout_ends
    (rms : buffer -> positive -> Z) (float_pow : Q -> Q -> Q)
    (source : AudioSource) (t : Q) (N K : nat) (w : world) :
  ~ (t == 0)%Q ->
  (forall n, (N <= n)%nat -> stream source n = []) ->
  (t < buffers_time source (S K))%Q ->
  let fuel0 := (Nat.max (N - reads w) K + 2)%nat in
  listen rms float_pow source (Some t) fuel0 w <> OutOfFuel
  /\ (forall k,
        listen rms float_pow source (Some t) (fuel0 + k) w
        = listen rms float_pow source (Some t) fuel0 w)
  /\ (reads (final_world w (listen rms float_pow source (Some t) fuel0 w))
      <= reads w + fuel0)%nat.
Proof.
  intros Ht Heof Hover fuel0.
  assert (Hend : listen rms float_pow source (Some t) fuel0 w <> OutOfFuel).
  { rewrite listen_unfold. destruct (negb _); [discriminate|].
    unfold listen_phrase. rewrite listen_loop_run.
    destruct (listen_run_ends rms float_pow source t
                (pause_buffers source (self w)) (phrase_buffers source (self w))
                (non_speaking_buffers source (self w)) Ht N K
                (Nat.max (N - reads w) K) w Heof Hover
                ltac:(lia) ltac:(lia)) as (o & Ho).
    fold fuel0 in Ho. rewrite Ho.
    apply listen_run_done_outcome in Ho.
    destruct o as [p w'|e w'|]; [|discriminate | contradiction].
    unfold obtain_frame_data. destruct (pop_n _ _); discriminate. }
  split; [exact Hend|]. split.
  - intros k. apply listen_more_fuel, Hend.
  - apply listen_reads_bound.
Qed.

(** The click that [listen] without a timeout never returns from: with a
    timeout of two seconds, which the clock exceeds at its thirty-second
    iteration, the call ends within 33 iterations. *)
Lemma listen_with_timeout_ends_witness :
  let fuel0 := (Nat.max (17 - reads (fresh Recognizer_init)) 31 + 2)%nat in
  listen audioop_rms pow_int (source_of blip) (Some 2%Q) fuel0
    (fresh Recognizer_init) <> OutOfFuel
  /\ (forall k,
        listen audioop_rms pow_int (source_of blip) (Some 2%Q) (fuel0 + k)
          (fresh Recognizer_init)
        = listen audioop_rms pow_int (source_of blip) (Some 2%Q) fuel0
            (fresh Recognizer_init))
  /\ (reads (final_world (fresh Recognizer_init)
               (listen audioop_rms pow_int (source_of blip) (Some 2%Q) fuel0
                  (fresh Recognizer_init)))
      <= reads (fresh Recognizer_init) + fuel0)%nat.
Proof.
  apply (listen_with_timeout_ends audioop_rms pow_int (source_of blip) 2 17 31
           (fresh Recognizer_init)).
  - intros H; discriminate H.
  - intros n Hn. apply (stream_of_list_eof blip n). exact Hn.
  - vm_compute. reflexivity.
Defined.

(** The number of iterations cannot be read off the quotient
    [timeout / seconds_per_buffer].  At 10 Hz with chunks of one sample
    the clock stands at 0.8999999999999999 after nine iterations; with
    that timeout, where eight buffers fit in the quotient, a call on a
    stream that has ended is still running after ten iterations and raises
    in the eleventh. *)
Lemma listen_times_out_later_than_the_quotient :
  buffers_time tenth_second_source 9 = clock_at_nine_tenths
  /\ Qfloor (clock_at_nine_tenths / seconds_per_buffer tenth_second_source)
     = 8
  /\ listen audioop_rms pow_int tenth_second_source
       (Some clock_at_nine_tenths) 10 (fresh Recognizer_init) = OutOfFuel
  /\ listen audioop_rms pow_int tenth_second_source
       (Some clock_at_nine_tenths) 11 (fresh Recognizer_init)
     = Raise WaitTimeoutError {| reads := 10; self := Recognizer_init |}.
Proof.
  split; [reflexivity|].
  split; [vm_compute; reflexivity|].
  split; vm_compute; reflexivity.
Qed.

Section ListenCaptures.
Variable rms : buffer -> positive -> Z.
Variable float_pow : Q -> Q -> Q.
Variable source : AudioSource.
Variable timeout : option Q.
Variables pbc phbc nsbc : Z.
Variable r : Recognizer.

Hypothesis pbc_nonneg : 0 <= pbc.

Local Abbreviation run_ :=
  (listen_run rms float_pow source timeout pbc phbc nsbc).

(** Phase B on buffers that all exceed the threshold: no test of the loop
    ever ends it. *)
Lemma listen_run_captures (k : nat) :
  forall (e : Q) (fr : list buffer) (ph : Z) (w : world),
    self w = r ->
    (forall n, (reads w <= n)%nat -> speaking rms source r n) ->
    exists e' fr' ph' w',
      run_ k (PhaseB e fr 0 ph) w = Continue (PhaseB e' fr' 0 ph') w'.
Proof.
  induction k as [|k IH]; intros e fr ph w Hw Hsp; [simpl; eauto|].
  destruct (Hsp (reads w) ltac:(lia)) as [Hne Hloud].
  cbn [listen_run listen_step].
  destruct (stream source (reads w)) as [|b0 bs] eqn:Eb; [contradiction|].
  simpl length. simpl Nat.eqb. cbv iota.
  change (self (after_read w)) with (self w). rewrite Hw, Hloud.
  destruct (Z.gtb_spec 0 pbc) as [Hgt|Hle]; [lia|].
  apply IH; [exact Hw|]. intros n Hn. apply Hsp. simpl in Hn. lia.
Qed.
End ListenCaptures.

(** The timeout only bounds the wait for speech.  When every buffer from
    the start of the call on exceeds the threshold, [listen] never comes
    back, with any timeout of at least one buffer as with none. *)
Theorem listen_capture_has_no_timeout
    (rms : buffer -> positive -> Z) (float_pow : Q -> Q -> Q)
    (source : AudioSource) (timeout : option Q) (w : world) :
  thresholds_ok (self w) = true ->
  (forall t, timeout = Some t ->
             (t == 0)%Q \/ (seconds_per_buffer source <= t)%Q) ->
  (forall n, (reads w <= n)%nat -> speaking rms source (self w) n) ->
  forall fuel, listen rms float_pow source timeout fuel w = OutOfFuel.
Proof.
  intros Hok Ht Hsp fuel. rewrite listen_unfold, Hok. simpl negb. cbv iota.
  unfold listen_phrase. rewrite listen_loop_run.
  destruct fuel as [|fuel]; [reflexivity|].
  assert (Hcheck : truthy timeout
                   && exceeds (float_add 0 (seconds_per_buffer source))
                        timeout = false).
  { destruct timeout as [t|]; [|reflexivity].
    destruct (Ht t eq_refl) as [H0|Hle].
    - rewrite (truthy_zero t H0). reflexivity.
    - apply andb_false_iff. right. simpl. apply Qgtb_false.
      rewrite first_tick. exact Hle. }
  destruct (Hsp (reads w) ltac:(lia)) as [Hne Hloud].
  cbn [listen_run listen_step]. rewrite Hcheck.
  destruct (stream source (reads w)) as [|b0 bs] eqn:Eb; [contradiction|].
  simpl length. simpl Nat.eqb. cbv iota.
  change (self (after_read w)) with (self w). rewrite Hloud.
  destruct (counts_ordered source (self w) Hok) as [H0 H1].
  match goal with
  | |- context [listen_run _ _ _ _ _ _ _ fuel (PhaseB ?e ?fr 0 0) ?w1] =>
      destruct (listen_run_captures rms float_pow source timeout
                  (pause_buffers source (self w))
                  (phrase_buffers source (self w))
                  (non_speaking_buffers source (self w)) (self w)
                  ltac:(lia) fuel e fr 0 w1 eq_refl)
        as (e' & fr' & ph' & w' & Hrun)
  end.
  - intros n Hn. apply Hsp. simpl in Hn. lia.
  - rewrite Hrun. reflexivity.
Qed.

(** Continuous speech with the background listener's timeout of one
    second. *)
Lemma listen_capture_has_no_timeout_witness :
  listen audioop_rms pow_int loud_source (Some 1%Q) 1000
    (fresh Recognizer_init) = OutOfFuel.
Proof.
  apply (listen_capture_has_no_timeout audioop_rms pow_int loud_source
           (Some 1%Q) (fresh Recognizer_init)).
  - reflexivity.
  - intros t Ht. inversion Ht; subst. right. unfold Qle. vm_compute.
    discriminate.
  - intros n _. split; [discriminate | vm_compute; reflexivity].
Defined.

(** ** [listen]: what the audio is made of *)

Lemma contiguous_nil (source : AudioSource) (n0 n : nat) :
  (n0 <= n)%nat -> contiguous source [] n0 n.
Proof. intros H. split; simpl; [lia | reflexivity]. Qed.

Lemma contiguous_snoc (source : AudioSource) (frames : list buffer)
    (n0 n : nat) :
  contiguous source frames n0 n ->
  contiguous source (frames ++ [stream source n]) n0 (S n).
Proof.
  intros [Hlen Hf]. split; rewrite length_app; [simpl; lia|].
  change (length [stream source n]) with 1%nat.
  replace (S n - (length frames + 1))%nat with (n - length frames)%nat by lia.
  rewrite seq_app, map_app.
  replace (n - length frames + length frames)%nat with n by lia.
  rewrite <- Hf. reflexivity.
Qed.

Lemma contiguous_tl (source : AudioSource) (frames : list buffer)
    (n0 n : nat) :
  contiguous source frames n0 n -> contiguous source (tl frames) n0 n.
Proof.
  intros [Hlen Hf]. destruct frames as [|b rest]; [split; assumption|].
  simpl in *. split; [lia|].
  injection Hf as Hb Hrest.
  replace (S (n - S (length rest))) with (n - length rest)%nat in Hrest by lia.
  exact Hrest.
Qed.

Lemma firstn_seq_le (m : nat) :
  forall a l : nat, (m <= l)%nat -> firstn m (seq a l) = seq a m.
Proof.
  induction m as [|m IH]; intros a l Hm; [reflexivity|].
  destruct l as [|l]; [lia|]. simpl. f_equal. apply IH. lia.
Qed.

Lemma contiguous_firstn (source : AudioSource) (frames : list buffer)
    (n0 n m : nat) :
  contiguous source frames n0 n ->
  (m <= length frames)%nat ->
  firstn m frames = map (stream source) (seq (n - length frames) m).
Proof.
  intros [_ Hf] Hm. rewrite Hf at 1.
  rewrite firstn_map, firstn_seq_le by exact Hm. reflexivity.
Qed.

Section ListenContiguous.
Variable rms : buffer -> positive -> Z.
Variable float_pow : Q -> Q -> Q.
Variable source : AudioSource.
Variable timeout : option Q.
Variables pbc phbc nsbc : Z.

Local Abbreviation step_ :=
  (listen_step rms float_pow source timeout pbc phbc nsbc).
Local Abbreviation loop_ :=
  (listen_loop rms float_pow source timeout pbc phbc nsbc).

(** An iteration that reads a non-empty buffer keeps the ring a stretch of
    the stream that ends at the reading position. *)
Lemma listen_step_contiguous (n0 : nat) (s : listen_state) (w : world) :
  stream source (reads w) <> [] ->
  contiguous source (state_frames s) n0 (reads w) ->
  match step_ s w with
  | Continue s' w' =>
      reads w' = S (reads w)
      /\ contiguous source (state_frames s') n0 (reads w')
  | Done (Return p w') =>
      reads w' = S (reads w) /\ contiguous source (ring p) n0 (reads w')
  | Done _ => True
  end.
Proof.
  intros Hne Hc.
  assert (Hn0 : (n0 <= S (reads w))%nat) by (destruct Hc; lia).
  destruct s as [e fr | e fr pa ph]; cbn [listen_step state_frames] in *.
  - destruct (truthy timeout && _); [exact I|].
    destruct (stream source (reads w)) as [|b0 bs] eqn:Eb; [contradiction|].
    simpl length. simpl Nat.eqb. cbv iota.
    assert (Hfr : contiguous source
                    (if Z.of_nat (length (fr ++ [b0 :: bs])) >? nsbc
                     then tl (fr ++ [b0 :: bs]) else fr ++ [b0 :: bs])
                    n0 (S (reads w))).
    { rewrite <- Eb.
      destruct (_ >? nsbc); [apply contiguous_tl|];
        apply contiguous_snoc, Hc. }
    destruct (Qgtb _ _); [split; [reflexivity | exact Hfr]|].
    destruct (dynamic_energy_threshold _); split;
      solve [reflexivity | exact Hfr].
  - destruct (stream source (reads w)) as [|b0 bs] eqn:Eb; [contradiction|].
    simpl length. simpl Nat.eqb. cbv iota.
    assert (Hfr : contiguous source (fr ++ [b0 :: bs]) n0 (S (reads w)))
      by (rewrite <- Eb; apply contiguous_snoc, Hc).
    unfold phrase_end.
    destruct (_ >? pbc).
    + destruct (_ >=? phbc); simpl; split;
        solve [reflexivity | exact Hfr | apply contiguous_nil, Hn0].
    + split; [reflexivity | exact Hfr].
Qed.

(** A run that returns without having read an empty buffer hands over a
    stretch of the stream that ends at the last buffer read. *)
Lemma listen_loop_contiguous (n0 fuel : nat) :
  forall (s : listen_state) (w w' : world) (p : phrase),
    contiguous source (state_frames s) n0 (reads w) ->
    loop_ fuel s w = Return p w' ->
    (forall n, (reads w <= n < reads w')%nat -> stream source n <> []) ->
    contiguous source (ring p) n0 (reads w').
Proof.
  induction fuel as [|fuel IH]; intros s w w' p Hc Hloop Hne;
    [discriminate|].
  pose proof (listen_loop_reads_bound rms float_pow source timeout
                pbc phbc nsbc (S fuel) s w) as Hb.
  rewrite Hloop in Hb. simpl final_world in Hb.
  simpl in Hloop.
  destruct (Nat.eq_dec (reads w') (reads w)) as [Heq|Hneq].
  - exfalso.
    destruct (step_ s w) as [s1 w1|o] eqn:Es.
    + pose proof (listen_loop_reads_bound rms float_pow source timeout
                    pbc phbc nsbc fuel s1 w1) as Hb1.
      rewrite Hloop in Hb1. simpl final_world in Hb1.
      apply listen_step_clock in Es. lia.
    + subst o. destruct s as [e fr | e fr pa ph]; simpl in Es.
      * destruct (truthy timeout && _); [discriminate|].
        destruct (stream source (reads w)); simpl in Es; [discriminate|].
        destruct (Qgtb _ _); discriminate.
      * unfold phrase_end in Es.
        destruct (stream source (reads w)); simpl in Es.
        -- destruct (_ >=? _); [|discriminate].
           inversion Es; subst. simpl in Heq. lia.
        -- destruct (_ >? pbc); [|discriminate].
           destruct (_ >=? _); [|discriminate].
           inversion Es; subst. simpl in Heq. lia.
  - pose proof (listen_step_contiguous n0 s w (Hne (reads w) ltac:(lia)) Hc)
      as Hstep.
    destruct (step_ s w) as [s1 w1|o] eqn:Es.
    + destruct Hstep as [Hr Hc1].
      apply (IH s1 w1 w' p Hc1 Hloop).
      intros n Hn. apply Hne. lia.
    + subst o. destruct Hstep as [_ Hc1]. exact Hc1.
Qed.
End ListenContiguous.

(** When no read of the call met the end of the stream, the audio that
    [listen] returns is one uninterrupted stretch of the stream: [count]
    buffers from position [first], read by this call, at least
    [phrase_buffer_count + non_speaking_buffer_count] of them, and ending
    [pause_buffer_count + 1 - non_speaking_buffer_count] buffers before the
    position where the call stopped reading. *)
Theorem listen_returns_contiguous_audio
    (rms : buffer -> positive -> Z) (float_pow : Q -> Q -> Q)
    (source : AudioSource) (timeout : option Q) (fuel : nat)
    (w w' : world) (audio : AudioData) :
  listen rms float_pow source timeout fuel w = Return audio w' ->
  (forall n, (reads w <= n < reads w')%nat -> stream source n <> []) ->
  exists first count : nat,
    (reads w <= first)%nat
    /\ Z.of_nat first + Z.of_nat count
       + (pause_buffers source (self w) + 1
          - non_speaking_buffers source (self w))
       = Z.of_nat (reads w')
    /\ phrase_buffers source (self w) + non_speaking_buffers source (self w)
       <= Z.of_nat count
    /\ frame_data audio = concat (map (stream source) (seq first count)).
Proof.
  intros Hcall Hne.
  destruct (listen_return_inv _ _ _ _ _ _ _ _ Hcall) as (p & Hok & Hloop & Hob).
  destruct (listen_phrase_post _ _ _ _ _ _ _ _ Hok Hloop) as [Hpost _].
  rewrite (obtain_frame_data_ok _ _ _ _ _ _ _ Hpost) in Hob.
  inversion Hob as [Haudio]; clear Hob.
  destruct (counts_ordered source (self w) Hok) as [Hns0 Hnsp].
  assert (Hc : contiguous source (ring p) (reads w) (reads w')).
  { unfold listen_phrase in Hloop.
    eapply listen_loop_contiguous; [|exact Hloop | exact Hne].
    apply contiguous_nil. lia. }
  destruct Hpost as (Hpa & Hph & Hph0 & Hpre & Hend). unfold pre_roll in Hpre.
  assert (Hfull : final_pause_count p = pause_buffers source (self w) + 1).
  { destruct Hend as [H|(n & Hn0 & Hn & Heof)]; [exact H|].
    exfalso. apply (Hne n); [lia | exact Heof]. }
  pose proof Hc as [Hlen _].
  exists (reads w' - length (ring p))%nat,
         (length (ring p)
          - Z.to_nat (final_pause_count p
                      - non_speaking_buffers source (self w)))%nat.
  split; [lia|]. split; [lia|]. split; [lia|].
  simpl. f_equal. apply (contiguous_firstn source (ring p) (reads w)); [exact Hc|].
  lia.
Qed.

(** The clean phrase: 12 of the 35 buffers are read and left out at the
    end, the audio is the stretch before them. *)
Lemma listen_returns_contiguous_audio_witness :
  exists first count : nat,
    (reads (fresh Recognizer_init) <= first)%nat
    /\ Z.of_nat first + Z.of_nat count
       + (pause_buffers (source_of clean_phrase) (self (fresh Recognizer_init))
          + 1
          - non_speaking_buffers (source_of clean_phrase)
              (self (fresh Recognizer_init)))
       = Z.of_nat (reads (final_world (fresh Recognizer_init) clean_call))
    /\ phrase_buffers (source_of clean_phrase) (self (fresh Recognizer_init))
       + non_speaking_buffers (source_of clean_phrase)
           (self (fresh Recognizer_init))
       <= Z.of_nat count
    /\ frame_data (returned no_audio clean_call)
       = concat (map (stream (source_of clean_phrase)) (seq first count)).
Proof.
  apply (listen_returns_contiguous_audio audioop_rms pow_int
           (source_of clean_phrase) None 40 (fresh Recognizer_init)
           (final_world (fresh Recognizer_init) clean_call)
           (returned no_audio clean_call)).
  - apply (return_eta no_audio (fresh Recognizer_init) clean_call).
    vm_compute. reflexivity.
  - intros n Hn. rewrite clean_call_reads in Hn.
    pose proof (clean_source_whole n ltac:(lia)) as H.
    intros E. rewrite E in H. vm_compute in H. discriminate H.
Defined.

Lemma concat_divide (c : Z) (frames : list buffer) :
  Forall (fun b => (c | Z.of_nat (length b))) frames ->
  (c | Z.of_nat (length (concat frames))).
Proof.
  induction 1 as [|b rest Hb _ IH]; simpl.
  - apply Z.divide_0_r.
  - rewrite length_app, Nat2Z.inj_add. apply Z.divide_add_r; assumption.
Qed.

(** The audio of [listen] carries the rate and the width of the source, and
    it holds whole samples when every buffer that was read does. *)
Theorem listen_audio_whole_samples
    (rms : buffer -> positive -> Z) (float_pow : Q -> Q -> Q)
    (source : AudioSource) (timeout : option Q) (fuel : nat)
    (w w' : world) (audio : AudioData) :
  listen rms float_pow source timeout fuel w = Return audio w' ->
  (forall n, (reads w <= n < reads w')%nat ->
             (Zpos (SAMPLE_WIDTH source) | Z.of_nat (length (stream source n)))) ->
  sample_rate audio = SAMPLE_RATE source
  /\ sample_width audio = SAMPLE_WIDTH source
  /\ (Zpos (sample_width audio) | Z.of_nat (length (frame_data audio))).
Proof.
  intros Hcall Hw.
  destruct (listen_return_inv _ _ _ _ _ _ _ _ Hcall) as (p & Hok & Hloop & Hob).
  destruct (listen_phrase_post _ _ _ _ _ _ _ _ Hok Hloop) as [Hpost Hord].
  rewrite (obtain_frame_data_ok _ _ _ _ _ _ _ Hpost) in Hob.
  inversion Hob as [Haudio]; clear Hob. simpl.
  split; [reflexivity|]. split; [reflexivity|].
  apply concat_divide.
  apply (arrival_ordered_from_stream source _ (reads w) (reads w')).
  - apply arrival_ordered_firstn, Hord.
  - exact Hw.
Qed.

(** The ten buffers of speech cut by the end of the stream: the audio is
    made of 16-bit samples. *)
Lemma listen_audio_whole_samples_witness :
  sample_rate
    (returned no_audio
       (listen audioop_rms pow_int (source_of cut_phrase) None 40
          (fresh Recognizer_init)))
  = SAMPLE_RATE (source_of cut_phrase)
  /\ sample_width
       (returned no_audio
          (listen audioop_rms pow_int (source_of cut_phrase) None 40
             (fresh Recognizer_init)))
     = SAMPLE_WIDTH (source_of cut_phrase)
  /\ (Zpos (sample_width
              (returned no_audio
                 (listen audioop_rms pow_int (source_of cut_phrase) None 40
                    (fresh Recognizer_init))))
      | Z.of_nat (length (frame_data
           (returned no_audio
              (listen audioop_rms pow_int (source_of cut_phrase) None 40
                 (fresh Recognizer_init)))))).
Proof.
  apply (listen_audio_whole_samples audioop_rms pow_int
           (source_of cut_phrase) None 40 (fresh Recognizer_init)
           (final_world (fresh Recognizer_init)
              (listen audioop_rms pow_int (source_of cut_phrase) None 40
                 (fresh Recognizer_init)))).
  - apply (return_eta no_audio (fresh Recognizer_init)).
    vm_compute. reflexivity.
  - intros n _. simpl. unfold stream_of_list.
    destruct (nth_in_or_default n cut_phrase []) as [Hin|Hd].
    + apply repeat_spec in Hin. rewrite Hin. exists 1024. vm_compute. reflexivity.
    + rewrite Hd. apply Z.divide_0_r.
Defined.

(** ** [record] on any stream *)

Lemma available_le (source : AudioSource) (m : nat) :
  forall a, (available source a m <= m)%nat.
Proof.
  induction m as [|m IH]; intros a; simpl; [lia|].
  destruct (stream source a); [lia|]. specialize (IH (S a)). lia.
Qed.

Lemma available_nonempty (source : AudioSource) (m : nat) :
  forall a i, (i < available source a m)%nat -> stream source (a + i) <> [].
Proof.
  induction m as [|m IH]; intros a i Hi; simpl in Hi; [lia|].
  destruct (stream source a) as [|b0 bs] eqn:Eb; [lia|].
  destruct i as [|i].
  - rewrite Nat.add_0_r, Eb. discriminate.
  - replace (a + S i)%nat with (S a + i)%nat by lia. apply IH. lia.
Qed.

Lemma available_stops (source : AudioSource) (m : nat) :
  forall a, (available source a m < m)%nat ->
            stream source (a + available source a m) = [].
Proof.
  induction m as [|m IH]; intros a Hlt; simpl in *; [lia|].
  destruct (stream source a) as [|b0 bs] eqn:Eb.
  - rewrite Nat.add_0_r. exact Eb.
  - replace (a + S (available source (S a) m))%nat
      with (S a + available source (S a) m)%nat by lia.
    apply IH. lia.
Qed.

(** [record] with a duration returns on any stream, ended or not, as soon
    as its clocks run: with [k] buffers within [offset] and [n] within
    [duration], and [e] the non-empty buffers in a row from the reading
    position, counted up to [k + n], it reads [e + 1] buffers and returns
    those of the [e] that come after the first [k]. *)
Theorem record_with_duration_returns
    (source : AudioSource) (d : Q) (offset : option Q) (k n fuel : nat)
    (w : world) :
  ~ (d == 0)%Q ->
  skipped source offset k ->
  buffers_within source d n ->
  let e := available source (reads w) (k + n) in
  (e < fuel)%nat ->
  record source (Some d) offset fuel w
  = Return
      {| frame_data :=
           concat (map (stream source) (seq (reads w + k) (e - k)));
         sample_rate := SAMPLE_RATE source;
         sample_width := SAMPLE_WIDTH source |}
      {| reads := reads w + e + 1; self := self w |}.
Proof.
  intros Hd Hskip Hwithin e Hfuel. unfold record.
  destruct (over_within source d n Hd Hwithin) as [Hcap Hover].
  pose proof (available_le source (k + n) (reads w)) as Hle.
  fold e in Hle.
  rewrite (record_loop_until source (Some d) offset k e fuel w).
  - reflexivity.
  - exact Hskip.
  - intros i Hi. eapply available_nonempty. exact Hi.
  - intros x Hx. apply Hcap. lia.
  - destruct (Nat.eq_dec e (k + n)) as [Heq|Hneq].
    + right. split; [lia|]. replace (e - k)%nat with n by lia. exact Hover.
    + left. apply available_stops. fold e. lia.
  - exact Hfuel.
Qed.

(** Two seconds from second 2 of a stream that holds 2.24 seconds: the
    four buffers after the offset, up to the end of the stream. *)
Lemma record_with_duration_returns_witness :
  let e := available (source_of clean_phrase) (reads (fresh Recognizer_init))
             (31 + 31) in
  record (source_of clean_phrase) (Some 2%Q) (Some 2%Q) 40
    (fresh Recognizer_init)
  = Return
      {| frame_data :=
           concat (map (stream (source_of clean_phrase))
                     (seq (reads (fresh Recognizer_init) + 31) (e - 31)));
         sample_rate := SAMPLE_RATE (source_of clean_phrase);
         sample_width := SAMPLE_WIDTH (source_of clean_phrase) |}
      {| reads := reads (fresh Recognizer_init) + e + 1;
         self := self (fresh Recognizer_init) |}.
Proof.
  assert (Hw : buffers_within (source_of clean_phrase) 2 31)
    by (apply (buffers_within_count_sound _ _ 40); vm_compute; reflexivity).
  apply (record_with_duration_returns (source_of clean_phrase) 2 (Some 2%Q)
           31 31 40 (fresh Recognizer_init)).
  - intros H; discriminate H.
  - exact Hw.
  - exact Hw.
  - vm_compute. lia.
Defined.

(** Without a duration ([None] or 0), [record] returns at the first empty
    read, with every buffer between the [k] that it passes over for the
    offset and the end of the stream. *)
Theorem record_to_end_of_stream
    (source : AudioSource) (duration offset : option Q) (k e fuel : nat)
    (w : world) :
  truthy duration = false ->
  skipped source offset k ->
  (forall i, (i < e)%nat -> stream source (reads w + i) <> []) ->
  stream source (reads w + e) = [] ->
  (e < fuel)%nat ->
  record source duration offset fuel w
  = Return
      {| frame_data :=
           concat (map (stream source) (seq (reads w + k) (e - k)));
         sample_rate := SAMPLE_RATE source;
         sample_width := SAMPLE_WIDTH source |}
      {| reads := reads w + e + 1; self := self w |}.
Proof.
  intros Hd Hskip Hne Heof Hfuel. unfold record.
  rewrite (record_loop_until source duration offset k e fuel w).
  - reflexivity.
  - exact Hskip.
  - exact Hne.
  - intros x _. unfold over. rewrite Hd. reflexivity.
  - left. exact Heof.
  - exact Hfuel.
Qed.

(** The whole of the click stream from half a second on: 17 buffers, 7
    passed over, 10 returned. *)
Lemma record_to_end_of_stream_witness :
  record (source_of blip) None (Some (1 # 2)) 20 (fresh Recognizer_init)
  = Return
      {| frame_data :=
           concat (map (stream (source_of blip))
                     (seq (reads (fresh Recognizer_init) + 7) (17 - 7)));
         sample_rate := SAMPLE_RATE (source_of blip);
         sample_width := SAMPLE_WIDTH (source_of blip) |}
      {| reads := reads (fresh Recognizer_init) + 17 + 1;
         self := self (fresh Recognizer_init) |}.
Proof.
  apply (record_to_end_of_stream (source_of blip) None (Some (1 # 2)) 7 17 20
           (fresh Recognizer_init)).
  - reflexivity.
  - apply (buffers_within_count_sound _ _ 20). vm_compute. reflexivity.
  - intros i Hi. simpl.
    do 17 (destruct i as [|i]; [vm_compute; discriminate|]). lia.
  - reflexivity.
  - lia.
Defined.

(** Without a duration, [record] on a source that never ends never
    returns. *)
Theorem record_without_duration_never_returns
    (source : AudioSource) (duration offset : option Q) (w : world) :
  truthy duration = false ->
  (forall n, (reads w <= n)%nat -> stream source n <> []) ->
  forall fuel, record source duration offset fuel w = OutOfFuel.
Proof.
  intros Hd Hne fuel. unfold record.
  rewrite (record_loop_goes_on source duration offset fuel Hd); [reflexivity|].
  exact Hne.
Qed.

Lemma record_without_duration_never_returns_witness :
  record quiet_source None None 1000 (fresh Recognizer_init) = OutOfFuel.
Proof.
  apply (record_without_duration_never_returns quiet_source None None
           (fresh Recognizer_init)).
  - reflexivity.
  - intros n _. vm_compute. discriminate.
Defined.

(** ** [adjust_for_ambient_noise]: what a calibration does and leaves alone *)

Lemma buffers_within_short (source : AudioSource) (x : Q) :
  (x < seconds_per_buffer source)%Q -> buffers_within source x 0.
Proof.
  intros Hx. split; [intros i Hi; lia|].
  rewrite buffers_time_S, buffers_time_0, first_tick. exact Hx.
Qed.

Section CalibrationFrame.
Variable rms : buffer -> positive -> Z.
Variable float_pow : Q -> Q -> Q.
Variable source : AudioSource.

Local Abbreviation spb := (seconds_per_buffer source).
Local Abbreviation calibrate_ := (calibrate rms float_pow source).

(** The updates assign [energy_threshold] and nothing else. *)
Lemma calibrate_frame (n : nat) :
  forall w : world,
    self (calibrate_ n w)
    = set_energy_threshold (self w) (energy_threshold (self (calibrate_ n w))).
Proof.
  induction n as [|n IH]; intros w.
  - simpl. destruct (self w); reflexivity.
  - simpl calibrate. rewrite IH at 1. reflexivity.
Qed.



End CalibrationFrame.

(** A calibration reads the [n] buffers within [duration] by its clock and
    changes no attribute of the recogniser but [energy_threshold]; with a
    duration below one buffer it reads nothing and changes nothing. *)
Theorem adjust_for_ambient_noise_frame
    (rms : buffer -> positive -> Z) (float_pow : Q -> Q -> Q)
    (source : AudioSource) (duration : Q) (n fuel : nat) (w : world) :
  thresholds_ok (self w) = true ->
  buffers_within source duration n ->
  (n < fuel)%nat ->
  exists w',
    adjust_for_ambient_noise rms float_pow source duration fuel w
    = Return tt w'
    /\ reads w' = (reads w + n)%nat
    /\ self w' = set_energy_threshold (self w) (energy_threshold (self w'))
    /\ ((duration < seconds_per_buffer source)%Q -> w' = w).
Proof.
  intros Hok Hwithin Hfuel.
  exists (calibrate rms float_pow source n w).
  split; [apply adjust_for_ambient_noise_returns; assumption|].
  split; [apply calibrate_static|].
  split; [apply calibrate_frame|].
  intros Hshort.
  rewrite (buffers_within_unique source duration n 0 Hwithin
             (buffers_within_short source duration Hshort)).
  reflexivity.
Qed.

Lemma adjust_for_ambient_noise_frame_witness :
  exists w',
    adjust_for_ambient_noise audioop_rms pow_int hum_source 3 10
      (fresh Recognizer_init)
    = Return tt w'
    /\ reads w' = (reads (fresh Recognizer_init) + 3)%nat
    /\ self w'
       = set_energy_threshold (self (fresh Recognizer_init))
           (energy_threshold (self w'))
    /\ ((3 < seconds_per_buffer hum_source)%Q -> w' = fresh Recognizer_init).
Proof.
  apply (adjust_for_ambient_noise_frame audioop_rms pow_int hum_source 3 3 10
           (fresh Recognizer_init)).
  - reflexivity.
  - apply (buffers_within_count_sound _ _ 5). vm_compute. reflexivity.
  - lia.
Defined.





(** ** [shutil_which]: the search order *)

Lemma str_split_cons (sep : Ascii.ascii) (c rest : String.string) :
  sep_free sep c = true ->
  str_split sep (String.append c (String.String sep rest))
  = c :: str_split sep rest.
Proof.
  induction c as [|a c IH]; intros Hfree; simpl.
  - rewrite Ascii.eqb_refl. reflexivity.
  - simpl in Hfree. apply andb_true_iff in Hfree. destruct Hfree as [Ha Hc].
    apply negb_true_iff in Ha. rewrite Ha, (IH Hc). reflexivity.
Qed.

Lemma str_split_one (sep : Ascii.ascii) (c : String.string) :
  sep_free sep c = true -> str_split sep c = [c].
Proof.
  induction c as [|a c IH]; intros Hfree; simpl; [reflexivity|].
  simpl in Hfree. apply andb_true_iff in Hfree. destruct Hfree as [Ha Hc].
  apply negb_true_iff in Ha. rewrite Ha, (IH Hc). reflexivity.
Qed.

(** Splitting a search path gives back its entries. *)
Lemma str_split_search_path (sep : Ascii.ascii)
    (entries : list String.string) :
  entries <> [] ->
  Forall (fun c => sep_free sep c = true) entries ->
  str_split sep (search_path sep entries) = entries.
Proof.
  intros Hne Hfree. induction Hfree as [|c rest Hc Hrest IH]; [contradiction|].
  destruct rest as [|c' rest].
  - simpl. apply str_split_one, Hc.
  - change (search_path sep (c :: c' :: rest))
      with (String.append c
              (String.String sep (search_path sep (c' :: rest)))).
    rewrite (str_split_cons sep c _ Hc), IH; [reflexivity | discriminate].
Qed.

Lemma which_loop_first (os_path_join : String.string -> String.string -> String.string)
    (os_path_exists os_access_X_OK : String.string -> bool)
    (pgm : String.string) (entries : list String.string) :
  match which_loop os_path_join os_path_exists os_access_X_OK pgm entries with
  | Some p =>
      exists before c after,
        entries = before ++ c :: after
        /\ Forall (fun c' => usable os_path_join os_path_exists
                               os_access_X_OK pgm c' = false) before
        /\ usable os_path_join os_path_exists os_access_X_OK pgm c = true
        /\ p = os_path_join c pgm
  | None =>
      Forall (fun c => usable os_path_join os_path_exists os_access_X_OK
                         pgm c = false) entries
  end.
Proof.
  induction entries as [|c rest IH]; simpl; [constructor|].
  destruct (os_path_exists (os_path_join c pgm)
            && os_access_X_OK (os_path_join c pgm)) eqn:Ec.
  - exists [], c, rest. repeat split; [constructor | exact Ec].
  - destruct (which_loop _ _ _ pgm rest) as [p|].
    + destruct IH as (before & c1 & after & Hl & Hb & Hc & Hp).
      exists (c :: before), c1, after. rewrite Hl.
      repeat split; [constructor; [exact Ec | exact Hb] | exact Hc | exact Hp].
    + constructor; [exact Ec | exact IH].
Qed.

(** [shutil_which] tries the entries of [PATH] in the order they are
    written, the empty ones included, and returns the program's path under
    the first entry where it exists and may be executed; it returns [None]
    when there is no such entry, and fails with [AttributeError] when
    [PATH] is not set. *)
Theorem shutil_which_first_match
    (pathsep : Ascii.ascii)
    (os_path_join : String.string -> String.string -> String.string)
    (os_path_exists os_access_X_OK : String.string -> bool)
    (pgm : String.string) (entries : list String.string) :
  entries <> [] ->
  Forall (fun c => sep_free pathsep c = true) entries ->
  shutil_which None pathsep os_path_join os_path_exists os_access_X_OK pgm
  = WhichAttributeError
  /\ exists r,
      shutil_which (Some (search_path pathsep entries)) pathsep os_path_join
        os_path_exists os_access_X_OK pgm
      = WhichReturn r
      /\ match r with
         | Some p =>
             exists before c after,
               entries = before ++ c :: after
               /\ Forall (fun c' => usable os_path_join os_path_exists
                                      os_access_X_OK pgm c' = false) before
               /\ usable os_path_join os_path_exists os_access_X_OK pgm c
                  = true
               /\ p = os_path_join c pgm
         | None =>
             Forall (fun c => usable os_path_join os_path_exists
                                os_access_X_OK pgm c = false) entries
         end.
Proof.
  intros Hne Hfree. split; [reflexivity|].
  unfold shutil_which. rewrite (str_split_search_path pathsep entries Hne Hfree).
  eexists. split; [reflexivity|].
  apply which_loop_first.
Qed.

(** [PATH=/opt/bin::/usr/bin] with executables [/flac] and
    [/usr/bin/flac]: the empty entry comes first. *)
Lemma shutil_which_first_match_witness :
  shutil_which None colon slash_join two_executables two_executables flac
  = WhichAttributeError
  /\ exists r,
      shutil_which (Some (search_path colon path_entries)) colon slash_join
        two_executables two_executables flac
      = WhichReturn r
      /\ match r with
         | Some p =>
             exists before c after,
               path_entries = before ++ c :: after
               /\ Forall (fun c' => usable slash_join two_executables
                                      two_executables flac c' = false) before
               /\ usable slash_join two_executables two_executables flac c
                  = true
               /\ p = slash_join c flac
         | None =>
             Forall (fun c => usable slash_join two_executables
                                two_executables flac c = false) path_entries
         end.
Proof.
  apply (shutil_which_first_match colon slash_join two_executables
           two_executables flac path_entries).
  - discriminate.
  - repeat constructor.
Defined.

(** ** [listen] with a dynamic threshold *)

Section ListenAdapts.
Variable rms : buffer -> positive -> Z.
Variable float_pow : Q -> Q -> Q.
Variable source : AudioSource.
Variable t : Q.
Variables pbc phbc nsbc : Z.

Hypothesis t_truthy : ~ (t == 0)%Q.

Local Abbreviation loop_ :=
  (listen_loop rms float_pow source (Some t) pbc phbc nsbc).
Local Abbreviation calibrate_ := (calibrate rms float_pow source).

(** Phase A with the dynamic flag set, on buffers that each stay at or
    below the threshold as the buffers before them have left it: the
    recogniser goes through the updates of a calibration. *)
Lemma listen_loop_adapts (m : nat) :
  forall (j fuel : nat) (fr : list buffer) (w : world),
    dynamic_energy_threshold (self w) = true ->
    (forall x, (1 <= x <= m)%nat -> (buffers_time source (j + x) <= t)%Q) ->
    (t < buffers_time source (S (j + m)))%Q ->
    (forall i, (i < m)%nat ->
               quiet rms source (self (calibrate_ i w)) (reads w + i)) ->
    (m < fuel)%nat ->
    loop_ fuel (PhaseA (buffers_time source j) fr) w
    = Raise WaitTimeoutError (calibrate_ m w).
Proof.
  induction m as [|m IH]; intros j fuel fr w Hdyn Hle Hgt Hq Hfuel;
    (destruct fuel as [|fuel]; [lia|]);
    cbn [listen_loop listen_step exceeds]; rewrite <- buffers_time_S.
  - rewrite Nat.add_0_r in Hgt. apply Qgtb_true in Hgt.
    rewrite (proj2 (truthy_Some t) t_truthy), Hgt. reflexivity.
  - pose proof (Hle 1%nat ltac:(lia)) as H1.
    replace (j + 1)%nat with (S j) in H1 by lia. apply Qgtb_false in H1.
    destruct (Hq 0%nat ltac:(lia)) as [Hne Hquiet].
    rewrite Nat.add_0_r in Hne, Hquiet. simpl calibrate in Hquiet.
    rewrite H1, andb_false_r.
    destruct (stream source (reads w)) as [|b0 bs] eqn:Eb; [contradiction|].
    simpl length. simpl Nat.eqb. cbv iota.
    change (self (after_read w)) with (self w). rewrite Hquiet, Hdyn.
    simpl calibrate. rewrite Eb.
    apply (IH (S j)).
    + exact Hdyn.
    + intros x Hx. replace (S j + x)%nat with (j + S x)%nat by lia.
      apply Hle. lia.
    + replace (S j + m)%nat with (j + S m)%nat by lia. exact Hgt.
    + intros i Hi. specialize (Hq (S i) ltac:(lia)).
      simpl calibrate in Hq. rewrite Eb in Hq.
      replace (reads w + S i)%nat with (S (reads w + i)) in Hq by lia.
      exact Hq.
    + lia.
Qed.
End ListenAdapts.

(** Waiting in [listen] with the dynamic flag set calibrates: when the
    [n] buffers within the timeout each stay at or below the threshold as
    it stands when they are read, [listen] raises [WaitTimeoutError] and
    leaves the recogniser and the stream where
    [adjust_for_ambient_noise] with the timeout as its duration leaves
    them. *)
Theorem listen_wait_calibrates
    (rms : buffer -> positive -> Z) (float_pow : Q -> Q -> Q)
    (source : AudioSource) (t : Q) (n fuel : nat) (w : world) :
  thresholds_ok (self w) = true ->
  dynamic_energy_threshold (self w) = true ->
  ~ (t == 0)%Q ->
  buffers_within source t n ->
  (forall i, (i < n)%nat ->
     quiet rms source (self (calibrate rms float_pow source i w))
       (reads w + i)) ->
  (n < fuel)%nat ->
  exists w',
    listen rms float_pow source (Some t) fuel w = Raise WaitTimeoutError w'
    /\ adjust_for_ambient_noise rms float_pow source t fuel w = Return tt w'
    /\ w' = calibrate rms float_pow source n w.
Proof.
  intros Hok Hdyn Ht Hwithin Hq Hfuel.
  exists (calibrate rms float_pow source n w).
  split; [|split; [|reflexivity]].
  - destruct Hwithin as [Hle Hgt].
    rewrite listen_unfold, Hok. simpl negb. cbv iota. unfold listen_phrase.
    change 0%Q with (buffers_time source 0).
    rewrite (listen_loop_adapts rms float_pow source t _ _ _ Ht
               n 0 fuel [] w);
      try assumption; try reflexivity.
  - apply adjust_for_ambient_noise_returns; assumption.
Qed.

(** Three seconds in the room that hums at energy 100, starting from the
    default threshold 600 with the dynamic flag set. *)
Lemma listen_wait_calibrates_witness :
  exists w',
    listen audioop_rms pow_int hum_source (Some 3%Q) 10
      (with_dynamic (fresh Recognizer_init) true)
    = Raise WaitTimeoutError w'
    /\ adjust_for_ambient_noise audioop_rms pow_int hum_source 3 10
         (with_dynamic (fresh Recognizer_init) true)
       = Return tt w'
    /\ w' = calibrate audioop_rms pow_int hum_source 3
              (with_dynamic (fresh Recognizer_init) true).
Proof.
  apply (listen_wait_calibrates audioop_rms pow_int hum_source 3 3 10
           (with_dynamic (fresh Recognizer_init) true)).
  - reflexivity.
  - reflexivity.
  - intros H; discriminate H.
  - apply (buffers_within_count_sound _ _ 5). vm_compute. reflexivity.
  - intros i Hi.
    do 3 (destruct i as [|i]; [split; [discriminate | vm_compute; reflexivity]|]).
    lia.
  - lia.
Defined.
